(** * y-postgresql: the update log and its compaction protocol

    A shallow embedding of the PostgreSQL adapter ([pg-adapter.ts], in its
    single-query and its keyset-paginated revision) and of the document log
    service built on it (in its synchronous and its fire-and-forget
    revision), followed by the properties of the log that the
    specification states, and by further properties of the code: of
    [connect], of the transactional [insertUpdate], of [deleteDocument],
    and of the service when calls fail or follow one another.

    JavaScript numbers are modelled by [Z]: every number the code handles
    here is a row id, a length or a clock, all exact integers below
    [MAX_SAFE_INTEGER].  A [Uint8Array]/[Buffer] is a [list byte]. *)

From Stdlib Require Import ZArith String Strings.Byte.
From Stdlib Require Import List Lia Bool Permutation Sorted.
Import ListNotations.
Open Scope Z_scope.

Set Implicit Arguments.

(** ** Errors and results *)

Inductive error : Type :=
| StorageUnavailable      (* a query round trip failed *)
| NoBufferProvided        (* decodeStateVectorBuffer: argument is no Buffer *)
| UnexpectedEndOfArray    (* lib0/decoding *)
| IntegerOutOfRange       (* lib0/decoding *)
| InvalidUpdate           (* Y.applyUpdate rejected the payload *)
| TypeError               (* a property of undefined was read *)
| OutOfFuel.              (* a loop of the model was cut short; no function
                             below returns it, see [readAllUpdates_fuel] *)

Inductive result (A : Type) : Type :=
| Ok (a : A)
| Err (e : error).
Arguments Ok {A} a.
Arguments Err {A} e.

Definition bytes := list byte.

(** ** lib0: variable-length unsigned integers and byte arrays

    The two external modules [lib0/encoding] and [lib0/decoding], for the
    four functions the service calls. *)

Module Lib0.

Definition BITS7 : Z := 127.
Definition BIT8 : Z := 128.
Definition MAX_SAFE_INTEGER : Z := 2 ^ 53 - 1.

(** Storing a number in a [Uint8Array] cell keeps it modulo 256. *)
Definition byte_of_Z (z : Z) : byte :=
  match Byte.of_N (Z.to_N (z mod 256)) with
  | Some b => b
  | None => x00
  end.

Definition Z_of_byte (b : byte) : Z := Z.of_N (Byte.to_N b).

(** An encoder is the bytes written so far. *)
Definition encoder := bytes.
Definition createEncoder : encoder := [].
Definition toUint8Array (e : encoder) : bytes := e.

Definition write (e : encoder) (num : Z) : encoder := e ++ [byte_of_Z num].

(** [while (num > BITS7) { write(BIT8 | (BITS7 & num)); num = floor(num / 128) }
    write(BITS7 & num)].  The loop runs once per 7 bits of [num]. *)
Fixpoint writeVarUint_loop (fuel : nat) (e : encoder) (num : Z) : encoder :=
  match fuel with
  | O => write e (Z.land BITS7 num)
  | S fuel' =>
      if num >? BITS7
      then writeVarUint_loop fuel' (write e (Z.lor BIT8 (Z.land BITS7 num))) (num / 128)
      else write e (Z.land BITS7 num)
  end.

Definition writeVarUint (e : encoder) (num : Z) : encoder :=
  writeVarUint_loop (S (Z.to_nat (Z.log2 num))) e num.

Definition writeUint8Array (e : encoder) (a : bytes) : encoder := e ++ a.

Definition writeVarUint8Array (e : encoder) (a : bytes) : encoder :=
  writeUint8Array (writeVarUint e (Z.of_nat (length a))) a.

(** A decoder is the array and the read position. *)
Record decoder : Type := mkDecoder { arr : bytes; pos : nat }.

Definition createDecoder (a : bytes) : decoder := mkDecoder a 0.

(** [readVarUint]: the loop over the bytes from [pos] on. *)
Fixpoint readVarUint_loop (rest : bytes) (num mult : Z) (p : nat)
  : result (Z * nat) :=
  match rest with
  | [] => Err UnexpectedEndOfArray
  | b :: rest' =>
      let r := Z_of_byte b in
      let num' := num + Z.land r BITS7 * mult in
      let mult' := mult * 128 in
      if r <? BIT8 then Ok (num', S p)
      else if num' >? MAX_SAFE_INTEGER then Err IntegerOutOfRange
      else readVarUint_loop rest' num' mult' (S p)
  end.

Definition readVarUint (d : decoder) : result (Z * decoder) :=
  match readVarUint_loop (skipn (pos d) (arr d)) 0 1 (pos d) with
  | Ok (n, p) => Ok (n, mkDecoder (arr d) p)
  | Err e => Err e
  end.

(** [readUint8Array]: a view of [len] bytes at [pos]; a view that leaves
    the array is a range error of the [Uint8Array] constructor. *)
Definition readUint8Array (d : decoder) (len : Z) : result (bytes * decoder) :=
  let rest := skipn (pos d) (arr d) in
  if (0 <=? len) && (len <=? Z.of_nat (length rest))
  then Ok (firstn (Z.to_nat len) rest, mkDecoder (arr d) (pos d + Z.to_nat len))
  else Err UnexpectedEndOfArray.

Definition readVarUint8Array (d : decoder) : result (bytes * decoder) :=
  match readVarUint d with
  | Ok (len, d') => readUint8Array d' len
  | Err e => Err e
  end.

End Lib0.

(** ** The table

    One physical table holds both kinds of row: the updates of a document
    ([version = 'v1']) and its state-vector row ([version = 'v1_sv']).
    [id] is [SERIAL PRIMARY KEY]: one counter for the whole table. *)

Inductive ypga_version : Type := v1 | v1_sv.

Definition version_eqb (a b : ypga_version) : bool :=
  match a, b with
  | v1, v1 | v1_sv, v1_sv => true
  | _, _ => false
  end.

Record Row : Type := mkRow {
  id : Z;
  docname : string;
  value : bytes;
  version : ypga_version
}.

Record database : Type := mkDb {
  table : list Row;   (* the rows, in physical order *)
  serial : Z          (* the next value of the id sequence *)
}.

(** [WHERE docname = d AND version = 'v1'] and its ['v1_sv'] sibling. *)
Definition is_update (d : string) (r : Row) : bool :=
  String.eqb (docname r) d && version_eqb (version r) v1.

Definition is_state_vector (d : string) (r : Row) : bool :=
  String.eqb (docname r) d && version_eqb (version r) v1_sv.

(** [ORDER BY id] *)
Fixpoint insert_by_id (r : Row) (l : list Row) : list Row :=
  match l with
  | [] => [r]
  | x :: l' => if id r <=? id x then r :: l else x :: insert_by_id r l'
  end.

Definition order_by_id (l : list Row) : list Row :=
  fold_right insert_by_id [] l.

(** [LIMIT n] *)
Definition limit (n : Z) (l : list Row) : list Row := firstn (Z.to_nat n) l.

(** The statements the adapter issues, with their parameters. *)
Inductive stmt : Type :=
| SelectLatest (d : string)
      (* SELECT id WHERE docname = d AND version = 'v1' ORDER BY id DESC LIMIT 1 *)
| InsertUpdate (d : string) (v : bytes)
      (* INSERT (docname, value, version) VALUES (d, v, 'v1') RETURNING * *)
| SelectStateVector (d : string)
      (* SELECT id, value WHERE docname = d AND version = 'v1_sv' LIMIT 1 *)
| UpdateStateVector (i : Z) (v : bytes)
      (* UPDATE SET value = v WHERE id = i RETURNING * *)
| InsertStateVector (d : string) (v : bytes)
      (* INSERT (docname, value, version) VALUES (d, v, 'v1_sv') RETURNING * *)
| DeleteRange (d : string) (from to : Z)
      (* DELETE WHERE docname = d AND version = 'v1' AND id >= from AND id < to *)
| SelectAll (d : string)
      (* SELECT id, docname, value WHERE docname = d AND version = 'v1' ORDER BY id *)
| SelectBatch (d : string) (lastId : Z) (n : Z)
      (* ... AND id > lastId ORDER BY id LIMIT n *)
| DeleteDocument (d : string).
      (* DELETE WHERE docname = d RETURNING * *)

Definition in_range (d : string) (from to : Z) (r : Row) : bool :=
  is_update d r && (from <=? id r) && (id r <? to).

Definition set_value (i : Z) (v : bytes) (r : Row) : Row :=
  if id r =? i then mkRow (id r) (docname r) v (version r) else r.

(** What a statement returns and what it leaves behind. *)
Definition exec (s : stmt) (b : database) : list Row * database :=
  match s with
  | SelectLatest d =>
      (limit 1 (rev (order_by_id (filter (is_update d) (table b)))), b)
  | InsertUpdate d v =>
      let r := mkRow (serial b) d v v1 in
      ([r], mkDb (table b ++ [r]) (serial b + 1))
  | SelectStateVector d =>
      (limit 1 (filter (is_state_vector d) (table b)), b)
  | UpdateStateVector i v =>
      let t := map (set_value i v) (table b) in
      (filter (fun r => id r =? i) t, mkDb t (serial b))
  | InsertStateVector d v =>
      let r := mkRow (serial b) d v v1_sv in
      ([r], mkDb (table b ++ [r]) (serial b + 1))
  | DeleteRange d from to =>
      ([], mkDb (filter (fun r => negb (in_range d from to r)) (table b)) (serial b))
  | SelectAll d =>
      (order_by_id (filter (is_update d) (table b)), b)
  | SelectBatch d lastId n =>
      (limit n (order_by_id
                  (filter (fun r => is_update d r && (lastId <? id r)) (table b))), b)
  | DeleteDocument d =>
      (filter (fun r => String.eqb (docname r) d) (table b),
       mkDb (filter (fun r => negb (String.eqb (docname r) d)) (table b)) (serial b))
  end.

(** ** The world and the monad of the asynchronous functions

    Every [pool.query] is one round trip; [faults] says, query by query,
    which round trips fail ([true]); past its end none does.  [journal]
    keeps the statements that ran, in order; [console] what
    [console.error] received. *)

Record World : Type := mkWorld {
  db : database;
  faults : list bool;
  journal : list stmt;
  console : list (string * error)
}.

Definition M (A : Type) : Type := World -> result A * World.

Definition ret {A} (a : A) : M A := fun w => (Ok a, w).

Definition throw {A} (e : error) : M A := fun w => (Err e, w).

Definition bind {A B} (m : M A) (f : A -> M B) : M B :=
  fun w =>
    match m w with
    | (Ok a, w') => f a w'
    | (Err e, w') => (Err e, w')
    end.

Notation "x <- m ;; f" := (bind m (fun x => f))
  (at level 61, m at next level, right associativity).
Notation "m ;;; f" := (bind m (fun _ => f))
  (at level 61, right associativity).

Definition lift {A} (r : result A) : M A := fun w => (r, w).

(** [await pool.query(...)] *)
Definition query (s : stmt) : M (list Row) :=
  fun w =>
    match faults w with
    | true :: fs =>
        (Err StorageUnavailable, mkWorld (db w) fs (journal w) (console w))
    | _ =>
        let (rows, b) := exec s (db w) in
        (Ok rows, mkWorld b (tl (faults w)) (journal w ++ [s]) (console w))
    end.

(** [promise.catch((err) => console.error(msg, err))] *)
Definition catch_log {A} (msg : string) (m : M A) : M unit :=
  fun w =>
    match m w with
    | (Ok _, w') => (Ok tt, w')
    | (Err e, w') =>
        (Ok tt, mkWorld (db w') (faults w') (journal w') (console w' ++ [(msg, e)]))
    end.

(** A promise that is started and not awaited, run at the first moment
    the event loop has for it, when the caller next suspends: its queries
    are issued after the query the caller is suspended on ([rest] issues
    at most one), and no error of it reaches the caller.  The event loop
    may as well run it later, after further statements of the caller;
    [Deferred] below is [storeUpdate] and [flushDocument] read that
    way. *)
Definition fire_and_forget {A} (msg : string) (task : M unit) (rest : M A) : M A :=
  fun w =>
    let (r, w1) := rest w in
    let (_, w2) := catch_log msg task w1 in
    (r, w2).

(** ** PgAdapter ([pg-adapter.ts]) *)

Module PgAdapter.

(** [res.rows[0]?.id ?? -1] *)
Definition findLatestDocumentId (docName : string) : M Z :=
  rows <- query (SelectLatest docName) ;;
  ret (match rows with r :: _ => id r | [] => -1 end).

(** [res.rows[0]] of the one-row [INSERT ... RETURNING].  This is the
    [insertUpdate] of the keyset revision; [pg-adapter.ts] runs the same
    [INSERT] between [BEGIN] and [COMMIT] on a client of its own and rolls
    back on an error, which leaves the same row, or none. *)
Definition insertUpdate (docName : string) (v : bytes) : M (option Row) :=
  rows <- query (InsertUpdate docName v) ;;
  ret (hd_error rows).

(** [LIMIT 1] without an order: the first state-vector row of the
    document in the table. *)
Definition _getStateVector (docName : string) : M (option Row) :=
  rows <- query (SelectStateVector docName) ;;
  ret (hd_error rows).

Definition getStateVectorBuffer (docName : string) : M (option bytes) :=
  svRow <- _getStateVector docName ;;
  ret (option_map value svRow).

Definition putStateVector (docName : string) (v : bytes) : M (option Row) :=
  sv <- _getStateVector docName ;;
  rows <- query (match sv with
                 | Some r => UpdateStateVector (id r) v
                 | None => InsertStateVector docName v
                 end) ;;
  ret (hd_error rows).

Definition clearUpdatesRange (docName : string) (from to : Z) : M unit :=
  query (DeleteRange docName from to) ;;;
  ret tt.

(** The records handed to the callback: [{ id, docname, value, version: 'v1' }] *)
Definition as_update (row : Row) : Row :=
  mkRow (id row) (docname row) (value row) v1.

(** [readAllUpdates] of [pg-adapter.ts]: one query, one call of the
    callback with all the rows.  The callback works on state of the
    caller, [S] here, and may throw. *)
Definition readAllUpdates {S : Type} (docName : string)
    (callback : S -> list Row -> result S) (s : S) : M (Z * S) :=
  res <- query (SelectAll docName) ;;
  let rows := map as_update res in
  s' <- lift (callback s rows) ;;
  ret (Z.of_nat (length rows), s').

Definition deleteDocument (docName : string) : M (list Row) :=
  query (DeleteDocument docName).

End PgAdapter.

(** ** PgAdapter, the revision whose [readAllUpdates] pages by keyset *)

Module PgAdapterPaged.

Definition BATCH_SIZE : Z := 1000.

(** The [while (true)] loop; [fuel] bounds its iterations in the model. *)
Fixpoint readAllUpdates_loop {S : Type} (fuel : nat) (docName : string)
    (callback : S -> list Row -> result S) (lastId totalCount : Z) (s : S)
  : M (Z * S) :=
  match fuel with
  | O => throw OutOfFuel
  | Datatypes.S fuel' =>
      res <- query (SelectBatch docName lastId BATCH_SIZE) ;;
      match res with
      | [] => ret (totalCount, s)
      | _ :: _ =>
          let rows := map PgAdapter.as_update res in
          let lastId' := id (last rows (mkRow 0 EmptyString [] v1)) in
          let totalCount' := totalCount + Z.of_nat (length rows) in
          s' <- lift (callback s rows) ;;
          if Z.of_nat (length rows) <? BATCH_SIZE
          then ret (totalCount', s')
          else readAllUpdates_loop fuel' docName callback lastId' totalCount' s'
      end
  end.

(** Every further iteration has found a page of rows with larger ids, so
    there are no more iterations than rows, plus the last one. *)
Definition readAllUpdates {S : Type} (docName : string)
    (callback : S -> list Row -> result S) (s : S) : M (Z * S) :=
  fun w =>
    readAllUpdates_loop (Datatypes.S (length (table (db w))))
                        docName callback (-1) 0 s w.

End PgAdapterPaged.

(** The service is written against either revision of [readAllUpdates]. *)
Definition scanner : Type :=
  forall S : Type, string -> (S -> list Row -> result S) -> S -> M (Z * S).

Definition single_query : scanner := @PgAdapter.readAllUpdates.
Definition keyset : scanner := @PgAdapterPaged.readAllUpdates.

(** ** Yjs, as far as the service uses it

    The document type is opaque: a fresh document, applying an update
    (which throws on a payload that is no update), and the two encoders. *)

Class Yjs : Type := {
  Doc : Type;
  newDoc : Doc;
  applyUpdate : Doc -> bytes -> option Doc;
  encodeStateVector : Doc -> bytes;
  encodeStateAsUpdate : Doc -> bytes
}.

Definition Y_applyUpdate `{Yjs} (ydoc : Doc) (update : bytes) : result Doc :=
  match applyUpdate ydoc update with
  | Some ydoc' => Ok ydoc'
  | None => Err InvalidUpdate
  end.

(** [ydoc.transact(() => { for (...) Y.applyUpdate(ydoc, ...) })] *)
Fixpoint applyUpdates `{Yjs} (ydoc : Doc) (updates : list bytes) : result Doc :=
  match updates with
  | [] => Ok ydoc
  | u :: rest =>
      match Y_applyUpdate ydoc u with
      | Ok ydoc' => applyUpdates ydoc' rest
      | Err e => Err e
      end
  end.

(** ** The service: what its two revisions share *)

(** What [decodeStateVectorBuffer] may be handed. *)
Inductive buffer_arg : Type :=
| IsBuffer (b : bytes)          (* Buffer.isBuffer(buffer) *)
| HoldsBuffer (b : bytes)       (* Buffer.isBuffer(buffer.buffer) *)
| NoBuffer.

Definition decodeStateVectorBuffer (buffer : buffer_arg) : result (bytes * Z) :=
  match (match buffer with
         | IsBuffer b => Ok (Lib0.createDecoder b)
         | HoldsBuffer b => Ok (Lib0.createDecoder b)
         | NoBuffer => Err NoBufferProvided
         end) with
  | Err e => Err e
  | Ok decoder =>
      match Lib0.readVarUint decoder with
      | Err e => Err e
      | Ok (clock, decoder') =>
          match Lib0.readVarUint8Array decoder' with
          | Err e => Err e
          | Ok (sv, _) => Ok (sv, clock)
          end
      end
  end.

(** The bytes [writeStateVector] hands to [putStateVector]. *)
Definition encodeStateVectorBuffer (sv : bytes) (clock : Z) : bytes :=
  Lib0.toUint8Array
    (Lib0.writeVarUint8Array (Lib0.writeVarUint Lib0.createEncoder clock) sv).

(** [{ sv: null, clock: -1 }] when there is no row; the driver returns a
    [BYTEA] column as a [Buffer]. *)
Definition readStateVector (docName : string) : M (option bytes * Z) :=
  svBuffer <- PgAdapter.getStateVectorBuffer docName ;;
  match svBuffer with
  | None => ret (None, -1)
  | Some b =>
      r <- lift (decodeStateVectorBuffer (IsBuffer b)) ;;
      ret (Some (fst r), snd r)
  end.

Definition writeStateVector (docName : string) (sv : bytes) (clock : Z)
  : M (option Row) :=
  PgAdapter.putStateVector docName (encodeStateVectorBuffer sv clock).

Definition getCurrentUpdateClock (docName : string) : M Z :=
  PgAdapter.findLatestDocumentId docName.

(** [storedDoc.id] *)
Definition id_of (storedDoc : option Row) : result Z :=
  match storedDoc with
  | Some r => Ok (id r)
  | None => Err TypeError
  end.

(** [flushDocument] reads the same in both revisions; it calls the
    [storeUpdate] of its own. *)
Definition flushDocument_with (storeUpdate : string -> bytes -> M Z)
    (docName : string) (stateAsUpdate stateVector : bytes) : M Z :=
  clock <- storeUpdate docName stateAsUpdate ;;
  writeStateVector docName stateVector clock ;;;
  PgAdapter.clearUpdatesRange docName 0 clock ;;;
  ret clock.

(** What both revisions of [storeUpdate] do for a document without
    updates, the one before it goes on, the other in a promise it does not
    await:
    [const ydoc = new Y.Doc(); Y.applyUpdate(ydoc, update);
     const sv = Y.encodeStateVector(ydoc);
     await writeStateVector(db, docName, sv, 0)] *)
Definition writeInitialStateVector `{Yjs} (docName : string) (update : bytes)
  : M unit :=
  ydoc <- lift (Y_applyUpdate newDoc update) ;;
  writeStateVector docName (encodeStateVector ydoc) 0 ;;;
  ret tt.

(** ** The service, synchronous revision *)

Module Sync.
Section WithYjs.
Context `{Yjs}.

Definition storeUpdate (docName : string) (update : bytes) : M Z :=
  clock <- getCurrentUpdateClock docName ;;
  (if clock =? -1
   then writeInitialStateVector docName update
   else ret tt) ;;;
  storedDoc <- PgAdapter.insertUpdate docName update ;;
  lift (id_of storedDoc).

Definition flushDocument : string -> bytes -> bytes -> M Z :=
  flushDocument_with storeUpdate.

(** The callback collects the payloads; they are applied afterwards in
    one transaction; the count is the one [readAllUpdates] returns. *)
Definition getYDocFromDb (readAllUpdates : scanner)
    (docName : string) (flushSize : Z) : M Doc :=
  r <- readAllUpdates (list bytes) docName
         (fun updates partial => Ok (updates ++ map value partial)) [] ;;
  let updatesCount := fst r in
  let updates := snd r in
  ydoc <- lift (applyUpdates newDoc updates) ;;
  (if updatesCount >? flushSize
   then flushDocument docName (encodeStateAsUpdate ydoc) (encodeStateVector ydoc) ;;;
        ret tt
   else ret tt) ;;;
  ret ydoc.

End WithYjs.
End Sync.

(** ** The service, fire-and-forget revision *)

Module Async.
Section WithYjs.
Context `{Yjs}.

Definition init_failed : string :=
  "[storeUpdate] Failed to write initial state vector:".
Definition flush_error : string := "[getYDocFromDb] flush error:".

Definition storeUpdate (docName : string) (update : bytes) : M Z :=
  clock <- getCurrentUpdateClock docName ;;
  storedDoc <-
    (if clock =? -1
     then
       fire_and_forget init_failed
         (writeInitialStateVector docName update)
         (PgAdapter.insertUpdate docName update)
     else PgAdapter.insertUpdate docName update) ;;
  lift (id_of storedDoc).

Definition flushDocument : string -> bytes -> bytes -> M Z :=
  flushDocument_with storeUpdate.

(** The callback applies each page in a transaction of its own and counts
    the pages; the size of the log is taken to be 1000 per page. *)
Definition getYDocFromDb (readAllUpdates : scanner)
    (docName : string) (flushSize : Z) : M Doc :=
  r <- readAllUpdates (Doc * Z)%type docName
         (fun st partial =>
            match applyUpdates (fst st) (map value partial) with
            | Ok ydoc => Ok (ydoc, snd st + 1)
            | Err e => Err e
            end)
         (newDoc, 0) ;;
  let ydoc := fst (snd r) in
  let batchCount := snd (snd r) in
  let totalUpdates := batchCount * 1000 in
  if totalUpdates >? flushSize
  then
    fire_and_forget flush_error
      (flushDocument docName (encodeStateAsUpdate ydoc) (encodeStateVector ydoc) ;;;
       ret tt)
      (ret ydoc)
  else ret ydoc.

End WithYjs.
End Async.

(** ** Runs of the service *)

Inductive paging : Type := SingleQuery | Keyset.

Definition readAllUpdates_of (p : paging) : scanner :=
  match p with
  | SingleQuery => single_query
  | Keyset => keyset
  end.

Arguments readAllUpdates_of : clear implicits.

Inductive revision : Type := Synchronous | FireAndForget.

Inductive operation : Type :=
| RecordUpdate (docName : string) (update : bytes)
| LoadDocument (docName : string) (flushSize : Z)
| Compact (docName : string) (stateAsUpdate stateVector : bytes)
| DeleteDoc (docName : string).

Definition delete_free (o : operation) : Prop :=
  match o with
  | DeleteDoc _ => False
  | _ => True
  end.

Section Runs.
Context `{Yjs}.

Definition run (rev : revision) (p : paging) (o : operation) : M unit :=
  match o, rev with
  | RecordUpdate d u, Synchronous => Sync.storeUpdate d u ;;; ret tt
  | RecordUpdate d u, FireAndForget => Async.storeUpdate d u ;;; ret tt
  | LoadDocument d n, Synchronous =>
      Sync.getYDocFromDb (readAllUpdates_of p) d n ;;; ret tt
  | LoadDocument d n, FireAndForget =>
      Async.getYDocFromDb (readAllUpdates_of p) d n ;;; ret tt
  | Compact d su sv, Synchronous => Sync.flushDocument d su sv ;;; ret tt
  | Compact d su sv, FireAndForget => Async.flushDocument d su sv ;;; ret tt
  | DeleteDoc d, _ => PgAdapter.deleteDocument d ;;; ret tt
  end.

(** The world an operation leaves, whether it returned or threw. *)
Definition step (rev : revision) (p : paging) (w : World) (o : operation) : World :=
  snd (run rev p o w).

Definition steps (rev : revision) (p : paging) (os : list operation) (w : World)
  : World :=
  fold_left (step rev p) os w.

End Runs.

(** A fresh table: no rows, and the sequence starts at 1. *)
Definition empty_db : database := mkDb [] 1.

Definition world_of (b : database) (fs : list bool) : World := mkWorld b fs [] [].

(** ** What the table looks like when only the service writes to it *)

Definition updates_of (d : string) (b : database) : list Row :=
  filter (is_update d) (table b).

(** The row [_getStateVector] finds. *)
Definition checkpoint_of (d : string) (b : database) : option Row :=
  hd_error (filter (is_state_vector d) (table b)).

(** [id SERIAL PRIMARY KEY]: the sequence starts at 1, ids are distinct
    and were drawn from it. *)
Definition serial_key (b : database) : Prop :=
  1 <= serial b /\
  NoDup (map id (table b)) /\
  forall r, In r (table b) -> 1 <= id r < serial b.

(** At most one state-vector row per document. *)
Definition one_checkpoint (b : database) : Prop :=
  forall d, (length (filter (is_state_vector d) (table b)) <= 1)%nat.

(** Each state-vector row was written by [writeStateVector], with a clock
    that is 0 or is at most the id of an update of the document that is
    still there. *)
Definition checkpoints_sound (b : database) : Prop :=
  forall r, In r (table b) -> version r = v1_sv ->
    exists sv c,
      value r = encodeStateVectorBuffer sv c /\ 0 <= c /\
      (c = 0 \/
       exists r', In r' (table b) /\ is_update (docname r) r' = true /\ c <= id r').

Definition checkpoints_ok (b : database) : Prop :=
  one_checkpoint b /\ checkpoints_sound b.

Definition log_ok (b : database) : Prop := serial_key b /\ checkpoints_ok b.

(** The clock stored for [d] in [b'] is at least the one stored in [b]. *)
Definition watermark_le (d : string) (b b' : database) : Prop :=
  forall r sv c,
    checkpoint_of d b = Some r ->
    value r = encodeStateVectorBuffer sv c -> 0 <= c ->
    exists r' sv' c',
      checkpoint_of d b' = Some r' /\
      value r' = encodeStateVectorBuffer sv' c' /\ 0 <= c' /\ c <= c'.

(** ** A small document model to run the service on

    A document is the list of the updates it received; the empty payload
    is no update. *)

#[export] Instance LogDoc : Yjs := {|
  Doc := list bytes;
  newDoc := [];
  applyUpdate := fun ydoc u =>
    match u with
    | [] => None
    | _ :: _ => Some (ydoc ++ [u])
    end;
  encodeStateVector := fun ydoc => [Lib0.byte_of_Z (Z.of_nat (length ydoc))];
  encodeStateAsUpdate := fun ydoc => x01 :: concat ydoc
|}.

(** The number a varuint stands for, and the bytes after it: the decoding
    of [readVarUint] read as a function of the bytes alone. *)
Fixpoint varuint_value (bs : bytes) : option (Z * bytes) :=
  match bs with
  | [] => None
  | b :: rest =>
      let r := Lib0.Z_of_byte b in
      if r <? Lib0.BIT8 then Some (Z.land r Lib0.BITS7, rest)
      else match varuint_value rest with
           | Some (n, tl) => Some (Z.land r Lib0.BITS7 + n * 128, tl)
           | None => None
           end
  end.

(** ** Vocabulary of the properties *)

(** The two orders [ORDER BY id] can leave the rows in. *)
Definition by_id (a b : Row) : Prop := id a <= id b.
Definition by_id_strict (a b : Row) : Prop := id a < id b.

(** A round trip either fails and changes nothing but the schedule of
    faults, or runs the statement. *)
Definition failed (w w' : World) : Prop :=
  db w' = db w /\ journal w' = journal w /\ console w' = console w /\
  exists fs, faults w = true :: fs /\ faults w' = fs.

Definition ran (s : stmt) (w w' : World) : Prop :=
  db w' = snd (exec s (db w)) /\ journal w' = journal w ++ [s] /\
  console w' = console w /\ hd false (faults w) = false /\
  faults w' = tl (faults w).

(** [i] is what [latest_sequence] should answer for [d]. *)
Definition is_latest (d : string) (b : database) (i : Z) : Prop :=
  (updates_of d b = [] /\ i = -1) \/
  (exists r, In r (updates_of d b) /\ id r = i /\
             forall r', In r' (updates_of d b) -> id r' <= i).

(** The statement [putStateVector] issues after its lookup. *)
Definition put_stmt (d : string) (v : bytes) (b : database) : stmt :=
  match checkpoint_of d b with
  | Some r => UpdateStateVector (id r) v
  | None => InsertStateVector d v
  end.

(** What an error handler of a promise leaves: one more line on the
    console. *)
Definition logged (msg : string) (e : error) (w w' : World) : Prop :=
  db w' = db w /\ journal w' = journal w /\ faults w' = faults w /\
  console w' = console w ++ [(msg, e)].

(** The writes of the adapter, as steps of the table: one [INSERT] of an
    update, one upsert of the state vector, one ranged [DELETE], one
    [DELETE] of a document. *)
Inductive adapter_step : database -> database -> Prop :=
| step_insert b d v :
    adapter_step b (snd (exec (InsertUpdate d v) b))
| step_put b d v :
    adapter_step b (snd (exec (put_stmt d v b) b))
| step_clear b d from to :
    adapter_step b (snd (exec (DeleteRange d from to) b))
| step_delete b d :
    adapter_step b (snd (exec (DeleteDocument d) b)).

Inductive adapter_steps : database -> database -> Prop :=
| steps_refl b : adapter_steps b b
| steps_then b b1 b2 :
    adapter_steps b b1 -> adapter_step b1 b2 -> adapter_steps b b2.

(** A computation whose effect on the table, whatever it returns or
    throws, is within the relation [R]. *)
Definition respects {A} (R : database -> database -> Prop) (m : M A) : Prop :=
  forall w r w', m w = (r, w') -> R (db w) (db w').

(** From [b0] to [b] the table stayed well-formed and no stored clock
    went down. *)
Definition keeps (b0 b : database) : Prop :=
  log_ok b /\ forall d, watermark_le d b0 b.

(** The update [storeUpdate] returned the id of: it is in the table, and
    no update of the document has a larger id. *)
Definition stored (d : string) (u : bytes) (i : Z) (b : database) : Prop :=
  1 <= i /\ In (mkRow i d u v1) (table b) /\
  forall x, In x (updates_of d b) -> id x <= i.

(** From [b] to [b'] what [keeps] says of [b0] carries over. *)
Definition keeps_from (b0 b b' : database) : Prop :=
  keeps b0 b -> keeps b0 b'.

(** The statements by which [storeUpdate] looks up the latest id and
    keeps the state-vector row: none of them adds or removes an update. *)
Definition bookkeeping (s : stmt) : Prop :=
  match s with
  | SelectLatest _ | SelectStateVector _
  | UpdateStateVector _ _ | InsertStateVector _ _ => True
  | _ => False
  end.

(** [storeUpdate] without the promise it does not await. *)
Definition storeUpdate_foreground (docName : string) (update : bytes) : M Z :=
  getCurrentUpdateClock docName ;;;
  storedDoc <- PgAdapter.insertUpdate docName update ;;
  lift (id_of storedDoc).

Section Revisions.
Context `{Yjs}.

Definition storeUpdate_of (rev : revision) : string -> bytes -> M Z :=
  match rev with
  | Synchronous => Sync.storeUpdate
  | FireAndForget => Async.storeUpdate
  end.

Definition flushDocument_of (rev : revision) : string -> bytes -> bytes -> M Z :=
  match rev with
  | Synchronous => Sync.flushDocument
  | FireAndForget => Async.flushDocument
  end.

End Revisions.

(** The world after a round trip that ran [s]. *)
Definition after (s : stmt) (w : World) : World :=
  mkWorld (snd (exec s (db w))) (tl (faults w)) (journal w ++ [s]) (console w).

(** A table to run the service on: document "doc" with its state-vector
    row and two updates, and one update of another document. *)
Definition sample_db : database :=
  mkDb [mkRow 1 "doc" (encodeStateVectorBuffer [x01] 0) v1_sv;
        mkRow 2 "doc" [x0a] v1;
        mkRow 3 "other" [x0c] v1;
        mkRow 4 "doc" [x0b] v1] 5.

(** A callback that keeps the pages it is handed, in order. *)
Definition collect (pages : list (list Row)) (page : list Row)
  : result (list (list Row)) :=
  Ok (pages ++ [page]).

(** The id [readAllUpdates] takes as its cursor after a page, and the
    pages after which it asks for more. *)
Definition last_id (page : list Row) : Z :=
  id (last page (mkRow 0 EmptyString [] v1)).

Definition full (page : list Row) : bool :=
  Z.of_nat (length page) =? PgAdapterPaged.BATCH_SIZE.

(** ** Code that holds more than the table

    [insertUpdate] of [pg-adapter.ts] works on a client of the pool, and
    [connect] on the catalog of the server.  Their monad is the one of the
    service, over a state of their own, with [try], [catch] and
    [finally]. *)

Module Stateful.

Definition T (St A : Type) : Type := St -> result A * St.

Definition ret {St A} (a : A) : T St A := fun s => (Ok a, s).

Definition throw {St A} (e : error) : T St A := fun s => (Err e, s).

Definition bind {St A B} (m : T St A) (f : A -> T St B) : T St B :=
  fun s =>
    match m s with
    | (Ok a, s') => f a s'
    | (Err e, s') => (Err e, s')
    end.

Definition lift {St A} (r : result A) : T St A := fun s => (r, s).

(** [try { body } catch (error) { handler }] *)
Definition try_catch {St A} (body : T St A) (handler : error -> T St A)
  : T St A :=
  fun s =>
    match body s with
    | (Ok a, s') => (Ok a, s')
    | (Err e, s') => handler e s'
    end.

(** [try { body } finally { cleanup }], for a cleanup that does not
    throw. *)
Definition finally {St A} (body : T St A) (cleanup : St -> St) : T St A :=
  fun s => let (r, s') := body s in (r, cleanup s').

End Stateful.

Declare Scope stateful_scope.
Delimit Scope stateful_scope with stateful.
Notation "x <- m ;; f" := (Stateful.bind m (fun x => f))
  (at level 61, m at next level, right associativity) : stateful_scope.
Notation "m ;;; f" := (Stateful.bind m (fun _ => f))
  (at level 61, right associativity) : stateful_scope.

(** ** [insertUpdate] of [pg-adapter.ts]: one transaction on a client

    The pool hands out a client; what is sent on it between [BEGIN] and
    [COMMIT] is seen by the table at [COMMIT] only, except for the
    sequence, whose values are not given back.  A round trip that fails
    does nothing. *)

Module PgAdapterTx.

Inductive client_stmt : Type :=
| BEGIN
| COMMIT
| ROLLBACK
| Sql (s : stmt).

Record Session : Type := mkSession {
  world : World;                     (* the table as committed; faults; journal *)
  transaction : option (list Row);   (* the rows as the open transaction has them *)
  in_use : nat;                      (* clients taken from the pool, not released *)
  sent : list client_stmt            (* what was sent on the clients *)
}.

Definition with_faults (fs : list bool) (s : Session) : Session :=
  mkSession (mkWorld (db (world s)) fs (journal (world s)) (console (world s)))
            (transaction s) (in_use s) (sent s).

(** One round trip: it fails, or it has its effect. *)
Definition round_trip {A} (effect : Session -> A * Session)
  : Stateful.T Session A :=
  fun s =>
    match faults (world s) with
    | true :: fs => (Err StorageUnavailable, with_faults fs s)
    | _ =>
        let (a, s') := effect s in
        (Ok a, with_faults (tl (faults (world s))) s')
    end.

(** [await this.pool.connect()]: a client without an open transaction. *)
Definition pool_connect : Stateful.T Session unit :=
  round_trip (fun s =>
    (tt, mkSession (world s) None (S (in_use s)) (sent s))).

(** What a statement does on the client. *)
Definition client_exec (c : client_stmt) (s : Session) : list Row * Session :=
  let w := world s in
  match c with
  | BEGIN =>
      ([], mkSession w
             (match transaction s with
              | None => Some (table (db w))
              | Some rows => Some rows
              end)
             (in_use s) (sent s ++ [c]))
  | COMMIT =>
      ([], mkSession
             (match transaction s with
              | None => w
              | Some rows =>
                  mkWorld (mkDb rows (serial (db w))) (faults w) (journal w)
                          (console w)
              end)
             None (in_use s) (sent s ++ [c]))
  | ROLLBACK => ([], mkSession w None (in_use s) (sent s ++ [c]))
  | Sql q =>
      match transaction s with
      | None =>
          let (res, b) := exec q (db w) in
          (res, mkSession (mkWorld b (faults w) (journal w ++ [q]) (console w))
                          None (in_use s) (sent s ++ [c]))
      | Some rows =>
          let (res, b) := exec q (mkDb rows (serial (db w))) in
          (res, mkSession
                  (mkWorld (mkDb (table (db w)) (serial b)) (faults w)
                           (journal w ++ [q]) (console w))
                  (Some (table b)) (in_use s) (sent s ++ [c]))
      end
  end.

(** [await client.query(...)] *)
Definition client_query (c : client_stmt) : Stateful.T Session (list Row) :=
  round_trip (client_exec c).

(** [client.release()] *)
Definition release (s : Session) : Session :=
  mkSession (world s) (transaction s) (pred (in_use s)) (sent s).

Local Open Scope stateful_scope.

(** [return { id: res.rows[0].id }]: the id is what the service reads. *)
Definition insertUpdate (docName : string) (v : bytes) : Stateful.T Session Z :=
  pool_connect ;;;
  Stateful.finally
    (Stateful.try_catch
       (client_query BEGIN ;;;
        res <- client_query (Sql (InsertUpdate docName v)) ;;
        client_query COMMIT ;;;
        Stateful.lift (id_of (hd_error res)))
       (fun error => client_query ROLLBACK ;;; Stateful.throw error))
    release.

End PgAdapterTx.

(** ** [connect]: the table, its type and its indexes

    The catalog of the server as [connect] reads and writes it: the enum
    type, the tables of the schema [public], and the indexes with the
    table each is on.  Tables and indexes share their names; a table of
    the given name is taken to have the columns [connect] gives it. *)

Module Schema.

Record catalog : Type := mkCatalog {
  types : list string;                  (* pg_type: typname *)
  tables : list string;                 (* pg_tables: tablename *)
  indexes : list (string * string)      (* pg_indexes: (tablename, indexname) *)
}.

Inductive statement : Type :=
| SelectOne
      (* SELECT 1+1 *)
| TableExists (t : string)
      (* SELECT EXISTS (SELECT FROM pg_tables WHERE schemaname = 'public'
                        AND tablename = t) *)
| CreateTypeIfMissing
      (* DO: IF NOT EXISTS (... typname = 'ypga_version') THEN CREATE TYPE ... *)
| CreateTable (t : string)
      (* CREATE TABLE t (id SERIAL PRIMARY KEY, docname ..., value ...,
                         version ypga_version NOT NULL) *)
| IndexExists (t i : string)
      (* SELECT EXISTS (SELECT FROM pg_indexes WHERE tablename = t
                        AND indexname = i) *)
| CreateIndex (i t : string) (columns : list string).
      (* CREATE INDEX i ON t (columns) *)

Definition mem (x : string) (l : list string) : bool :=
  existsb (String.eqb x) l.

Definition has_index (t i : string) (c : catalog) : bool :=
  existsb (fun ti => String.eqb (fst ti) t && String.eqb (snd ti) i) (indexes c).

(** A name that a table or an index has. *)
Definition relation (n : string) (c : catalog) : bool :=
  mem n (tables c) || mem n (map snd (indexes c)).

Definition version_type : string := "ypga_version".

(** What a statement answers (its [exists] column, for the two that have
    one) and what it leaves; [None] when the server refuses it. *)
Definition run_statement (q : statement) (c : catalog) : option (bool * catalog) :=
  match q with
  | SelectOne => Some (false, c)
  | TableExists t => Some (mem t (tables c), c)
  | CreateTypeIfMissing =>
      Some (false,
            if mem version_type (types c) then c
            else mkCatalog (version_type :: types c) (tables c) (indexes c))
  | CreateTable t =>
      if relation t c || negb (mem version_type (types c)) then None
      else Some (false, mkCatalog (types c) (t :: tables c) (indexes c))
  | IndexExists t i => Some (has_index t i c, c)
  | CreateIndex i t _ =>
      if relation i c || negb (mem t (tables c)) then None
      else Some (false, mkCatalog (types c) (tables c) ((t, i) :: indexes c))
  end.

Record Server : Type := mkServer {
  cat : catalog;
  outages : list bool;          (* round trip by round trip, as [faults] *)
  issued : list statement       (* the statements that reached the server *)
}.

(** [await pool.query(...)], reduced to [res.rows[0].exists]. *)
Definition query (q : statement) : Stateful.T Server bool :=
  fun s =>
    match outages s with
    | true :: fs => (Err StorageUnavailable, mkServer (cat s) fs (issued s))
    | _ =>
        match run_statement q (cat s) with
        | Some (r, c) => (Ok r, mkServer c (tl (outages s)) (issued s ++ [q]))
        | None =>
            (Err StorageUnavailable,
             mkServer (cat s) (tl (outages s)) (issued s ++ [q]))
        end
    end.

Definition docname_idx (tableName : string) : string :=
  tableName ++ "_docname_idx".

Definition docname_id_idx (tableName : string) : string :=
  tableName ++ "_docname_id_idx".

Local Open Scope stateful_scope.

(** [PgAdapter.connect]; the adapter it returns is the name of its table
    (and the pool). *)
Definition connect (tableName : string) (useIndex : bool)
  : Stateful.T Server string :=
  query SelectOne ;;;
  tableExists <- query (TableExists tableName) ;;
  (if negb tableExists
   then query CreateTypeIfMissing ;;;
        query (CreateTable tableName) ;;;
        Stateful.ret tt
   else Stateful.ret tt) ;;;
  (if useIndex
   then
     let indexName := docname_idx tableName in
     indexDocNameExists <- query (IndexExists tableName indexName) ;;
     (if negb indexDocNameExists
      then query (CreateIndex indexName tableName ["docname"%string]) ;;;
           Stateful.ret tt
      else Stateful.ret tt) ;;;
     let idx2 := docname_id_idx tableName in
     idx2Exists <- query (IndexExists tableName idx2) ;;
     (if negb idx2Exists
      then query (CreateIndex idx2 tableName ["docname"%string; "id"%string]) ;;;
           Stateful.ret tt
      else Stateful.ret tt)
   else Stateful.ret tt) ;;;
  Stateful.ret tableName.

(** The statements of [connect] that only ask. *)
Definition probe (q : statement) : Prop :=
  match q with
  | SelectOne | TableExists _ | IndexExists _ _ => True
  | _ => False
  end.

(** Nothing in the catalog stands in the way of [connect] for the table
    [t]: no index has the name of the table, no table has the name of
    one of its two indexes, and an index of such a name is on the table. *)
Definition compatible (t : string) (c : catalog) : Prop :=
  mem t (map snd (indexes c)) = false /\
  forall i, i = docname_idx t \/ i = docname_id_idx t ->
    mem i (tables c) = false /\
    (mem i (map snd (indexes c)) = true ->
     has_index t i c = true /\ mem t (tables c) = true).

(** What is in [c] is in [c']. *)
Definition extends (c c' : catalog) : Prop :=
  incl (types c) (types c') /\ incl (tables c) (tables c') /\
  incl (indexes c) (indexes c').

Definition empty_catalog : catalog := mkCatalog [] [] [].

End Schema.

(** ** Vocabulary of the further properties: documents side by side *)

(** [WHERE docname = d]: the rows of a document, of both kinds. *)
Definition rows_of (d : string) (b : database) : list Row :=
  filter (fun r => String.eqb (docname r) d) (table b).

(** The document an operation is about. *)
Definition docName_of (o : operation) : string :=
  match o with
  | RecordUpdate d _ | LoadDocument d _ | Compact d _ _ | DeleteDoc d => d
  end.

(** From [b] to [b'] the key was kept and the rows of [d'] are the same. *)
Definition untouched (d' : string) (b b' : database) : Prop :=
  serial_key b -> serial_key b' /\ rows_of d' b' = rows_of d' b.

(** From [b] to [b'] the key was kept and no update was added, removed
    or changed. *)
Definition same_updates (b b' : database) : Prop :=
  serial_key b ->
  serial_key b' /\ forall d, updates_of d b' = updates_of d b.

(** ** Vocabulary of the further properties: loading *)

(** The callback of the synchronous [getYDocFromDb] hands the rows of a
    page to one call, [updates.push(...page)], and a call takes only as
    many arguments as the engine has stack for: with the one query of
    [pg-adapter.ts], a page of some hundred thousand rows is refused.
    [Sync.getYDocFromDb] does not model the refusal; what is said of it
    with [SingleQuery] is said of documents of at most [spread_safe]
    updates, the length the pages of the keyset revision are held to. *)
Definition spread_safe : Z := 1000.

(** A callback called on the pages, one after the other. *)
Fixpoint visit {S : Type} (callback : S -> list Row -> result S)
    (pages : list (list Row)) (s : S) : result S :=
  match pages with
  | [] => Ok s
  | page :: rest =>
      match callback s page with
      | Ok s' => visit callback rest s'
      | Err e => Err e
      end
  end.

Section Loading.
Context `{Yjs}.

Definition getYDocFromDb_of (rev : revision)
  : scanner -> string -> Z -> M Doc :=
  match rev with
  | Synchronous => Sync.getYDocFromDb
  | FireAndForget => Async.getYDocFromDb
  end.

(** The callback of the fire-and-forget [getYDocFromDb]. *)
Definition apply_page (st : Doc * Z) (partial : list Row) : result (Doc * Z) :=
  match applyUpdates (fst st) (map value partial) with
  | Ok ydoc => Ok (ydoc, snd st + 1)
  | Err e => Err e
  end.

(** The fire-and-forget [getYDocFromDb] up to the check of [flushSize]:
    the scan, and the document it built. *)
Definition getYDocFromDb_foreground (readAllUpdates : scanner)
    (docName : string) : M Doc :=
  r <- readAllUpdates (Doc * Z)%type docName apply_page (newDoc, 0) ;;
  ret (fst (snd r)).

(** The promise [getYDocFromDb] starts and does not await. *)
Definition flush_in_background (docName : string) (ydoc : Doc) : M unit :=
  Async.flushDocument docName (encodeStateAsUpdate ydoc) (encodeStateVector ydoc) ;;;
  ret tt.

End Loading.

(** The lines the two [catch] handlers of the fire-and-forget revision
    write. *)
Definition background_line (line : string * error) : Prop :=
  fst line = Async.flush_error \/ fst line = Async.init_failed.

(** A computation that writes to the console nothing but lines in [P]. *)
Definition says {A} (P : string * error -> Prop) (m : M A) : Prop :=
  forall w r w', m w = (r, w') ->
    exists lines, console w' = console w ++ lines /\ Forall P lines.

(** The queries of [readAllUpdates] for a document: the one of
    [pg-adapter.ts], or a page of the keyset revision. *)
Definition scan_query (d : string) (s : stmt) : Prop :=
  s = SelectAll d \/ exists c, s = SelectBatch d c PgAdapterPaged.BATCH_SIZE.

(** ** Vocabulary of the further properties: the pool and the catalog *)

(** A session of the pool on a table, none of its clients taken. *)
Definition session_of (w : World) : PgAdapterTx.Session :=
  PgAdapterTx.mkSession w None 0 [].

(** A computation on the server whose effect on the catalog, whatever it
    returns or throws, is within [R]. *)
Definition preserves {A} (R : Schema.catalog -> Schema.catalog -> Prop)
    (m : Stateful.T Schema.Server A) : Prop :=
  forall s r s', m s = (r, s') -> R (Schema.cat s) (Schema.cat s').

(** The table names [connect] is read for.  PostgreSQL takes as an
    identifier 1 to 63 bytes, none of them 0, and keeps only the first 63
    bytes of a longer one, where [Schema] keeps names whole; a table
    gives its name to its row type, so it cannot have the name of the
    type [ypga_version]; and a name of the system catalog ([pg_...]) is
    looked up there before the schema [public].  So: the name is not
    empty, is not the one of the type, does not begin with [pg_], has no
    byte 0, and the longest name made from it, the one of the index on
    [docname, id], has at most 63 bytes. *)
Definition valid_table_name (tableName : string) : Prop :=
  tableName <> EmptyString /\
  tableName <> Schema.version_type /\
  String.prefix "pg_" tableName = false /\
  ~ In Ascii.zero (list_ascii_of_string tableName) /\
  (String.length (Schema.docname_id_idx tableName) <= 63)%nat.

(** ** The fire-and-forget [storeUpdate] and [flushDocument], with the
    promise left to the event loop

    [fire_and_forget] runs a promise as soon as its caller suspends.  The
    event loop need not: the round trips of the promise go out on a
    client of their own and may reach the table after any later
    statement of the caller.  Here a promise that is started stays
    [pending] while its caller goes on, and runs, in one piece, when the
    loop [settle]s. *)

Record Loop : Type := mkLoop {
  now : World;
  pending : list (M unit)     (* promises started and not run yet *)
}.

(** The event loop runs what is pending, oldest first. *)
Definition settle (l : Loop) : Loop :=
  mkLoop (fold_left (fun w task => snd (task w)) (pending l) (now l)) [].

Module Deferred.
Section WithYjs.
Context `{Yjs}.
Local Open Scope stateful_scope.

(** [await m] *)
Definition await {A} (m : M A) : Stateful.T Loop A :=
  fun l => let (r, w) := m (now l) in (r, mkLoop w (pending l)).

(** [Promise.resolve().then(task).catch((err) => console.error(msg, err))] *)
Definition start (msg : string) (task : M unit) : Stateful.T Loop unit :=
  fun l => (Ok tt, mkLoop (now l) (pending l ++ [catch_log msg task])).

Definition storeUpdate (docName : string) (update : bytes)
  : Stateful.T Loop Z :=
  clock <- await (getCurrentUpdateClock docName) ;;
  (if clock =? -1
   then start Async.init_failed (writeInitialStateVector docName update)
   else Stateful.ret tt) ;;;
  storedDoc <- await (PgAdapter.insertUpdate docName update) ;;
  Stateful.lift (id_of storedDoc).

Definition flushDocument (docName : string) (stateAsUpdate stateVector : bytes)
  : Stateful.T Loop Z :=
  clock <- storeUpdate docName stateAsUpdate ;;
  await (writeStateVector docName stateVector clock) ;;;
  await (PgAdapter.clearUpdatesRange docName 0 clock) ;;;
  Stateful.ret clock.

End WithYjs.
End Deferred.

(* ================================================================== *)
(** * Properties *)

(** ** lib0: what is written is what is read *)

Section Varuint.
Import Lib0.

Lemma Z_of_byte_of_Z (z : Z) : Z_of_byte (byte_of_Z z) = z mod 256.
Proof.
  unfold Z_of_byte, byte_of_Z.
  assert (Hb : 0 <= z mod 256 < 256) by (apply Z.mod_pos_bound; lia).
  destruct (Byte.of_N (Z.to_N (z mod 256))) eqn:E.
  - apply Byte.to_of_N in E. rewrite E, Z2N.id; lia.
  - apply Byte.of_N_None_iff in E. lia.
Qed.

Lemma land_BITS7 (num : Z) : Z.land BITS7 num = num mod 128.
Proof.
  rewrite Z.land_comm. change BITS7 with (Z.ones 7).
  rewrite Z.land_ones by lia. reflexivity.
Qed.

Lemma lor_BIT8 (num : Z) : Z.lor BIT8 (Z.land BITS7 num) = 128 + num mod 128.
Proof.
  pose proof (Z.add_lor_land BIT8 (Z.land BITS7 num)) as E.
  rewrite Z.land_assoc in E.
  change (Z.land BIT8 BITS7) with 0 in E. rewrite Z.land_0_l in E.
  rewrite land_BITS7 in *. unfold BIT8 in *. lia.
Qed.

Lemma last_byte (num : Z) :
  0 <= num <= 127 -> Z_of_byte (byte_of_Z (Z.land BITS7 num)) = num.
Proof.
  intros Hn. rewrite Z_of_byte_of_Z, land_BITS7.
  rewrite (Z.mod_small num 128) by lia. apply Z.mod_small. lia.
Qed.

Lemma more_byte (num : Z) :
  Z_of_byte (byte_of_Z (Z.lor BIT8 (Z.land BITS7 num))) = 128 + num mod 128.
Proof.
  rewrite Z_of_byte_of_Z, lor_BIT8.
  pose proof (Z.mod_pos_bound num 128). apply Z.mod_small. lia.
Qed.

Lemma writeVarUint_loop_app (fuel : nat) : forall e num,
  writeVarUint_loop fuel e num = e ++ writeVarUint_loop fuel [] num.
Proof.
  induction fuel as [|fuel IH]; intros e num; simpl.
  - reflexivity.
  - destruct (num >? BITS7).
    + rewrite IH. rewrite (IH (write [] _)). unfold write.
      rewrite app_assoc. reflexivity.
    + reflexivity.
Qed.

Lemma log2_div128 (num : Z) (fuel : nat) :
  127 < num -> Z.log2 num < Z.of_nat (S fuel) ->
  Z.log2 (num / 128) < Z.of_nat fuel.
Proof.
  intros Hn Hl.
  change 128 with (2 ^ 7). rewrite <- Z.shiftr_div_pow2 by lia.
  rewrite Z.log2_shiftr by lia.
  assert (7 <= Z.log2 num).
  { change 7 with (Z.log2 128). apply Z.log2_le_mono. lia. }
  lia.
Qed.

(** The bytes of [writeVarUint] stand for the number written. *)
Lemma varuint_value_write (fuel : nat) : forall num rest,
  0 <= num -> Z.log2 num < Z.of_nat fuel ->
  varuint_value (writeVarUint_loop fuel [] num ++ rest) = Some (num, rest).
Proof.
  induction fuel as [|fuel IH]; intros num rest Hn Hl.
  - pose proof (Z.log2_nonneg num). lia.
  - cbn [writeVarUint_loop]. destruct (num >? BITS7) eqn:E.
    + apply Z.gtb_lt in E. unfold BITS7 in E.
      rewrite writeVarUint_loop_app. unfold write. cbn [app varuint_value].
      rewrite more_byte.
      pose proof (Z.mod_pos_bound num 128).
      replace (128 + num mod 128 <? BIT8) with false
        by (symmetry; apply Z.ltb_ge; unfold BIT8; lia).
      rewrite IH.
      * f_equal. f_equal.
        change BITS7 with (Z.ones 7). rewrite Z.land_ones by lia.
        change (2 ^ 7) with 128.
        replace ((128 + num mod 128) mod 128) with (num mod 128).
        -- pose proof (Z.div_mod num 128). lia.
        -- rewrite <- (Z.mod_mod num 128) at 1 by lia.
           replace (128 + num mod 128) with (num mod 128 + 1 * 128) by lia.
           rewrite Z.mod_add by lia. reflexivity.
      * apply Z.div_pos; lia.
      * apply log2_div128; lia.
    + unfold write. cbn [app varuint_value].
      assert (num <= 127) by (unfold BITS7 in E; lia).
      rewrite last_byte by lia.
      replace (num <? BIT8) with true
        by (symmetry; apply Z.ltb_lt; unfold BIT8; lia).
      f_equal. f_equal.
      change BITS7 with (Z.ones 7). rewrite Z.land_ones by lia.
      apply Z.mod_small. change (2 ^ 7) with 128. lia.
Qed.

Lemma varuint_value_shorter : forall bs n tl,
  varuint_value bs = Some (n, tl) ->
  0 <= n /\ exists used, bs = used ++ tl /\ (0 < length used)%nat.
Proof.
  induction bs as [|b bs IH]; intros n tl Hv; cbn [varuint_value] in Hv.
  - discriminate.
  - assert (Hl : 0 <= Z.land (Z_of_byte b) BITS7).
    { apply Z.land_nonneg. right. unfold BITS7. lia. }
    destruct (Z_of_byte b <? BIT8).
    + injection Hv as Hn0 Ht0; subst n tl. split; [assumption|].
      exists [b]. split; [reflexivity | simpl; lia].
    + destruct (varuint_value bs) as [[m tl']|] eqn:E; [|discriminate].
      injection Hv as Hn0 Ht0; subst n tl. destruct (IH _ _ eq_refl) as [Hm [used [-> Hu]]].
      split; [lia|]. exists (b :: used). split; [reflexivity | simpl; lia].
Qed.

(** [readVarUint]'s loop returns the number the bytes stand for, as long
    as it is a safe integer. *)
Lemma readVarUint_loop_value : forall bs n tl acc mult p,
  varuint_value bs = Some (n, tl) ->
  0 <= acc -> 0 < mult -> acc + n * mult <= MAX_SAFE_INTEGER ->
  readVarUint_loop bs acc mult p =
    Ok (acc + n * mult, (p + (length bs - length tl))%nat).
Proof.
  induction bs as [|b bs IH]; intros n tl acc mult p Hv Ha Hm Hs; cbn [varuint_value] in Hv.
  - discriminate.
  - cbn [readVarUint_loop].
    assert (Hl : 0 <= Z.land (Z_of_byte b) BITS7).
    { apply Z.land_nonneg. right. unfold BITS7. lia. }
    destruct (Z_of_byte b <? BIT8).
    + injection Hv as Hn0 Ht0; subst n tl. f_equal. f_equal.
      cbn [length]. lia.
    + destruct (varuint_value bs) as [[m tl']|] eqn:E; [|discriminate].
      injection Hv as Hn0 Ht0; subst n tl.
      destruct (varuint_value_shorter _ E) as [Hm0 [used [Hbs Hu]]].
      assert (Hle : acc + Z.land (Z_of_byte b) BITS7 * mult <= MAX_SAFE_INTEGER) by nia.
      replace (acc + Z.land (Z_of_byte b) BITS7 * mult >? MAX_SAFE_INTEGER) with false
        by (symmetry; rewrite Z.gtb_ltb; apply Z.ltb_ge; lia).
      rewrite (IH m tl') by (auto; nia).
      f_equal. f_equal; [ring|].
      subst bs. cbn [length]. rewrite !length_app. lia.
Qed.

End Varuint.

Section Codec.
Import Lib0.

Lemma varuint_value_writeVarUint (num : Z) (rest : bytes) :
  0 <= num -> varuint_value (writeVarUint [] num ++ rest) = Some (num, rest).
Proof.
  intros Hn. unfold writeVarUint. apply varuint_value_write; [assumption|].
  pose proof (Z.log2_nonneg num). lia.
Qed.

Lemma encodeStateVectorBuffer_bytes (sv : bytes) (clock : Z) :
  encodeStateVectorBuffer sv clock =
  writeVarUint [] clock ++ writeVarUint [] (Z.of_nat (length sv)) ++ sv.
Proof.
  unfold encodeStateVectorBuffer, toUint8Array, writeVarUint8Array,
    writeUint8Array, createEncoder.
  unfold writeVarUint at 1.
  rewrite writeVarUint_loop_app. fold (writeVarUint [] (Z.of_nat (length sv))).
  rewrite <- app_assoc. reflexivity.
Qed.

(** Two payloads of [writeStateVector] that agree carry the same clock. *)
Lemma encodeStateVectorBuffer_clock (sv sv' : bytes) (c c' : Z) :
  0 <= c -> 0 <= c' ->
  encodeStateVectorBuffer sv c = encodeStateVectorBuffer sv' c' -> c = c'.
Proof.
  intros Hc Hc' E. rewrite !encodeStateVectorBuffer_bytes in E.
  pose proof (varuint_value_writeVarUint
                (writeVarUint [] (Z.of_nat (length sv)) ++ sv) Hc) as V.
  rewrite E, varuint_value_writeVarUint in V by assumption.
  congruence.
Qed.

Lemma readVarUint_written (num : Z) (pre rest : bytes) :
  0 <= num <= MAX_SAFE_INTEGER ->
  readVarUint (mkDecoder (pre ++ writeVarUint [] num ++ rest) (length pre)) =
  Ok (num, mkDecoder (pre ++ writeVarUint [] num ++ rest)
                     (length pre + length (writeVarUint [] num))).
Proof.
  intros Hn. unfold readVarUint. cbn [arr pos].
  rewrite skipn_app, Nat.sub_diag, skipn_all. cbn [skipn app].
  erewrite readVarUint_loop_value;
    [| apply varuint_value_writeVarUint; lia | lia ..].
  rewrite length_app. do 3 f_equal; lia.
Qed.

Lemma decode_encode (sv : bytes) (clock : Z) :
  0 <= clock <= MAX_SAFE_INTEGER ->
  Z.of_nat (length sv) <= MAX_SAFE_INTEGER ->
  decodeStateVectorBuffer (IsBuffer (encodeStateVectorBuffer sv clock)) =
  Ok (sv, clock).
Proof.
  intros Hc Hl. unfold decodeStateVectorBuffer, createDecoder.
  rewrite encodeStateVectorBuffer_bytes.
  pose proof (@readVarUint_written clock []
                (writeVarUint [] (Z.of_nat (length sv)) ++ sv) Hc) as R1.
  cbn [app length] in R1. rewrite R1. clear R1.
  unfold readVarUint8Array.
  assert (Hlen : 0 <= Z.of_nat (length sv) <= MAX_SAFE_INTEGER) by lia.
  pose proof (@readVarUint_written (Z.of_nat (length sv))
                (writeVarUint [] clock) sv Hlen) as R2.
  cbn [Nat.add] in *. rewrite R2. clear R2.
  unfold readUint8Array. cbn [arr pos].
  rewrite app_assoc, skipn_app, <- length_app, skipn_all, Nat.sub_diag.
  cbn [skipn app].
  replace (0 <=? Z.of_nat (length sv)) with true by (symmetry; apply Z.leb_le; lia).
  rewrite Z.leb_refl. cbn [andb].
  rewrite Nat2Z.id, firstn_all. reflexivity.
Qed.

End Codec.

(** ** Reasoning about the monad *)

Lemma bind_inv {A B} (m : M A) (f : A -> M B) (w : World) r w' :
  bind m f w = (r, w') ->
  (exists a w1, m w = (Ok a, w1) /\ f a w1 = (r, w')) \/
  (exists e, m w = (Err e, w') /\ r = Err e).
Proof.
  unfold bind. destruct (m w) as [[a|e] w1]; intros E.
  - left. eauto.
  - right. inversion E; subst. eauto.
Qed.

Lemma bind_ok_inv {A B} (m : M A) (f : A -> M B) (w : World) b w' :
  bind m f w = (Ok b, w') ->
  exists a w1, m w = (Ok a, w1) /\ f a w1 = (Ok b, w').
Proof.
  intros E. destruct (bind_inv _ _ _ E) as [?|[e [_ ?]]]; [assumption|discriminate].
Qed.

Lemma bind_ok {A B} (m : M A) (f : A -> M B) (w w1 : World) a :
  m w = (Ok a, w1) -> bind m f w = f a w1.
Proof. intros E. unfold bind. rewrite E. reflexivity. Qed.

Lemma bind_err {A B} (m : M A) (f : A -> M B) (w w1 : World) e :
  m w = (Err e, w1) -> bind m f w = (Err e, w1).
Proof. intros E. unfold bind. rewrite E. reflexivity. Qed.


Lemma query_inv (s : stmt) (w : World) r w' :
  query s w = (r, w') ->
  (r = Err StorageUnavailable /\ failed w w') \/
  (r = Ok (fst (exec s (db w))) /\ ran s w w').
Proof.
  unfold query, failed, ran. intros E.
  destruct (faults w) as [|[|] fs] eqn:F;
    try (destruct (exec s (db w)) as [rows b] eqn:X);
    inversion E; subst; cbn; eauto 10.
Qed.

Lemma query_ok (s : stmt) (w : World) :
  hd false (faults w) = false ->
  query s w = (Ok (fst (exec s (db w))),
               mkWorld (snd (exec s (db w))) (tl (faults w))
                       (journal w ++ [s]) (console w)).
Proof.
  unfold query. intros F. destruct (faults w) as [|[|] fs]; try discriminate;
    destruct (exec s (db w)); reflexivity.
Qed.

(** ** ORDER BY id *)


Lemma insert_by_id_perm (r : Row) (l : list Row) :
  Permutation (insert_by_id r l) (r :: l).
Proof.
  induction l as [|x l IH]; cbn [insert_by_id].
  - reflexivity.
  - destruct (id r <=? id x).
    + reflexivity.
    + rewrite IH. apply perm_swap.
Qed.

Lemma order_by_id_perm (l : list Row) : Permutation (order_by_id l) l.
Proof.
  induction l as [|x l IH]; cbn [order_by_id fold_right].
  - reflexivity.
  - fold (order_by_id l). rewrite insert_by_id_perm. constructor. assumption.
Qed.

Lemma order_by_id_In (l : list Row) (r : Row) : In r (order_by_id l) <-> In r l.
Proof.
  split; apply Permutation_in; [|symmetry]; apply order_by_id_perm.
Qed.

Lemma order_by_id_length (l : list Row) : length (order_by_id l) = length l.
Proof. apply Permutation_length, order_by_id_perm. Qed.

Lemma insert_by_id_sorted (r : Row) (l : list Row) :
  StronglySorted by_id l -> StronglySorted by_id (insert_by_id r l).
Proof.
  induction 1 as [|x l Hl IH Hx]; cbn [insert_by_id].
  - repeat constructor.
  - destruct (id r <=? id x) eqn:E.
    + apply Z.leb_le in E. constructor; [constructor; assumption|].
      constructor; [assumption|].
      eapply Forall_impl; [|exact Hx]. unfold by_id. intros; lia.
    + apply Z.leb_gt in E. constructor; [assumption|].
      rewrite Forall_forall in *. intros y Hy.
      apply (Permutation_in _ (insert_by_id_perm r l)) in Hy.
      destruct Hy as [<-|Hy]; [unfold by_id; lia | auto].
Qed.

Lemma order_by_id_sorted (l : list Row) : StronglySorted by_id (order_by_id l).
Proof.
  induction l as [|x l IH]; cbn [order_by_id fold_right].
  - constructor.
  - apply insert_by_id_sorted, IH.
Qed.

(** With distinct ids the order is strict. *)
Lemma sorted_strict (l : list Row) :
  NoDup (map id l) -> StronglySorted by_id l -> StronglySorted by_id_strict l.
Proof.
  induction l as [|x l IH]; intros Hn Hs.
  - constructor.
  - inversion Hn as [|? ? Hx Hn']; subst. inversion Hs as [|? ? Hs' Hall]; subst.
    constructor; [auto|].
    rewrite Forall_forall in *. intros y Hy.
    specialize (Hall y Hy). unfold by_id, by_id_strict in *.
    assert (id y <> id x).
    { intros E. apply Hx. rewrite <- E. apply in_map, Hy. }
    lia.
Qed.

Lemma NoDup_ids_filter (f : Row -> bool) (l : list Row) :
  NoDup (map id l) -> NoDup (map id (filter f l)).
Proof.
  induction l as [|x l IH]; cbn [filter map]; intros Hn.
  - constructor.
  - inversion Hn as [|? ? Hx Hn']; subst.
    destruct (f x); cbn [map]; [constructor|]; auto.
    intros Hin. apply Hx. apply in_map_iff in Hin as [y [E Hy]].
    apply filter_In in Hy as [Hy _]. rewrite <- E. apply in_map, Hy.
Qed.

Lemma NoDup_ids_perm (l l' : list Row) :
  Permutation l l' -> NoDup (map id l) -> NoDup (map id l').
Proof.
  intros Hp. apply Permutation_NoDup, Permutation_map, Hp.
Qed.

(** Filtering a sorted list and sorting the filtered list agree. *)
Lemma filter_insert_by_id (f : Row -> bool) (r : Row) (l : list Row) :
  StronglySorted by_id l ->
  filter f (insert_by_id r l) =
  if f r then insert_by_id r (filter f l) else filter f l.
Proof.
  induction 1 as [|x l Hl IH Hx]; cbn [insert_by_id filter].
  - destruct (f r); reflexivity.
  - destruct (id r <=? id x) eqn:E.
    + cbn [filter]. destruct (f r) eqn:Fr; [|reflexivity].
      destruct (f x) eqn:Fx.
      * cbn [insert_by_id]. rewrite E. reflexivity.
      * (* every kept element is at least [x], hence at least [r] *)
        apply Z.leb_le in E.
        assert (Hk : Forall (fun y => id r <= id y) (filter f l)).
        { rewrite Forall_forall in *. intros y Hy.
          apply filter_In in Hy as [Hy _]. specialize (Hx y Hy).
          unfold by_id in Hx. lia. }
        destruct (filter f l) as [|y k]; [reflexivity|].
        cbn [insert_by_id]. inversion Hk; subst.
        replace (id r <=? id y) with true by (symmetry; apply Z.leb_le; lia).
        reflexivity.
    + cbn [filter]. rewrite IH. destruct (f x) eqn:Fx, (f r) eqn:Fr;
        cbn [insert_by_id]; try rewrite E; reflexivity.
Qed.

Lemma filter_order_by_id (f : Row -> bool) (l : list Row) :
  filter f (order_by_id l) = order_by_id (filter f l).
Proof.
  induction l as [|x l IH]; cbn [order_by_id fold_right filter].
  - reflexivity.
  - fold (order_by_id l).
    rewrite filter_insert_by_id by apply order_by_id_sorted.
    rewrite IH. destruct (f x); reflexivity.
Qed.

Lemma sorted_last (l : list Row) (x : Row) :
  StronglySorted by_id (l ++ [x]) -> Forall (fun y => id y <= id x) (l ++ [x]).
Proof.
  induction l as [|a l IH]; cbn [app]; intros Hs.
  - constructor; [lia | constructor].
  - inversion Hs as [|? ? Hs' Hall]; subst. constructor; [|auto].
    rewrite Forall_forall in Hall. apply (Hall x). apply in_or_app. right. left. reflexivity.
Qed.

(** ** The adapter, call by call *)

Lemma ret_inv {A} (a : A) (w : World) r w' :
  ret a w = (r, w') -> r = Ok a /\ w' = w.
Proof. unfold ret. intros E. inversion E. auto. Qed.

Lemma lift_inv {A} (r0 : result A) (w : World) r w' :
  lift r0 w = (r, w') -> r = r0 /\ w' = w.
Proof. unfold lift. intros E. inversion E. auto. Qed.

Lemma catch_log_inv {A} (msg : string) (m : M A) (w : World) r w' :
  catch_log msg m w = (r, w') ->
  r = Ok tt /\
  ((exists a, m w = (Ok a, w')) \/
   (exists e w1, m w = (Err e, w1) /\ logged msg e w1 w')).
Proof.
  unfold catch_log, logged. destruct (m w) as [[a|e] w1]; intros E;
    inversion E; subst; split; auto.
  - left. eauto.
  - right. exists e, w1. cbn. auto.
Qed.

Lemma fire_and_forget_inv {A} (msg : string) (task : M unit) (rest : M A)
    (w : World) r w' :
  fire_and_forget msg task rest w = (r, w') ->
  exists w1, rest w = (r, w1) /\ catch_log msg task w1 = (Ok tt, w').
Proof.
  unfold fire_and_forget. destruct (rest w) as [r1 w1].
  destruct (catch_log msg task w1) as [u w2] eqn:C. intros E.
  destruct (catch_log_inv _ _ _ C) as [-> _].
  inversion E; subst. exists w1. split; [reflexivity | assumption].
Qed.

Lemma ran_select (s : stmt) (w w' : World) :
  snd (exec s (db w)) = db w -> ran s w w' -> db w' = db w.
Proof. intros E [H _]. congruence. Qed.

Lemma hd_error_limit_1 (l : list Row) : hd_error (limit 1 l) = hd_error l.
Proof. destruct l; reflexivity. Qed.

Section AdapterCalls.
Import PgAdapter.

Lemma findLatestDocumentId_inv (d : string) (w : World) r w' :
  findLatestDocumentId d w = (r, w') ->
  (r = Err StorageUnavailable /\ failed w w') \/
  (r = Ok (match fst (exec (SelectLatest d) (db w)) with
           | x :: _ => id x
           | [] => -1
           end) /\ ran (SelectLatest d) w w' /\ db w' = db w).
Proof.
  unfold findLatestDocumentId. intros E.
  apply bind_inv in E as [(rows & w1 & Q & E) | (e & Q & ->)];
    apply query_inv in Q as [[Q1 Q2] | [Q1 Q2]]; try discriminate.
  - apply ret_inv in E as [-> ->]. injection Q1 as ->.
    right. split; [reflexivity|]. split; [assumption|].
    eapply ran_select; [|eassumption]. reflexivity.
  - left. injection Q1 as ->. auto.
Qed.

Lemma insertUpdate_inv (d : string) (v : bytes) (w : World) r w' :
  insertUpdate d v w = (r, w') ->
  (r = Err StorageUnavailable /\ failed w w') \/
  (r = Ok (Some (mkRow (serial (db w)) d v v1)) /\ ran (InsertUpdate d v) w w').
Proof.
  unfold insertUpdate. intros E.
  apply bind_inv in E as [(rows & w1 & Q & E) | (e & Q & ->)];
    apply query_inv in Q as [[Q1 Q2] | [Q1 Q2]]; try discriminate.
  - apply ret_inv in E as [-> ->]. injection Q1 as ->. right. auto.
  - left. injection Q1 as ->. auto.
Qed.

Lemma _getStateVector_inv (d : string) (w : World) r w' :
  _getStateVector d w = (r, w') ->
  (r = Err StorageUnavailable /\ failed w w') \/
  (r = Ok (checkpoint_of d (db w)) /\ ran (SelectStateVector d) w w' /\
   db w' = db w).
Proof.
  unfold _getStateVector. intros E.
  apply bind_inv in E as [(rows & w1 & Q & E) | (e & Q & ->)];
    apply query_inv in Q as [[Q1 Q2] | [Q1 Q2]]; try discriminate.
  - apply ret_inv in E as [-> ->]. injection Q1 as ->.
    right. split; [|split; [assumption|]].
    + cbn [exec fst]. rewrite hd_error_limit_1. reflexivity.
    + eapply ran_select; [|eassumption]. reflexivity.
  - left. injection Q1 as ->. auto.
Qed.

Lemma putStateVector_inv (d : string) (v : bytes) (w : World) r w' :
  putStateVector d v w = (r, w') ->
  (r = Err StorageUnavailable /\ failed w w') \/
  (exists w1, ran (SelectStateVector d) w w1 /\ db w1 = db w /\
              r = Err StorageUnavailable /\ failed w1 w') \/
  (exists w1, ran (SelectStateVector d) w w1 /\ db w1 = db w /\
              ran (put_stmt d v (db w)) w1 w' /\
              r = Ok (hd_error (fst (exec (put_stmt d v (db w)) (db w))))).
Proof.
  unfold putStateVector. intros E.
  apply bind_inv in E as [(sv & w1 & G & E) | (e & G & ->)];
    apply _getStateVector_inv in G as [[G1 G2] | [G1 [G2 G3]]]; try discriminate.
  - injection G1 as ->. right.
    apply bind_inv in E as [(rows & w2 & Q & E) | (e & Q & ->)];
      apply query_inv in Q as [[Q1 Q2] | [Q1 Q2]]; try discriminate.
    + apply ret_inv in E as [-> ->]. injection Q1 as ->.
      right. exists w1. rewrite G3. unfold put_stmt. auto.
    + injection Q1 as ->. left. exists w1. auto.
  - injection G1 as ->. left. auto.
Qed.

Lemma clearUpdatesRange_inv (d : string) (from to : Z) (w : World) r w' :
  clearUpdatesRange d from to w = (r, w') ->
  (r = Err StorageUnavailable /\ failed w w') \/
  (r = Ok tt /\ ran (DeleteRange d from to) w w').
Proof.
  unfold clearUpdatesRange. intros E.
  apply bind_inv in E as [(rows & w1 & Q & E) | (e & Q & ->)];
    apply query_inv in Q as [[Q1 Q2] | [Q1 Q2]]; try discriminate.
  - apply ret_inv in E as [-> ->]. right. auto.
  - left. injection Q1 as ->. auto.
Qed.

End AdapterCalls.

(** ** latest_sequence *)

Lemma select_latest_is_latest (d : string) (b : database) :
  is_latest d b (match fst (exec (SelectLatest d) b) with
                 | x :: _ => id x
                 | [] => -1
                 end).
Proof.
  cbn [exec fst]. fold (updates_of d b).
  destruct (rev (order_by_id (updates_of d b))) as [|x t] eqn:R.
  - left. split; [|reflexivity].
    apply (f_equal (@rev Row)) in R. rewrite rev_involutive in R. cbn in R.
    apply length_zero_iff_nil. rewrite <- order_by_id_length, R. reflexivity.
  - right. cbn [limit Z.to_nat Pos.to_nat Pos.iter_op firstn Nat.add].
    apply (f_equal (@rev Row)) in R. rewrite rev_involutive in R. cbn [rev] in R.
    exists x. split; [|split; [reflexivity|]].
    + apply order_by_id_In. rewrite R. apply in_or_app. right. left. reflexivity.
    + intros r' Hr'. apply order_by_id_In in Hr'.
      pose proof (order_by_id_sorted (updates_of d b)) as S. rewrite R in *.
      apply sorted_last in S. rewrite Forall_forall in S. auto.
Qed.

(** C8.  [findLatestDocumentId], when its round trip does not fail,
    returns the highest id among the rows of the document that are
    updates ([version = 'v1']; the state-vector row does not count), and
    -1 when the document has no such row; it leaves the table as it is. *)
Theorem findLatestDocumentId_highest (d : string) (w : World) :
  hd false (faults w) = false ->
  exists i w',
    PgAdapter.findLatestDocumentId d w = (Ok i, w') /\
    is_latest d (db w) i /\ db w' = db w.
Proof.
  intros F. unfold PgAdapter.findLatestDocumentId.
  erewrite bind_ok by (apply query_ok; assumption).
  eexists. eexists. split; [reflexivity|]. split.
  - apply select_latest_is_latest.
  - reflexivity.
Qed.

Lemma findLatestDocumentId_highest_witness :
  exists i w',
    PgAdapter.findLatestDocumentId "doc"
      (world_of (mkDb [mkRow 1 "doc" [x01] v1_sv; mkRow 2 "doc" [x02] v1;
                       mkRow 3 "other" [x03] v1; mkRow 4 "doc" [x04] v1] 5) [])
    = (Ok i, w') /\
    is_latest "doc" (mkDb [mkRow 1 "doc" [x01] v1_sv; mkRow 2 "doc" [x02] v1;
                           mkRow 3 "other" [x03] v1; mkRow 4 "doc" [x04] v1] 5) i /\
    db w' = mkDb [mkRow 1 "doc" [x01] v1_sv; mkRow 2 "doc" [x02] v1;
                  mkRow 3 "other" [x03] v1; mkRow 4 "doc" [x04] v1] 5.
Proof.
  apply (@findLatestDocumentId_highest "doc"
           (world_of (mkDb [mkRow 1 "doc" [x01] v1_sv; mkRow 2 "doc" [x02] v1;
                            mkRow 3 "other" [x03] v1; mkRow 4 "doc" [x04] v1] 5) [])).
  reflexivity.
Defined.

Unset Implicit Arguments.

(** ** Rows and predicates on rows *)

Lemma version_eqb_eq (a b : ypga_version) : version_eqb a b = true <-> a = b.
Proof. destruct a, b; cbn; split; congruence. Qed.

Lemma is_update_iff (d : string) (r : Row) :
  is_update d r = true <-> docname r = d /\ version r = v1.
Proof.
  unfold is_update. rewrite andb_true_iff, String.eqb_eq, version_eqb_eq.
  reflexivity.
Qed.

Lemma is_state_vector_iff (d : string) (r : Row) :
  is_state_vector d r = true <-> docname r = d /\ version r = v1_sv.
Proof.
  unfold is_state_vector. rewrite andb_true_iff, String.eqb_eq, version_eqb_eq.
  reflexivity.
Qed.

Lemma is_update_not_state_vector (d d' : string) (r : Row) :
  is_update d r = true -> is_state_vector d' r = false.
Proof.
  rewrite is_update_iff. intros [_ V]. unfold is_state_vector.
  rewrite V. apply andb_false_r.
Qed.

Lemma is_state_vector_not_update (d d' : string) (r : Row) :
  is_state_vector d r = true -> is_update d' r = false.
Proof.
  rewrite is_state_vector_iff. intros [_ V]. unfold is_update.
  rewrite V. apply andb_false_r.
Qed.

Lemma id_set_value i v r : id (set_value i v r) = id r.
Proof. unfold set_value. destruct (id r =? i); reflexivity. Qed.

Lemma docname_set_value i v r : docname (set_value i v r) = docname r.
Proof. unfold set_value. destruct (id r =? i); reflexivity. Qed.

Lemma version_set_value i v r : version (set_value i v r) = version r.
Proof. unfold set_value. destruct (id r =? i); reflexivity. Qed.

Lemma is_update_set_value d i v r :
  is_update d (set_value i v r) = is_update d r.
Proof. unfold is_update. rewrite docname_set_value, version_set_value. reflexivity. Qed.

Lemma is_state_vector_set_value d i v r :
  is_state_vector d (set_value i v r) = is_state_vector d r.
Proof.
  unfold is_state_vector. rewrite docname_set_value, version_set_value. reflexivity.
Qed.

Lemma set_value_other i v r : id r <> i -> set_value i v r = r.
Proof. unfold set_value. intros N. apply Z.eqb_neq in N. rewrite N. reflexivity. Qed.

Lemma filter_map_commute {A} (p : A -> bool) (f : A -> A) (l : list A) :
  (forall x, p (f x) = p x) -> filter p (map f l) = map f (filter p l).
Proof.
  intros Hp. induction l as [|x l IH]; cbn [map filter].
  - reflexivity.
  - rewrite Hp. destruct (p x); cbn [map]; rewrite IH; reflexivity.
Qed.

Lemma same_id_same_row (l : list Row) (a b : Row) :
  NoDup (map id l) -> In a l -> In b l -> id a = id b -> a = b.
Proof.
  induction l as [|x l IH]; cbn [map]; intros Hn Ha Hb E.
  - contradiction.
  - inversion Hn as [|? ? Hx Hn']; subst.
    destruct Ha as [<-|Ha], Hb as [<-|Hb]; auto.
    + exfalso. apply Hx. rewrite E. apply in_map, Hb.
    + exfalso. apply Hx. rewrite <- E. apply in_map, Ha.
Qed.

Lemma hd_error_filter_Some {A} (p : A -> bool) (l : list A) (x : A) :
  hd_error (filter p l) = Some x -> In x l /\ p x = true.
Proof.
  intros E. apply filter_In. destruct (filter p l); [discriminate|].
  injection E as ->. left. reflexivity.
Qed.

Lemma hd_error_None {A} (l : list A) : hd_error l = None -> l = [].
Proof. destruct l; [reflexivity | discriminate]. Qed.

Lemma checkpoint_of_Some (d : string) (b : database) (r : Row) :
  checkpoint_of d b = Some r ->
  In r (table b) /\ docname r = d /\ version r = v1_sv.
Proof.
  intros E. apply hd_error_filter_Some in E as [Hin Hp].
  apply is_state_vector_iff in Hp. tauto.
Qed.

(** With one state-vector row per document, the row found is the row. *)
Lemma checkpoint_of_unique (d : string) (b : database) (r : Row) :
  one_checkpoint b -> In r (table b) -> is_state_vector d r = true ->
  checkpoint_of d b = Some r.
Proof.
  intros H1 Hin Hp. unfold checkpoint_of. specialize (H1 d).
  assert (Hf : In r (filter (is_state_vector d) (table b)))
    by (apply filter_In; auto).
  destruct (filter (is_state_vector d) (table b)) as [|x [|y l]].
  - contradiction.
  - destruct Hf as [->|[]]. reflexivity.
  - cbn in H1. lia.
Qed.

(** ** The upsert of the state vector *)

Lemma exec_put_update (d : string) (v : bytes) (b : database) (r0 : Row) :
  checkpoint_of d b = Some r0 ->
  snd (exec (put_stmt d v b) b) =
  mkDb (map (set_value (id r0) v) (table b)) (serial b).
Proof. unfold put_stmt. intros ->. reflexivity. Qed.

Lemma exec_put_insert (d : string) (v : bytes) (b : database) :
  checkpoint_of d b = None ->
  snd (exec (put_stmt d v b) b) =
  mkDb (table b ++ [mkRow (serial b) d v v1_sv]) (serial b + 1).
Proof. unfold put_stmt. intros ->. reflexivity. Qed.

Lemma filter_state_vector_put (d d' : string) (v : bytes) (b : database) :
  filter (is_state_vector d') (table (snd (exec (put_stmt d v b) b))) =
  match checkpoint_of d b with
  | Some r0 => map (set_value (id r0) v) (filter (is_state_vector d') (table b))
  | None => filter (is_state_vector d') (table b) ++
            (if String.eqb d d' then [mkRow (serial b) d v v1_sv] else [])
  end.
Proof.
  destruct (checkpoint_of d b) as [r0|] eqn:C.
  - rewrite (exec_put_update _ v _ _ C). cbn [table].
    apply filter_map_commute. intros x. apply is_state_vector_set_value.
  - rewrite (exec_put_insert _ v _ C). cbn [table].
    rewrite filter_app. cbn [filter]. unfold is_state_vector at 2.
    cbn [docname version version_eqb]. rewrite andb_true_r.
    destruct (String.eqb d d'); reflexivity.
Qed.

Lemma filter_update_put (d d' : string) (v : bytes) (b : database) :
  filter (is_update d') (table (snd (exec (put_stmt d v b) b))) =
  match checkpoint_of d b with
  | Some r0 => map (set_value (id r0) v) (filter (is_update d') (table b))
  | None => filter (is_update d') (table b)
  end.
Proof.
  destruct (checkpoint_of d b) as [r0|] eqn:C.
  - rewrite (exec_put_update _ v _ _ C). cbn [table].
    apply filter_map_commute. intros x. apply is_update_set_value.
  - rewrite (exec_put_insert _ v _ C). cbn [table].
    rewrite filter_app. cbn [filter]. unfold is_update at 2.
    cbn [docname version version_eqb]. rewrite andb_false_r, app_nil_r.
    reflexivity.
Qed.

(** After the upsert the document's state-vector row holds the value. *)
Lemma checkpoint_of_put (d : string) (v : bytes) (b : database) :
  exists r',
    checkpoint_of d (snd (exec (put_stmt d v b) b)) = Some r' /\
    value r' = v /\ docname r' = d /\ version r' = v1_sv /\
    id r' = match checkpoint_of d b with
            | Some r0 => id r0
            | None => serial b
            end.
Proof.
  unfold checkpoint_of at 1. rewrite filter_state_vector_put.
  destruct (checkpoint_of d b) as [r0|] eqn:C.
  - pose proof (checkpoint_of_Some _ _ _ C) as (Hin & Hd & Hv).
    unfold checkpoint_of in C.
    destruct (filter (is_state_vector d) (table b)) as [|x l]; [discriminate|].
    injection C as ->. cbn [map hd_error].
    eexists. split; [reflexivity|].
    unfold set_value. rewrite Z.eqb_refl. cbn. auto.
  - apply hd_error_None in C. rewrite C, String.eqb_refl. cbn [app hd_error].
    eexists. split; [reflexivity|]. cbn. auto.
Qed.

Lemma one_checkpoint_put (d : string) (v : bytes) (b : database) :
  one_checkpoint b -> one_checkpoint (snd (exec (put_stmt d v b) b)).
Proof.
  intros H1 d'. rewrite filter_state_vector_put.
  destruct (checkpoint_of d b) as [r0|] eqn:C.
  - rewrite length_map. apply H1.
  - rewrite length_app. destruct (String.eqb d d') eqn:E.
    + apply String.eqb_eq in E. subst d'.
      apply hd_error_None in C. rewrite C. cbn. lia.
    + cbn [length]. specialize (H1 d'). lia.
Qed.

Lemma one_checkpoint_filter (f : Row -> bool) (b : database) (n : Z) :
  one_checkpoint b -> one_checkpoint (mkDb (filter f (table b)) n).
Proof.
  intros H1 d. cbn [table]. specialize (H1 d).
  assert (length (filter (is_state_vector d) (filter f (table b))) <=
          length (filter (is_state_vector d) (table b)))%nat; [|lia].
  clear H1. induction (table b) as [|x l IH]; cbn [filter]; [lia|].
  destruct (f x), (is_state_vector d x) eqn:E; cbn [filter length];
    rewrite ?E; cbn [length]; lia.
Qed.

Lemma one_checkpoint_insert_update (d : string) (v : bytes) (b : database) :
  one_checkpoint b -> one_checkpoint (snd (exec (InsertUpdate d v) b)).
Proof.
  intros H1 d'. cbn [exec snd table]. rewrite filter_app. cbn [filter].
  unfold is_state_vector at 2. cbn [docname version version_eqb].
  rewrite andb_false_r, app_nil_r. apply H1.
Qed.

(** C7 needs no more than this: no write of the adapter makes a second
    state-vector row for a document. *)
Lemma adapter_step_one_checkpoint (b b' : database) :
  adapter_step b b' -> one_checkpoint b -> one_checkpoint b'.
Proof.
  destruct 1; intros H1.
  - apply one_checkpoint_insert_update, H1.
  - apply one_checkpoint_put, H1.
  - apply one_checkpoint_filter, H1.
  - apply one_checkpoint_filter, H1.
Qed.

Lemma adapter_steps_one_checkpoint (b b' : database) :
  adapter_steps b b' -> one_checkpoint b -> one_checkpoint b'.
Proof.
  induction 1; intros H1; [assumption|].
  eapply adapter_step_one_checkpoint; eauto.
Qed.

Lemma adapter_steps_trans (b b1 b2 : database) :
  adapter_steps b b1 -> adapter_steps b1 b2 -> adapter_steps b b2.
Proof.
  intros H1 H2. induction H2 as [|b1 b2 b3 H2 IH S]; [assumption|].
  eapply steps_then; [apply IH, H1 | exact S].
Qed.

Lemma adapter_steps_one (b b' : database) :
  adapter_step b b' -> adapter_steps b b'.
Proof. intros S. eapply steps_then; [apply steps_refl | exact S]. Qed.

(** ** Effects on the table, compositionally *)

Lemma failed_db (w w' : World) : failed w w' -> db w' = db w.
Proof. intros [H _]. exact H. Qed.

Lemma failed_absurd (w w' : World) :
  hd false (faults w) = false -> failed w w' -> False.
Proof. intros F (_ & _ & _ & fs & E & _). rewrite E in F. discriminate. Qed.

Lemma ran_db (s : stmt) (w w' : World) :
  ran s w w' -> db w' = snd (exec s (db w)).
Proof. intros [H _]. exact H. Qed.

Lemma logged_db (msg : string) (e : error) (w w' : World) :
  logged msg e w w' -> db w' = db w.
Proof. intros [H _]. exact H. Qed.

Section Respects.
Variable R : database -> database -> Prop.
Hypothesis R_refl : forall b, R b b.
Hypothesis R_trans : forall b1 b2 b3, R b1 b2 -> R b2 b3 -> R b1 b3.

Lemma respects_ret {A} (a : A) : respects R (ret a).
Proof. intros w r w' E. apply ret_inv in E as [_ ->]. apply R_refl. Qed.

Lemma respects_lift {A} (r0 : result A) : respects R (lift r0).
Proof. intros w r w' E. apply lift_inv in E as [_ ->]. apply R_refl. Qed.

Lemma respects_bind {A B} (m : M A) (f : A -> M B) :
  respects R m -> (forall a, respects R (f a)) -> respects R (bind m f).
Proof.
  intros Hm Hf w r w' E.
  apply bind_inv in E as [(a & w1 & E1 & E2) | (e & E1 & _)].
  - eapply R_trans; [eapply Hm | eapply Hf]; eassumption.
  - eapply Hm; eassumption.
Qed.

Lemma respects_query (s : stmt) :
  (forall b, R b (snd (exec s b))) -> respects R (query s).
Proof.
  intros Hs w r w' E. apply query_inv in E as [[_ F] | [_ F]].
  - rewrite (failed_db _ _ F). apply R_refl.
  - rewrite (ran_db _ _ _ F). apply Hs.
Qed.

Lemma respects_catch_log {A} (msg : string) (m : M A) :
  respects R m -> respects R (catch_log msg m).
Proof.
  intros Hm w r w' E.
  apply catch_log_inv in E as [_ [[a E] | (e & w1 & E & L)]].
  - eapply Hm; eassumption.
  - rewrite (logged_db _ _ _ _ L). eapply Hm; eassumption.
Qed.

Lemma respects_fire_and_forget {A} (msg : string) (task : M unit) (rest : M A) :
  respects R task -> respects R rest ->
  respects R (fire_and_forget msg task rest).
Proof.
  intros Ht Hr w r w' E.
  apply fire_and_forget_inv in E as (w1 & E1 & E2).
  eapply R_trans; [eapply Hr; eassumption|].
  eapply (respects_catch_log msg task Ht); eassumption.
Qed.

Lemma respects_if {A} (c : bool) (m1 m2 : M A) :
  respects R m1 -> respects R m2 -> respects R (if c then m1 else m2).
Proof. destruct c; auto. Qed.

(** A scan reads: whatever the callback does, the table stays. *)
Lemma respects_single_query {S} d (callback : S -> list Row -> result S) s :
  respects R (PgAdapter.readAllUpdates d callback s).
Proof.
  unfold PgAdapter.readAllUpdates.
  apply respects_bind; [apply respects_query; intros b; apply R_refl|].
  intros rows. apply respects_bind; [apply respects_lift|].
  intros s'. apply respects_ret.
Qed.

Lemma respects_keyset_loop {S} d (callback : S -> list Row -> result S) fuel :
  forall lastId total s,
    respects R (PgAdapterPaged.readAllUpdates_loop fuel d callback lastId total s).
Proof.
  induction fuel as [|fuel IH]; intros lastId total s;
    cbn [PgAdapterPaged.readAllUpdates_loop].
  - intros w r w' E. unfold throw in E. inversion E. apply R_refl.
  - apply respects_bind; [apply respects_query; intros b; apply R_refl|].
    intros [|x rows]; [apply respects_ret|].
    apply respects_bind; [apply respects_lift|]. intros s'.
    apply respects_if; [apply respects_ret | apply IH].
Qed.

Lemma respects_scan (p : paging) {S} d (callback : S -> list Row -> result S) s :
  respects R (readAllUpdates_of p S d callback s).
Proof.
  destruct p; cbn [readAllUpdates_of].
  - apply respects_single_query.
  - intros w r w' E. unfold keyset, PgAdapterPaged.readAllUpdates in E.
    eapply respects_keyset_loop; eassumption.
Qed.

End Respects.

(** Every function of the service changes the table by writes of the
    adapter only. *)
Section ServiceSteps.
Context `{Yjs}.

Create HintDb adapter_steps discriminated.

Ltac steps :=
  repeat first
    [ solve [auto with adapter_steps nocore]
    | apply (respects_ret adapter_steps steps_refl)
    | apply (respects_lift adapter_steps steps_refl)
    | apply (respects_bind adapter_steps adapter_steps_trans); [| intros ?]
    | apply respects_if
    | apply (respects_fire_and_forget adapter_steps adapter_steps_trans)
    | apply (respects_scan adapter_steps steps_refl adapter_steps_trans)
    | apply (respects_query adapter_steps steps_refl); intros ?;
      cbn [exec snd]; try apply steps_refl ].

Lemma findLatestDocumentId_steps d :
  respects adapter_steps (PgAdapter.findLatestDocumentId d).
Proof. unfold PgAdapter.findLatestDocumentId. steps. Qed.

Lemma insertUpdate_steps d v :
  respects adapter_steps (PgAdapter.insertUpdate d v).
Proof.
  unfold PgAdapter.insertUpdate. steps.
  apply adapter_steps_one, (step_insert _ d v).
Qed.

Lemma putStateVector_steps d v :
  respects adapter_steps (PgAdapter.putStateVector d v).
Proof.
  intros w r w' E. apply putStateVector_inv in E
    as [[_ F] | [(w1 & _ & E1 & _ & F) | (w1 & _ & E1 & F & _)]].
  - rewrite (failed_db _ _ F). apply steps_refl.
  - rewrite (failed_db _ _ F), E1. apply steps_refl.
  - rewrite (ran_db _ _ _ F), E1. apply adapter_steps_one, step_put.
Qed.

Lemma clearUpdatesRange_steps d from to :
  respects adapter_steps (PgAdapter.clearUpdatesRange d from to).
Proof.
  unfold PgAdapter.clearUpdatesRange. steps.
  apply adapter_steps_one, (step_clear _ d from to).
Qed.

Lemma deleteDocument_steps d :
  respects adapter_steps (PgAdapter.deleteDocument d).
Proof.
  unfold PgAdapter.deleteDocument. steps.
  apply adapter_steps_one, (step_delete _ d).
Qed.

Lemma writeStateVector_steps d sv c :
  respects adapter_steps (writeStateVector d sv c).
Proof. apply putStateVector_steps. Qed.

#[local] Hint Resolve findLatestDocumentId_steps insertUpdate_steps
  putStateVector_steps clearUpdatesRange_steps deleteDocument_steps
  writeStateVector_steps : adapter_steps.

Lemma flushDocument_with_steps store d su sv :
  (forall d u, respects adapter_steps (store d u)) ->
  respects adapter_steps (flushDocument_with store d su sv).
Proof. intros Hs. unfold flushDocument_with. steps. Qed.

Lemma sync_storeUpdate_steps d u :
  respects adapter_steps (Sync.storeUpdate d u).
Proof.
  unfold Sync.storeUpdate, getCurrentUpdateClock, writeInitialStateVector.
  steps.
Qed.

Lemma async_storeUpdate_steps d u :
  respects adapter_steps (Async.storeUpdate d u).
Proof.
  unfold Async.storeUpdate, getCurrentUpdateClock, writeInitialStateVector.
  steps.
Qed.

#[local] Hint Resolve flushDocument_with_steps sync_storeUpdate_steps
  async_storeUpdate_steps : adapter_steps.

Lemma run_steps rev p o : respects adapter_steps (run rev p o).
Proof.
  destruct o, rev; cbn [run];
    unfold Sync.getYDocFromDb, Async.getYDocFromDb,
      Sync.flushDocument, Async.flushDocument;
    steps.
Qed.

End ServiceSteps.

(** ** put_checkpoint is an upsert *)

Lemma steps_one_checkpoint `{Yjs} rev p os : forall w,
  one_checkpoint (db w) -> one_checkpoint (db (steps rev p os w)).
Proof.
  induction os as [|o os IH]; intros w H1; cbn [steps fold_left].
  - exact H1.
  - apply IH. unfold step.
    destruct (run rev p o w) as [r w'] eqn:E. cbn [snd].
    eapply adapter_steps_one_checkpoint; [|exact H1].
    eapply run_steps. exact E.
Qed.

(** C7.  [putStateVector] is an upsert: when it returns, the document's
    state-vector row holds the new value; if the document had such a row,
    the table is the old one with that row's value replaced (same rows,
    same ids, no new row), and otherwise it is the old one with one new
    ['v1_sv'] row at the end.  From a table with at most one state-vector
    row per document, every run of operations of the service, in either
    revision, with either [readAllUpdates], deletions included and
    whichever round trips fail, leaves at most one such row per
    document. *)
Theorem putStateVector_upsert `{Yjs} (rev : revision) (p : paging)
    (os : list operation) (w : World) :
  one_checkpoint (db w) ->
  one_checkpoint (db (steps rev p os w)) /\
  (forall d v r w',
     PgAdapter.putStateVector d v w = (Ok r, w') ->
     (exists row, checkpoint_of d (db w') = Some row /\ value row = v) /\
     match checkpoint_of d (db w) with
     | Some old =>
         table (db w') = map (set_value (id old) v) (table (db w)) /\
         serial (db w') = serial (db w)
     | None =>
         table (db w') = table (db w) ++ [mkRow (serial (db w)) d v v1_sv] /\
         serial (db w') = serial (db w) + 1
     end) /\
  (forall d v r w',
     PgAdapter.putStateVector d v w = (r, w') -> one_checkpoint (db w')).
Proof.
  intros H1. split; [apply steps_one_checkpoint, H1|]. split.
  - intros d v r w' E.
    apply putStateVector_inv in E
      as [[? _] | [(w1 & _ & _ & ? & _) | (w1 & _ & E1 & F & _)]];
      try discriminate.
    rewrite (ran_db _ _ _ F), E1. split.
    + destruct (checkpoint_of_put d v (db w)) as (row & C & V & _).
      exists row. auto.
    + destruct (checkpoint_of d (db w)) as [old|] eqn:C.
      * rewrite (exec_put_update _ v _ _ C). auto.
      * rewrite (exec_put_insert _ v _ C). auto.
  - intros d v r w' E.
    eapply adapter_steps_one_checkpoint; [|exact H1].
    eapply putStateVector_steps. exact E.
Qed.

Lemma putStateVector_upsert_witness :
  one_checkpoint
    (db (steps FireAndForget Keyset
           [RecordUpdate "doc" [x0a]; RecordUpdate "doc" [x0b];
            LoadDocument "doc" 1; DeleteDoc "doc"; RecordUpdate "doc" [x0c]]
           (world_of empty_db [false; false; true]))).
Proof.
  apply (putStateVector_upsert FireAndForget Keyset
           [RecordUpdate "doc" [x0a]; RecordUpdate "doc" [x0b];
            LoadDocument "doc" 1; DeleteDoc "doc"; RecordUpdate "doc" [x0c]]
           (world_of empty_db [false; false; true])).
  intros d. cbn. lia.
Defined.

(** ** The state-vector row, written and read back *)

(** C10.  For a clock and a state vector whose length are safe integers
    (where JavaScript numbers are the integers of the model),
    [decodeStateVectorBuffer] gives back the state vector and the clock
    from the bytes [writeStateVector] builds, and after a
    [writeStateVector] that returned, a [readStateVector] whose round
    trip does not fail returns that state vector and that clock. *)
Theorem state_vector_roundtrip (sv : bytes) (clock : Z) :
  0 <= clock <= Lib0.MAX_SAFE_INTEGER ->
  Z.of_nat (length sv) <= Lib0.MAX_SAFE_INTEGER ->
  decodeStateVectorBuffer (IsBuffer (encodeStateVectorBuffer sv clock)) =
    Ok (sv, clock) /\
  forall d w row w1,
    writeStateVector d sv clock w = (Ok row, w1) ->
    hd false (faults w1) = false ->
    fst (readStateVector d w1) = Ok (Some sv, clock).
Proof.
  intros Hc Hl. split; [apply decode_encode; assumption|].
  intros d w row w1 E F. unfold writeStateVector in E.
  apply putStateVector_inv in E
    as [[? _] | [(w0 & _ & _ & ? & _) | (w0 & _ & E0 & R & _)]];
    try discriminate.
  destruct (checkpoint_of_put d (encodeStateVectorBuffer sv clock) (db w))
    as (r' & C & V & _).
  pose proof (ran_db _ _ _ R) as D. rewrite E0 in D. rewrite <- D in C.
  destruct (readStateVector d w1) as [r w2] eqn:E. cbn [fst].
  unfold readStateVector, PgAdapter.getStateVectorBuffer in E.
  apply bind_inv in E as [(buf & w3 & G & E) | (e & G & _)];
    apply bind_inv in G as [(svRow & w4 & G & G') | (e' & G & _)];
    apply _getStateVector_inv in G as [[G1 G2] | [G1 _]];
    try discriminate; try (exfalso; eapply failed_absurd; eassumption).
  injection G1 as ->. apply ret_inv in G' as [G' ->].
  injection G' as G'. subst buf.
  rewrite C in E. cbn [option_map] in E. rewrite V in E.
  unfold bind, lift, ret in E. rewrite decode_encode in E by assumption.
  cbn [fst snd] in E. inversion E. reflexivity.
Qed.

Lemma state_vector_roundtrip_witness :
  decodeStateVectorBuffer (IsBuffer (encodeStateVectorBuffer [x01; x02] 300)) =
    Ok ([x01; x02], 300) /\
  forall d w row w1,
    writeStateVector d [x01; x02] 300 w = (Ok row, w1) ->
    hd false (faults w1) = false ->
    fst (readStateVector d w1) = Ok (Some [x01; x02], 300).
Proof.
  apply (state_vector_roundtrip [x01; x02] 300).
  - unfold Lib0.MAX_SAFE_INTEGER. lia.
  - unfold Lib0.MAX_SAFE_INTEGER. cbn. lia.
Defined.

(** ** The writes, one by one: keys, updates, state-vector rows *)

Lemma serial_key_insert (d : string) (v : bytes) (ver : ypga_version)
    (b : database) :
  serial_key b ->
  serial_key (mkDb (table b ++ [mkRow (serial b) d v ver]) (serial b + 1)).
Proof.
  intros (H1 & Hn & Hr). split; [|split]; cbn [table serial].
  - lia.
  - rewrite map_app. cbn [map id].
    apply NoDup_app; [assumption | repeat constructor; intros [] |].
    intros i Hi [<-|[]]. apply in_map_iff in Hi as (r & E & Hin).
    specialize (Hr r Hin). lia.
  - intros r Hin. apply in_app_or in Hin as [Hin|[<-|[]]].
    + specialize (Hr r Hin). lia.
    + cbn [id]. lia.
Qed.

Lemma serial_key_set_value (i : Z) (v : bytes) (b : database) :
  serial_key b -> serial_key (mkDb (map (set_value i v) (table b)) (serial b)).
Proof.
  intros (H1 & Hn & Hr). split; [|split]; cbn [table serial].
  - exact H1.
  - rewrite map_map. erewrite map_ext; [exact Hn|].
    intros r. apply id_set_value.
  - intros r Hin. apply in_map_iff in Hin as (r0 & <- & Hin).
    rewrite id_set_value. auto.
Qed.

Lemma serial_key_filter (f : Row -> bool) (b : database) :
  serial_key b -> serial_key (mkDb (filter f (table b)) (serial b)).
Proof.
  intros (H1 & Hn & Hr). split; [|split]; cbn [table serial].
  - exact H1.
  - apply NoDup_ids_filter, Hn.
  - intros r Hin. apply filter_In in Hin as [Hin _]. auto.
Qed.

Lemma serial_key_put (d : string) (v : bytes) (b : database) :
  serial_key b -> serial_key (snd (exec (put_stmt d v b) b)).
Proof.
  intros K. destruct (checkpoint_of d b) as [r0|] eqn:C.
  - rewrite (exec_put_update _ v _ _ C). apply serial_key_set_value, K.
  - rewrite (exec_put_insert _ v _ C). apply serial_key_insert, K.
Qed.

Lemma adapter_step_serial_key (b b' : database) :
  adapter_step b b' -> serial_key b -> serial_key b'.
Proof.
  destruct 1; intros K.
  - apply serial_key_insert, K.
  - apply serial_key_put, K.
  - apply serial_key_filter, K.
  - apply serial_key_filter, K.
Qed.

Lemma adapter_steps_serial_key (b b' : database) :
  adapter_steps b b' -> serial_key b -> serial_key b'.
Proof.
  induction 1; intros K; [assumption|].
  eapply adapter_step_serial_key; eauto.
Qed.

(** The sequence only grows. *)
Lemma adapter_step_serial (b b' : database) :
  adapter_step b b' -> serial b <= serial b'.
Proof.
  destruct 1; cbn [exec snd serial]; try lia.
  unfold put_stmt. destruct (checkpoint_of d b); cbn [exec snd serial]; lia.
Qed.

Lemma adapter_steps_serial (b b' : database) :
  adapter_steps b b' -> serial b <= serial b'.
Proof.
  induction 1 as [|b b1 b2 _ IH S]; [lia|].
  apply adapter_step_serial in S. lia.
Qed.

(** An update row is not touched by the upsert of a state vector. *)
Lemma set_value_checkpoint_other (b : database) (r0 r : Row) (v : bytes) :
  serial_key b -> In r0 (table b) -> In r (table b) -> r <> r0 ->
  set_value (id r0) v r = r.
Proof.
  intros (_ & Hn & _) H0 Hr N. apply set_value_other. intros E.
  apply N. eapply same_id_same_row; eassumption.
Qed.

Lemma map_set_value_filter (b : database) (r0 : Row) (v : bytes)
    (f : Row -> bool) :
  serial_key b -> In r0 (table b) -> f r0 = false ->
  map (set_value (id r0) v) (filter f (table b)) = filter f (table b).
Proof.
  intros K H0 F. rewrite <- (map_id (filter f (table b))) at 2.
  apply map_ext_in. intros r Hr. apply filter_In in Hr as [Hr Fr].
  eapply set_value_checkpoint_other; try eassumption. congruence.
Qed.

Lemma updates_of_put (d d' : string) (v : bytes) (b : database) :
  serial_key b ->
  updates_of d' (snd (exec (put_stmt d v b) b)) = updates_of d' b.
Proof.
  intros K. unfold updates_of. rewrite filter_update_put.
  destruct (checkpoint_of d b) as [r0|] eqn:C; [|reflexivity].
  apply checkpoint_of_Some in C as (Hin & Hd & Hv).
  apply map_set_value_filter; try assumption.
  unfold is_update. rewrite Hv. apply andb_false_r.
Qed.

Lemma checkpoint_of_put_other (d d' : string) (v : bytes) (b : database) :
  serial_key b -> d' <> d ->
  checkpoint_of d' (snd (exec (put_stmt d v b) b)) = checkpoint_of d' b.
Proof.
  intros K N. unfold checkpoint_of at 1. rewrite filter_state_vector_put.
  destruct (checkpoint_of d b) as [r0|] eqn:C.
  - apply checkpoint_of_Some in C as (Hin & Hd & Hv).
    rewrite map_set_value_filter; try assumption; [reflexivity|].
    unfold is_state_vector. rewrite Hd.
    replace (String.eqb d d') with false; [reflexivity|].
    symmetry. apply String.eqb_neq. congruence.
  - replace (String.eqb d d') with false.
    + rewrite app_nil_r. reflexivity.
    + symmetry. apply String.eqb_neq. congruence.
Qed.

Lemma checkpoint_of_insert_update (d d' : string) (v : bytes) (b : database) :
  checkpoint_of d' (snd (exec (InsertUpdate d v) b)) = checkpoint_of d' b.
Proof.
  unfold checkpoint_of. cbn [exec snd table]. rewrite filter_app. cbn [filter].
  unfold is_state_vector at 2. cbn [docname version version_eqb].
  rewrite andb_false_r, app_nil_r. reflexivity.
Qed.

Lemma updates_of_insert_update (d d' : string) (v : bytes) (b : database) :
  updates_of d' (snd (exec (InsertUpdate d v) b)) =
  updates_of d' b ++ (if String.eqb d d' then [mkRow (serial b) d v v1] else []).
Proof.
  unfold updates_of. cbn [exec snd table]. rewrite filter_app. cbn [filter].
  unfold is_update at 2. cbn [docname version version_eqb].
  rewrite andb_true_r. destruct (String.eqb d d'); reflexivity.
Qed.

Lemma filter_filter_comm {A} (f g : A -> bool) (l : list A) :
  filter f (filter g l) = filter g (filter f l).
Proof.
  induction l as [|x l IH]; cbn [filter]; [reflexivity|].
  destruct (f x) eqn:F, (g x) eqn:G; cbn [filter]; rewrite ?F, ?G, IH; reflexivity.
Qed.

Lemma checkpoint_of_delete_range (d d' : string) (from to : Z) (b : database) :
  checkpoint_of d' (snd (exec (DeleteRange d from to) b)) = checkpoint_of d' b.
Proof.
  unfold checkpoint_of. cbn [exec snd table]. f_equal.
  rewrite filter_filter_comm.
  rewrite <- (filter_ext_in (fun _ => true)), filter_true; [reflexivity|].
  intros r Hr. apply filter_In in Hr as [_ Hr].
  unfold in_range. erewrite is_state_vector_not_update by eassumption.
  reflexivity.
Qed.

Lemma updates_of_delete_range (d d' : string) (from to : Z) (b : database) :
  updates_of d' (snd (exec (DeleteRange d from to) b)) =
  filter (fun r => negb (in_range d from to r)) (updates_of d' b).
Proof. unfold updates_of. cbn [exec snd table]. apply filter_filter_comm. Qed.

(** ** The stored clock never goes down: the writes *)

Lemma watermark_le_refl (d : string) (b : database) : watermark_le d b b.
Proof. intros r sv c C V Hc. exists r, sv, c. repeat split; auto; lia. Qed.

Lemma watermark_le_trans (d : string) (b1 b2 b3 : database) :
  watermark_le d b1 b2 -> watermark_le d b2 b3 -> watermark_le d b1 b3.
Proof.
  intros H12 H23 r sv c C V Hc.
  destruct (H12 r sv c C V Hc) as (r2 & sv2 & c2 & C2 & V2 & Hc2 & L2).
  destruct (H23 r2 sv2 c2 C2 V2 Hc2) as (r3 & sv3 & c3 & C3 & V3 & Hc3 & L3).
  exists r3, sv3, c3. repeat split; auto; lia.
Qed.

Lemma watermark_le_same (d : string) (b b' : database) :
  checkpoint_of d b' = checkpoint_of d b -> watermark_le d b b'.
Proof.
  intros E r sv c C V Hc. exists r, sv, c. rewrite E. repeat split; auto; lia.
Qed.

Lemma keeps_refl (b : database) : log_ok b -> keeps b b.
Proof. intros L. split; [exact L|]. intros d. apply watermark_le_refl. Qed.

Lemma keeps_step (b0 b b' : database) :
  keeps b0 b -> log_ok b' -> (forall d, watermark_le d b b') -> keeps b0 b'.
Proof.
  intros [_ W] L W'. split; [exact L|].
  intros d. eapply watermark_le_trans; [apply W | apply W'].
Qed.

Lemma checkpoints_sound_insert_update (d : string) (v : bytes) (b : database) :
  checkpoints_sound b -> checkpoints_sound (snd (exec (InsertUpdate d v) b)).
Proof.
  intros S r Hin Hv. cbn [exec snd table] in *.
  apply in_app_or in Hin as [Hin|[<-|[]]]; [|discriminate].
  destruct (S r Hin Hv) as (sv & c & V & Hc & W).
  exists sv, c. repeat split; auto.
  destruct W as [->|(r' & Hr' & U & L)]; [left; reflexivity|].
  right. exists r'. repeat split; auto. apply in_or_app. auto.
Qed.

Lemma log_ok_insert_update (d : string) (v : bytes) (b : database) :
  log_ok b -> log_ok (snd (exec (InsertUpdate d v) b)).
Proof.
  intros [K [O S]]. split; [|split].
  - apply serial_key_insert, K.
  - apply one_checkpoint_insert_update, O.
  - apply checkpoints_sound_insert_update, S.
Qed.

Lemma keeps_insert_update (b0 b : database) (d : string) (v : bytes) :
  keeps b0 b -> keeps b0 (snd (exec (InsertUpdate d v) b)).
Proof.
  intros K. eapply keeps_step; [exact K | apply log_ok_insert_update, K |].
  intros d'. apply watermark_le_same, checkpoint_of_insert_update.
Qed.

(** The row that the upsert leaves is in the table. *)
Lemma In_put_table (d : string) (v : bytes) (b : database) (r : Row) :
  serial_key b -> In r (table b) -> version r = v1 ->
  In r (table (snd (exec (put_stmt d v b) b))).
Proof.
  intros K Hin Hv. destruct (checkpoint_of d b) as [r0|] eqn:C.
  - rewrite (exec_put_update _ v _ _ C). cbn [table].
    apply checkpoint_of_Some in C as (H0 & _ & V0).
    apply in_map_iff. exists r. split; [|assumption].
    eapply set_value_checkpoint_other; try eassumption. congruence.
  - rewrite (exec_put_insert _ v _ C). cbn [table]. apply in_or_app. auto.
Qed.

Lemma checkpoints_sound_put (d : string) (sv : bytes) (c : Z) (b : database) :
  serial_key b -> checkpoints_sound b -> 0 <= c ->
  (c = 0 \/
   exists r', In r' (table b) /\ is_update d r' = true /\ c <= id r') ->
  checkpoints_sound
    (snd (exec (put_stmt d (encodeStateVectorBuffer sv c) b) b)).
Proof.
  intros K S Hc G.
  set (v := encodeStateVectorBuffer sv c).
  assert (Lift : forall dn c0,
    (c0 = 0 \/
     exists r', In r' (table b) /\ is_update dn r' = true /\ c0 <= id r') ->
    (c0 = 0 \/
     exists r', In r' (table (snd (exec (put_stmt d v b) b))) /\
                is_update dn r' = true /\ c0 <= id r')).
  { intros dn c0 [->|(r' & Hr' & U & L)]; [left; reflexivity|].
    right. exists r'. repeat split; auto.
    apply In_put_table; auto. apply is_update_iff in U. tauto. }
  intros r Hin Hv.
  destruct (checkpoint_of d b) as [r0|] eqn:C.
  - rewrite (exec_put_update _ v _ _ C) in Hin. cbn [table] in Hin.
    pose proof (checkpoint_of_Some _ _ _ C) as (H0 & D0 & V0).
    apply in_map_iff in Hin as (x & <- & Hx).
    rewrite docname_set_value. rewrite version_set_value in Hv.
    destruct (Z.eq_dec (id x) (id r0)) as [E|N].
    + assert (x = r0) by (destruct K as (_ & Hn & _);
                          eapply same_id_same_row; eassumption).
      subst x. exists sv, c. unfold set_value. rewrite Z.eqb_refl. cbn [value].
      rewrite D0. auto.
    + rewrite set_value_other by assumption.
      destruct (S x Hx Hv) as (sv1 & c1 & V1 & Hc1 & W1).
      exists sv1, c1. auto.
  - rewrite (exec_put_insert _ v _ C) in Hin. cbn [table] in Hin.
    apply in_app_or in Hin as [Hin|[<-|[]]].
    + destruct (S r Hin Hv) as (sv1 & c1 & V1 & Hc1 & W1).
      exists sv1, c1. auto.
    + exists sv, c. cbn [value docname]. auto.
Qed.

Lemma watermark_le_put (d d' : string) (sv : bytes) (c : Z) (b : database) :
  serial_key b -> 0 <= c ->
  (forall r sv0 c0, checkpoint_of d b = Some r ->
     value r = encodeStateVectorBuffer sv0 c0 -> 0 <= c0 -> c0 <= c) ->
  watermark_le d' b (snd (exec (put_stmt d (encodeStateVectorBuffer sv c) b) b)).
Proof.
  intros K Hc G. destruct (string_dec d' d) as [->|N].
  - intros r sv0 c0 C V Hc0.
    destruct (checkpoint_of_put d (encodeStateVectorBuffer sv c) b)
      as (r' & C' & V' & _).
    exists r', sv, c. repeat split; auto. eapply G; eassumption.
  - apply watermark_le_same, checkpoint_of_put_other; assumption.
Qed.

Lemma keeps_put (b0 b : database) (d : string) (sv : bytes) (c : Z) :
  keeps b0 b -> 0 <= c ->
  (c = 0 \/
   exists r', In r' (table b) /\ is_update d r' = true /\ c <= id r') ->
  (forall r sv0 c0, checkpoint_of d b = Some r ->
     value r = encodeStateVectorBuffer sv0 c0 -> 0 <= c0 -> c0 <= c) ->
  keeps b0 (snd (exec (put_stmt d (encodeStateVectorBuffer sv c) b) b)).
Proof.
  intros K Hc G1 G2. pose proof K as [[Ks [O S]] _].
  eapply keeps_step; [exact K | |].
  - split; [|split].
    + apply serial_key_put, Ks.
    + apply one_checkpoint_put, O.
    + apply checkpoints_sound_put; assumption.
  - intros d'. apply watermark_le_put; assumption.
Qed.

Lemma checkpoints_sound_delete_range (d : string) (from to : Z) (b : database)
    (keep : Row) :
  checkpoints_sound b ->
  In keep (table b) -> is_update d keep = true ->
  in_range d from to keep = false ->
  (forall r sv c, In r (table b) -> is_state_vector d r = true ->
     value r = encodeStateVectorBuffer sv c -> 0 <= c -> c <= id keep) ->
  checkpoints_sound (snd (exec (DeleteRange d from to) b)).
Proof.
  intros S Hk Uk Rk G r Hin Hv. cbn [exec snd table] in *.
  apply filter_In in Hin as [Hin _].
  destruct (S r Hin Hv) as (sv & c & V & Hc & W).
  exists sv, c. repeat split; auto.
  destruct (string_dec (docname r) d) as [E|N].
  - right. exists keep. rewrite E. repeat split; auto.
    + apply filter_In. rewrite Rk. auto.
    + apply (G r sv c); auto. apply is_state_vector_iff. auto.
  - destruct W as [->|(r' & Hr' & U & L)]; [left; reflexivity|].
    right. exists r'. repeat split; auto.
    apply filter_In. split; [assumption|].
    unfold in_range. replace (is_update d r') with false; [reflexivity|].
    symmetry. apply is_update_iff in U as [U _].
    unfold is_update. replace (String.eqb (docname r') d) with false;
      [reflexivity|]. symmetry. apply String.eqb_neq. congruence.
Qed.

Lemma keeps_delete_range (b0 b : database) (d : string) (from to : Z)
    (keep : Row) :
  keeps b0 b ->
  In keep (table b) -> is_update d keep = true ->
  in_range d from to keep = false ->
  (forall r sv c, In r (table b) -> is_state_vector d r = true ->
     value r = encodeStateVectorBuffer sv c -> 0 <= c -> c <= id keep) ->
  keeps b0 (snd (exec (DeleteRange d from to) b)).
Proof.
  intros K Hk Uk Rk G. pose proof K as [[Ks [O S]] _].
  eapply keeps_step; [exact K | |].
  - split; [|split].
    + apply serial_key_filter, Ks.
    + apply one_checkpoint_filter, O.
    + eapply checkpoints_sound_delete_range; eassumption.
  - intros d'. apply watermark_le_same, checkpoint_of_delete_range.
Qed.

(** ** The calls of the adapter, by what they leave in the table *)

Lemma findLatestDocumentId_outcome (d : string) (w : World) r w' :
  PgAdapter.findLatestDocumentId d w = (r, w') ->
  db w' = db w /\ forall c, r = Ok c -> is_latest d (db w) c.
Proof.
  intros E. apply findLatestDocumentId_inv in E as [[-> F] | (-> & _ & D)].
  - split; [apply failed_db, F | discriminate].
  - split; [exact D|]. intros c Ec. injection Ec as <-.
    apply select_latest_is_latest.
Qed.

Lemma insertUpdate_outcome (d : string) (v : bytes) (w : World) r w' :
  PgAdapter.insertUpdate d v w = (r, w') ->
  (r = Err StorageUnavailable /\ db w' = db w) \/
  (r = Ok (Some (mkRow (serial (db w)) d v v1)) /\
   db w' = snd (exec (InsertUpdate d v) (db w))).
Proof.
  intros E. apply insertUpdate_inv in E as [[-> F] | [-> R]].
  - left. split; [reflexivity | apply failed_db, F].
  - right. split; [reflexivity | apply ran_db, R].
Qed.

Lemma putStateVector_outcome (d : string) (v : bytes) (w : World) r w' :
  PgAdapter.putStateVector d v w = (r, w') ->
  (r = Err StorageUnavailable /\ db w' = db w) \/
  ((exists row, r = Ok row) /\
   db w' = snd (exec (put_stmt d v (db w)) (db w))).
Proof.
  intros E. apply putStateVector_inv in E
    as [[-> F] | [(w1 & _ & E1 & -> & F) | (w1 & _ & E1 & R & ->)]].
  - left. split; [reflexivity | apply failed_db, F].
  - left. split; [reflexivity|]. rewrite (failed_db _ _ F). exact E1.
  - right. split; [eauto|]. rewrite (ran_db _ _ _ R), E1. reflexivity.
Qed.

Lemma clearUpdatesRange_outcome (d : string) (from to : Z) (w : World) r w' :
  PgAdapter.clearUpdatesRange d from to w = (r, w') ->
  (r = Err StorageUnavailable /\ db w' = db w) \/
  (r = Ok tt /\ db w' = snd (exec (DeleteRange d from to) (db w))).
Proof.
  intros E. apply clearUpdatesRange_inv in E as [[-> F] | [-> R]].
  - left. split; [reflexivity | apply failed_db, F].
  - right. split; [reflexivity | apply ran_db, R].
Qed.

Lemma readAllUpdates_db (p : paging) {S : Type} (d : string)
    (callback : S -> list Row -> result S) (s : S) (w : World) r w' :
  readAllUpdates_of p S d callback s w = (r, w') -> db w' = db w.
Proof.
  intros E.
  apply (respects_scan (fun b b' => b' = b)) in E; [exact E | reflexivity |].
  intros b1 b2 b3 -> ->. reflexivity.
Qed.

(** ** The stored clock never goes down: the service *)

Lemma latest_none (d : string) (b : database) :
  serial_key b -> is_latest d b (-1) -> updates_of d b = [].
Proof.
  intros (_ & _ & Hr) [[E _] | (r & Hin & E & _)]; [exact E|].
  apply filter_In in Hin as [Hin _]. specialize (Hr r Hin). lia.
Qed.

(** A document without updates has no clock but 0. *)
Lemma clock_without_updates (d : string) (b : database) :
  log_ok b -> updates_of d b = [] ->
  forall r sv0 c0, checkpoint_of d b = Some r ->
    value r = encodeStateVectorBuffer sv0 c0 -> 0 <= c0 -> c0 <= 0.
Proof.
  intros (_ & _ & S) U r sv0 c0 C V Hc0.
  apply checkpoint_of_Some in C as (Hin & Hd & Hv).
  destruct (S r Hin Hv) as (sv1 & c1 & V1 & Hc1 & W).
  rewrite V in V1.
  pose proof (encodeStateVectorBuffer_clock _ _ Hc0 Hc1 V1) as ->.
  destruct W as [->|(r' & Hr' & Ur' & _)]; [lia|].
  exfalso. rewrite Hd in Ur'.
  assert (X : In r' (updates_of d b)) by (apply filter_In; auto).
  rewrite U in X. exact X.
Qed.

(** The clock stored for [d] is at most any bound on the ids of the
    updates of [d]. *)
Lemma clock_below_updates (d : string) (b : database) (i : Z) :
  log_ok b -> 0 <= i ->
  (forall x, In x (updates_of d b) -> id x <= i) ->
  forall r sv0 c0, checkpoint_of d b = Some r ->
    value r = encodeStateVectorBuffer sv0 c0 -> 0 <= c0 -> c0 <= i.
Proof.
  intros (_ & _ & S) Hi M r sv0 c0 C V Hc0.
  apply checkpoint_of_Some in C as (Hin & Hd & Hv).
  destruct (S r Hin Hv) as (sv1 & c1 & V1 & Hc1 & W).
  rewrite V in V1.
  pose proof (encodeStateVectorBuffer_clock _ _ Hc0 Hc1 V1) as ->.
  destruct W as [->|(r' & Hr' & Ur' & L)]; [lia|].
  rewrite Hd in Ur'.
  assert (X : In r' (updates_of d b)) by (apply filter_In; auto).
  specialize (M r' X). lia.
Qed.

Section ServiceKeeps.
Context `{Yjs}.
Variable b0 : database.

Lemma writeStateVector_keeps d sv c w r w' :
  writeStateVector d sv c w = (r, w') ->
  keeps b0 (db w) -> 0 <= c ->
  (c = 0 \/
   exists r', In r' (table (db w)) /\ is_update d r' = true /\ c <= id r') ->
  (forall r sv0 c0, checkpoint_of d (db w) = Some r ->
     value r = encodeStateVectorBuffer sv0 c0 -> 0 <= c0 -> c0 <= c) ->
  keeps b0 (db w') /\
  ((r = Err StorageUnavailable /\ db w' = db w) \/
   ((exists row, r = Ok row) /\
    db w' = snd (exec (put_stmt d (encodeStateVectorBuffer sv c) (db w)) (db w)))).
Proof.
  intros E K Hc G1 G2. unfold writeStateVector in E.
  apply putStateVector_outcome in E as [[-> D] | [X D]].
  - split; [rewrite D; exact K | auto].
  - split; [rewrite D; apply keeps_put; assumption | auto].
Qed.

Lemma writeInitialStateVector_keeps d u w r w' :
  writeInitialStateVector d u w = (r, w') ->
  keeps b0 (db w) ->
  (forall r sv0 c0, checkpoint_of d (db w) = Some r ->
     value r = encodeStateVectorBuffer sv0 c0 -> 0 <= c0 -> c0 <= 0) ->
  keeps b0 (db w') /\
  (forall x, In x (table (db w)) -> version x = v1 -> In x (table (db w'))) /\
  (forall d', updates_of d' (db w') = updates_of d' (db w)).
Proof.
  intros E K G. unfold writeInitialStateVector in E.
  assert (Ks : serial_key (db w)) by apply K.
  assert (Same : db w' = db w ->
    keeps b0 (db w') /\
    (forall x, In x (table (db w)) -> version x = v1 -> In x (table (db w'))) /\
    (forall d', updates_of d' (db w') = updates_of d' (db w))).
  { intros ->. auto. }
  apply bind_inv in E as [(ydoc & w1 & E1 & E) | (e & E1 & _)];
    apply lift_inv in E1 as [_ ->]; [|apply Same; reflexivity].
  assert (X : exists rr ww, writeStateVector d (encodeStateVector ydoc) 0 w = (rr, ww)
                            /\ db w' = db ww).
  { apply bind_inv in E as [(row & w2 & E2 & E) | (e & E2 & _)].
    - apply ret_inv in E as [_ ->]. eauto.
    - eauto. }
  destruct X as (rr & ww & E2 & D').
  destruct (writeStateVector_keeps _ _ _ _ _ _ E2 K) as [K2 [[_ D] | [_ D]]];
    auto; try lia.
  - apply Same. congruence.
  - rewrite D', D in *. split; [exact K2|]. split.
    + intros x Hx Vx. apply In_put_table; auto.
    + intros d'. apply updates_of_put. exact Ks.
Qed.

Lemma insertUpdate_keeps d u w r w' :
  PgAdapter.insertUpdate d u w = (r, w') ->
  keeps b0 (db w) ->
  keeps b0 (db w') /\
  (forall d', checkpoint_of d' (db w') = checkpoint_of d' (db w)) /\
  (forall row, r = Ok row ->
     row = Some (mkRow (serial (db w)) d u v1) /\
     stored d u (serial (db w)) (db w')).
Proof.
  intros E K. assert (Ks : serial_key (db w)) by apply K.
  apply insertUpdate_outcome in E as [[-> D] | [-> D]]; rewrite D.
  - split; [exact K|]. split; [reflexivity | discriminate].
  - split; [apply keeps_insert_update, K|].
    split; [intros d'; apply checkpoint_of_insert_update|].
    intros row Er. injection Er as <-. split; [reflexivity|].
    destruct Ks as (H1 & _ & Hr). split; [exact H1|]. split.
    + cbn [exec snd table]. apply in_or_app. right. left. reflexivity.
    + intros x Hx. rewrite updates_of_insert_update, String.eqb_refl in Hx.
      apply in_app_or in Hx as [Hx|[<-|[]]]; [|cbn [id]; lia].
      apply filter_In in Hx as [Hx _]. specialize (Hr x Hx). lia.
Qed.

Lemma sync_storeUpdate_keeps d u w r w' :
  Sync.storeUpdate d u w = (r, w') ->
  keeps b0 (db w) ->
  keeps b0 (db w') /\ forall i, r = Ok i -> stored d u i (db w').
Proof.
  intros E K. unfold Sync.storeUpdate, getCurrentUpdateClock in E.
  apply bind_inv in E as [(c & w1 & E1 & E) | (e & E1 & ->)];
    apply findLatestDocumentId_outcome in E1 as [D1 L].
  2: { rewrite D1. split; [exact K | discriminate]. }
  specialize (L c eq_refl). rewrite <- D1 in K, L. clear D1 w.
  (* the state vector of a document without updates *)
  assert (K2 : forall rr ww,
    (if c =? -1 then writeInitialStateVector d u else ret tt) w1 = (rr, ww) ->
    keeps b0 (db ww)).
  { intros rr ww E2. destruct (c =? -1) eqn:C.
    - apply Z.eqb_eq in C. subst c.
      eapply writeInitialStateVector_keeps; [exact E2 | exact K |].
      apply clock_without_updates; [apply K|].
      apply latest_none; [apply K | exact L].
    - apply ret_inv in E2 as [_ ->]. exact K. }
  apply bind_inv in E as [(u0 & w2 & E2 & E) | (e & E2 & ->)];
    apply K2 in E2.
  2: { split; [exact E2 | discriminate]. }
  apply bind_inv in E as [(row & w3 & E3 & E) | (e & E3 & ->)];
    destruct (insertUpdate_keeps _ _ _ _ _ E3 E2) as (K3 & _ & S3).
  2: { split; [exact K3 | discriminate]. }
  apply lift_inv in E as [-> ->]. split; [exact K3|].
  intros i Ei. destruct (S3 row eq_refl) as [-> St].
  cbn [id_of id] in Ei. injection Ei as <-. exact St.
Qed.

Lemma async_storeUpdate_keeps d u w r w' :
  Async.storeUpdate d u w = (r, w') ->
  keeps b0 (db w) ->
  keeps b0 (db w') /\ forall i, r = Ok i -> stored d u i (db w').
Proof.
  intros E K. unfold Async.storeUpdate, getCurrentUpdateClock in E.
  apply bind_inv in E as [(c & w1 & E1 & E) | (e & E1 & ->)];
    apply findLatestDocumentId_outcome in E1 as [D1 L].
  2: { rewrite D1. split; [exact K | discriminate]. }
  specialize (L c eq_refl). rewrite <- D1 in K, L. clear D1 w.
  assert (K2 : forall rr ww,
    (if c =? -1
     then fire_and_forget Async.init_failed (writeInitialStateVector d u)
            (PgAdapter.insertUpdate d u)
     else PgAdapter.insertUpdate d u) w1 = (rr, ww) ->
    keeps b0 (db ww) /\
    forall row, rr = Ok row ->
      exists i, row = Some (mkRow i d u v1) /\ stored d u i (db ww)).
  { intros rr ww E2. destruct (c =? -1) eqn:C.
    - apply Z.eqb_eq in C. subst c.
      apply fire_and_forget_inv in E2 as (w2 & E2 & E3).
      destruct (insertUpdate_keeps _ _ _ _ _ E2 K) as (K3 & C3 & S3).
      assert (X : exists r4 w4,
                 writeInitialStateVector d u w2 = (r4, w4) /\ db ww = db w4).
      { apply catch_log_inv in E3 as [_ [[a E3] | (e & w4 & E3 & Lg)]].
        - eauto.
        - exists (Err e), w4. split; [exact E3 | apply (logged_db _ _ _ _ Lg)]. }
      destruct X as (r4 & w4 & E4 & D4). rewrite D4.
      destruct (writeInitialStateVector_keeps _ _ _ _ _ E4 K3) as (K4 & I4 & U4).
      { intros x sv0 c0. rewrite C3.
        apply clock_without_updates; [apply K|].
        apply latest_none; [apply K | exact L]. }
      split; [exact K4|]. intros row Er.
      destruct (S3 row Er) as [-> (S1 & S2 & S4)].
      eexists. split; [reflexivity|]. split; [exact S1|]. split.
      + apply I4; [exact S2 | reflexivity].
      + intros x. rewrite U4. apply S4.
    - destruct (insertUpdate_keeps _ _ _ _ _ E2 K) as (K3 & C3 & S3).
      split; [exact K3|]. intros row Er. destruct (S3 row Er) as [-> St]. eauto. }
  apply bind_inv in E as [(row & w2 & E2 & E) | (e & E2 & ->)];
    apply K2 in E2 as [K3 S3].
  2: { split; [exact K3 | discriminate]. }
  apply lift_inv in E as [-> ->]. split; [exact K3|].
  intros i Ei. destruct (S3 row eq_refl) as (j & -> & St).
  cbn [id_of id] in Ei. injection Ei as <-. exact St.
Qed.

(** [flushDocument]: the new clock is the id of the update just stored,
    which no clock written before exceeds, and the range deleted ends
    below that update. *)
Lemma flushDocument_with_keeps (store : string -> bytes -> M Z) d su sv w r w' :
  (forall d u w r w', store d u w = (r, w') -> keeps b0 (db w) ->
     keeps b0 (db w') /\ forall i, r = Ok i -> stored d u i (db w')) ->
  flushDocument_with store d su sv w = (r, w') ->
  keeps b0 (db w) ->
  keeps b0 (db w').
Proof.
  intros Hs E K. unfold flushDocument_with in E.
  apply bind_inv in E as [(i & w1 & E1 & E) | (e & E1 & ->)];
    destruct (Hs _ _ _ _ _ E1 K) as [K1 S1]; [|exact K1].
  destruct (S1 i eq_refl) as (Hi & Hin & Hmax).
  assert (Ks1 : serial_key (db w1)) by apply K1.
  assert (Ui : is_update d (mkRow i d su v1) = true)
    by (apply is_update_iff; auto).
  apply bind_inv in E as [(row & w2 & E2 & E) | (e & E2 & ->)];
    destruct (writeStateVector_keeps _ _ _ _ _ _ E2 K1) as [K2 O2]; auto;
    try lia;
    try (right; exists (mkRow i d su v1); cbn [id]; repeat split; auto; lia);
    try (apply clock_below_updates; auto; try lia; apply K1).
  destruct O2 as [[? _] | [_ D2]]; [discriminate|].
  assert (K3 : keeps b0 (snd (exec (DeleteRange d 0 i) (db w2)))).
  { apply (keeps_delete_range _ _ _ _ _ (mkRow i d su v1)); auto.
    - rewrite D2. apply In_put_table; auto.
    - unfold in_range. cbn [id]. rewrite Z.ltb_irrefl. apply andb_false_r.
    - intros x sv0 c0 Hx Sx Vx Hc0. cbn [id].
      destruct (checkpoint_of_put d (encodeStateVectorBuffer sv i) (db w1))
        as (r' & C' & V' & _).
      rewrite <- D2 in C'.
      assert (Ex : checkpoint_of d (db w2) = Some x).
      { apply checkpoint_of_unique; auto. apply K2. }
      rewrite Ex in C'. injection C' as <-. rewrite Vx in V'.
      assert (Hi0 : 0 <= i) by lia.
      rewrite (encodeStateVectorBuffer_clock _ _ Hc0 Hi0 V'). lia. }
  apply bind_inv in E as [(u0 & w3 & E3 & E) | (e & E3 & ->)].
  - apply ret_inv in E as [_ ->].
    apply clearUpdatesRange_outcome in E3 as [[_ D3] | [_ D3]]; rewrite D3;
      [exact K2 | exact K3].
  - apply clearUpdatesRange_outcome in E3 as [[_ D3] | [_ D3]]; rewrite D3;
      [exact K2 | exact K3].
Qed.

End ServiceKeeps.

Section RunKeeps.
Context `{Yjs}.
Variable b0 : database.

Lemma keeps_from_refl b : keeps_from b0 b b.
Proof. intros K. exact K. Qed.

Lemma keeps_from_trans b1 b2 b3 :
  keeps_from b0 b1 b2 -> keeps_from b0 b2 b3 -> keeps_from b0 b1 b3.
Proof. unfold keeps_from. auto. Qed.

Lemma sync_storeUpdate_keeps_from d u :
  respects (keeps_from b0) (Sync.storeUpdate d u).
Proof. intros w r w' E K. eapply sync_storeUpdate_keeps; eassumption. Qed.

Lemma async_storeUpdate_keeps_from d u :
  respects (keeps_from b0) (Async.storeUpdate d u).
Proof. intros w r w' E K. eapply async_storeUpdate_keeps; eassumption. Qed.

Lemma sync_flushDocument_keeps_from d su sv :
  respects (keeps_from b0) (Sync.flushDocument d su sv).
Proof.
  intros w r w' E K.
  eapply flushDocument_with_keeps; [apply sync_storeUpdate_keeps | exact E | exact K].
Qed.

Lemma async_flushDocument_keeps_from d su sv :
  respects (keeps_from b0) (Async.flushDocument d su sv).
Proof.
  intros w r w' E K.
  eapply flushDocument_with_keeps; [apply async_storeUpdate_keeps | exact E | exact K].
Qed.

Create HintDb keeps_from discriminated.
#[local] Hint Resolve sync_storeUpdate_keeps_from async_storeUpdate_keeps_from
  sync_flushDocument_keeps_from async_flushDocument_keeps_from : keeps_from.

Ltac keeping :=
  repeat first
    [ solve [auto with keeps_from nocore]
    | apply (respects_ret (keeps_from b0) keeps_from_refl)
    | apply (respects_lift (keeps_from b0) keeps_from_refl)
    | apply (respects_bind (keeps_from b0) keeps_from_trans); [| intros ?]
    | apply respects_if
    | apply (respects_fire_and_forget (keeps_from b0) keeps_from_trans)
    | apply (respects_scan (keeps_from b0) keeps_from_refl keeps_from_trans) ].

Lemma run_keeps_from rev p o :
  delete_free o -> respects (keeps_from b0) (run rev p o).
Proof.
  intros F. destruct o, rev; cbn [run]; try contradiction;
    unfold Sync.getYDocFromDb, Async.getYDocFromDb;
    keeping.
Qed.

Lemma steps_keeps rev p os : forall w,
  Forall delete_free os -> keeps b0 (db w) -> keeps b0 (db (steps rev p os w)).
Proof.
  induction os as [|o os IH]; intros w F K; cbn [steps fold_left].
  - exact K.
  - inversion F as [|? ? Fo Fos]; subst. apply IH; [exact Fos|].
    unfold step. destruct (run rev p o w) as [r w'] eqn:E. cbn [snd].
    eapply run_keeps_from; eassumption.
Qed.

End RunKeeps.

(** In the synchronous revision, from a table that only the service
    wrote ([log_ok]), along every run of [storeUpdate], [getYDocFromDb]
    and [flushDocument], with either [readAllUpdates], whichever round
    trips fail and whatever the payloads: the table stays as the service
    writes it, and for every document the clock of its state-vector row
    never goes down. *)
Lemma sync_watermark_monotone `{Yjs} (p : paging)
    (os : list operation) (w : World) (d : string) :
  log_ok (db w) ->
  Forall delete_free os ->
  log_ok (db (steps Synchronous p os w)) /\
  watermark_le d (db w) (db (steps Synchronous p os w)).
Proof.
  intros L F.
  destruct (steps_keeps (db w) Synchronous p os w F (keeps_refl _ L)) as [L' W].
  split; [exact L' | apply W].
Qed.

Lemma log_ok_empty : log_ok empty_db.
Proof.
  split; [|split].
  - split; [cbn; lia|]. split; [constructor | intros r []].
  - intros d. cbn. lia.
  - intros r [].
Qed.

(** A synchronous run in which the clock is written and goes up: the
    first update writes clock 0, the load compacts and writes clock 3. *)
Lemma sync_watermark_advances :
  let w' := steps (H:=LogDoc) Synchronous Keyset
              [RecordUpdate "doc" [x0a]; LoadDocument "doc" 0]
              (world_of empty_db []) in
  option_map value (checkpoint_of "doc" (db (step (H:=LogDoc) Synchronous Keyset
                                               (world_of empty_db [])
                                               (RecordUpdate "doc" [x0a])))) =
    Some (encodeStateVectorBuffer [x01] 0) /\
  option_map value (checkpoint_of "doc" (db w')) =
    Some (encodeStateVectorBuffer [x01] 3) /\
  log_ok (db w') /\
  watermark_le "doc" (db (world_of empty_db [])) (db w').
Proof.
  split; [vm_compute; reflexivity|]. split; [vm_compute; reflexivity|].
  apply (sync_watermark_monotone (H:=LogDoc) Keyset
           [RecordUpdate "doc" [x0a]; LoadDocument "doc" 0]
           (world_of empty_db []) "doc").
  - apply log_ok_empty.
  - repeat constructor.
Qed.

(** With its promise settled at once, [Deferred.storeUpdate] is
    [Async.storeUpdate]: the two differ in when the promise runs. *)
Lemma deferred_storeUpdate_settled `{Yjs} (d : string) (u : bytes) (w : World) :
  (fst (Deferred.storeUpdate d u (mkLoop w [])),
   now (settle (snd (Deferred.storeUpdate d u (mkLoop w []))))) =
  Async.storeUpdate d u w.
Proof.
  unfold Deferred.storeUpdate, Async.storeUpdate, Stateful.bind, bind,
    Deferred.await, Deferred.start, Stateful.ret, Stateful.lift, lift,
    fire_and_forget, settle.
  cbn [now pending].
  destruct (getCurrentUpdateClock d w) as [[c|e] w1]; [|reflexivity].
  cbn [now pending].
  destruct (c =? -1); cbn [now pending app].
  - destruct (PgAdapter.insertUpdate d u w1) as [[row|e] w2];
      cbn [now pending fst snd fold_left];
      destruct (catch_log Async.init_failed (writeInitialStateVector d u) w2)
        as [x w3]; reflexivity.
  - destruct (PgAdapter.insertUpdate d u w1) as [[row|e] w2]; reflexivity.
Qed.

(** C4.  The fire-and-forget revision lets the clock go down.  On a
    table without rows of the document, [flushDocument] returns 1:
    [storeUpdate] found no update, started the promise that writes the
    initial state vector, and inserted the full state with id 1;
    [flushDocument] wrote the state-vector row with clock 1 and
    deleted below 1.  The promise, still pending, then runs: it finds the
    row and overwrites it with clock 0.  The clock the row holds went
    from 1 to 0, and nothing was logged. *)
Theorem watermark_overwritten_by_promise :
  let flushed :=
    Deferred.flushDocument (H:=LogDoc) "doc" [x01; x0a] [x07]
      (mkLoop (world_of empty_db []) []) in
  fst flushed = Ok 1 /\
  length (pending (snd flushed)) = 1%nat /\
  table (db (now (snd flushed))) =
    [mkRow 1 "doc" [x01; x0a] v1;
     mkRow 2 "doc" (encodeStateVectorBuffer [x07] 1) v1_sv] /\
  table (db (now (settle (snd flushed)))) =
    [mkRow 1 "doc" [x01; x0a] v1;
     mkRow 2 "doc" (encodeStateVectorBuffer [x01] 0) v1_sv] /\
  journal (now (settle (snd flushed))) =
    [SelectLatest "doc"; InsertUpdate "doc" [x01; x0a];
     SelectStateVector "doc";
     InsertStateVector "doc" (encodeStateVectorBuffer [x07] 1);
     DeleteRange "doc" 0 1;
     SelectStateVector "doc";
     UpdateStateVector 2 (encodeStateVectorBuffer [x01] 0)] /\
  console (now (settle (snd flushed))) = [] /\
  ~ watermark_le "doc" (db (now (snd flushed)))
      (db (now (settle (snd flushed)))).
Proof.
  cbv zeta.
  split; [vm_compute; reflexivity|]. split; [vm_compute; reflexivity|].
  split; [vm_compute; reflexivity|]. split; [vm_compute; reflexivity|].
  split; [vm_compute; reflexivity|]. split; [vm_compute; reflexivity|].
  intros W.
  destruct (W (mkRow 2 "doc" (encodeStateVectorBuffer [x07] 1) v1_sv) [x07] 1)
    as (r' & sv' & c' & C & V & P & L).
  - vm_compute. reflexivity.
  - reflexivity.
  - lia.
  - assert (C' : checkpoint_of "doc"
                   (db (now (settle (snd (Deferred.flushDocument (H:=LogDoc)
                      "doc" [x01; x0a] [x07]
                      (mkLoop (world_of empty_db []) [])))))) =
                 Some (mkRow 2 "doc" (encodeStateVectorBuffer [x01] 0) v1_sv))
      by (vm_compute; reflexivity).
    rewrite C' in C. injection C as <-. cbn [value] in V.
    apply encodeStateVectorBuffer_clock in V; lia.
Qed.

(** ** Runs in which no round trip fails *)

Lemma query_after (s : stmt) (w : World) :
  hd false (faults w) = false ->
  query s w = (Ok (fst (exec s (db w))), after s w).
Proof. apply query_ok. Qed.

Lemma faults_after (s : stmt) (w : World) :
  faults w = [] -> faults (after s w) = [].
Proof. intros F. cbn [after faults]. rewrite F. reflexivity. Qed.

Lemma hd_faults_nil (w : World) : faults w = [] -> hd false (faults w) = false.
Proof. intros ->. reflexivity. Qed.

Section Calm.
Import PgAdapter.

Lemma findLatestDocumentId_calm (d : string) (w : World) :
  faults w = [] ->
  findLatestDocumentId d w =
  (Ok (match fst (exec (SelectLatest d) (db w)) with
       | x :: _ => id x
       | [] => -1
       end), after (SelectLatest d) w).
Proof.
  intros F. unfold findLatestDocumentId.
  erewrite bind_ok by (apply query_after, hd_faults_nil, F). reflexivity.
Qed.

Lemma insertUpdate_calm (d : string) (v : bytes) (w : World) :
  faults w = [] ->
  insertUpdate d v w =
  (Ok (Some (mkRow (serial (db w)) d v v1)), after (InsertUpdate d v) w).
Proof.
  intros F. unfold insertUpdate.
  erewrite bind_ok by (apply query_after, hd_faults_nil, F). reflexivity.
Qed.

Lemma putStateVector_calm (d : string) (v : bytes) (w : World) :
  faults w = [] ->
  exists row,
    putStateVector d v w =
    (Ok row, after (put_stmt d v (db w)) (after (SelectStateVector d) w)).
Proof.
  intros F. unfold putStateVector, _getStateVector.
  erewrite bind_ok;
    [|erewrite bind_ok by (apply query_after, hd_faults_nil, F); reflexivity].
  erewrite bind_ok
    by (apply query_after, hd_faults_nil, faults_after, F).
  cbn [exec fst]. rewrite hd_error_limit_1. fold (checkpoint_of d (db w)).
  eexists. reflexivity.
Qed.

Lemma clearUpdatesRange_calm (d : string) (from to : Z) (w : World) :
  faults w = [] ->
  clearUpdatesRange d from to w = (Ok tt, after (DeleteRange d from to) w).
Proof.
  intros F. unfold clearUpdatesRange.
  erewrite bind_ok by (apply query_after, hd_faults_nil, F). reflexivity.
Qed.

End Calm.

Lemma writeInitialStateVector_calm `{Yjs} (d : string) (u : bytes) (w : World)
    (ydoc : Doc) :
  faults w = [] -> applyUpdate newDoc u = Some ydoc ->
  writeInitialStateVector d u w =
  (Ok tt,
   after (put_stmt d (encodeStateVectorBuffer (encodeStateVector ydoc) 0) (db w))
         (after (SelectStateVector d) w)).
Proof.
  intros F A. unfold writeInitialStateVector, Y_applyUpdate. rewrite A.
  erewrite bind_ok by reflexivity. unfold writeStateVector.
  destruct (putStateVector_calm d
              (encodeStateVectorBuffer (encodeStateVector ydoc) 0) w F) as [row E].
  erewrite bind_ok by exact E. reflexivity.
Qed.

(** ** record_update *)

Lemma is_latest_unique (d : string) (b : database) (i j : Z) :
  is_latest d b i -> is_latest d b j -> i = j.
Proof.
  intros [[Ei ->] | (x & Hx & <- & Mx)] [[Ej ->] | (y & Hy & <- & My)].
  - reflexivity.
  - rewrite Ei in Hy. contradiction.
  - rewrite Ej in Hx. contradiction.
  - specialize (Mx y Hy). specialize (My x Hx). lia.
Qed.

Lemma In_insert_update (d : string) (v : bytes) (b : database) :
  In (mkRow (serial b) d v v1) (table (snd (exec (InsertUpdate d v) b))).
Proof. cbn [exec snd table]. apply in_or_app. right. left. reflexivity. Qed.

(** C5.  In a run in which no round trip fails, on a table keyed by the
    sequence, with a payload that is an update: [storeUpdate] (either
    revision) returns the id the store assigned to the new row, drawn
    from the sequence, and that row is the document's new last update.
    If the latest id of the document was -1, the document's state-vector
    row then holds what [writeStateVector] writes for clock 0 and the
    state vector of a fresh document to which the payload alone was
    applied; otherwise no state-vector row is touched. *)
Theorem storeUpdate_first_write `{Yjs} (rev : revision) (d : string)
    (u : bytes) (w : World) (ydoc : Doc) :
  faults w = [] -> serial_key (db w) -> applyUpdate newDoc u = Some ydoc ->
  exists i w',
    storeUpdate_of rev d u w = (Ok i, w') /\
    serial (db w) <= i < serial (db w') /\
    In (mkRow i d u v1) (table (db w')) /\
    updates_of d (db w') = updates_of d (db w) ++ [mkRow i d u v1] /\
    (is_latest d (db w) (-1) ->
       exists row,
         checkpoint_of d (db w') = Some row /\
         value row = encodeStateVectorBuffer (encodeStateVector ydoc) 0) /\
    (~ is_latest d (db w) (-1) ->
       forall d', checkpoint_of d' (db w') = checkpoint_of d' (db w)).
Proof.
  intros F K A.
  pose proof (select_latest_is_latest d (db w)) as L.
  set (c := match fst (exec (SelectLatest d) (db w)) with
            | x :: _ => id x
            | [] => -1
            end) in *.
  set (v0 := encodeStateVectorBuffer (encodeStateVector ydoc) 0).
  set (w1 := after (SelectLatest d) w).
  assert (F1 : faults w1 = []) by (apply faults_after, F).
  assert (D1 : db w1 = db w) by reflexivity.
  destruct rev; cbn [storeUpdate_of];
    [unfold Sync.storeUpdate | unfold Async.storeUpdate];
    unfold getCurrentUpdateClock;
    erewrite bind_ok by (apply findLatestDocumentId_calm, F);
    fold c; fold w1; destruct (c =? -1) eqn:C.
  - (* synchronous, first write *)
    erewrite bind_ok by (apply (writeInitialStateVector_calm d u w1 ydoc F1 A)).
    fold v0. set (w2 := after (put_stmt d v0 (db w1)) (after (SelectStateVector d) w1)).
    assert (F2 : faults w2 = []) by (do 2 apply faults_after; exact F1).
    assert (D2 : db w2 = snd (exec (put_stmt d v0 (db w)) (db w))) by reflexivity.
    erewrite bind_ok by (apply insertUpdate_calm, F2).
    eexists. eexists. split; [reflexivity|]. cbn [id after db].
    fold (db w2). rewrite D2.
    pose proof (adapter_step_serial _ _ (step_put (db w) d v0)) as S.
    split; [cbn [exec snd serial]; lia|].
    split; [apply In_insert_update|].
    split; [rewrite updates_of_insert_update, String.eqb_refl,
              updates_of_put by exact K; reflexivity|].
    split.
    + intros _. rewrite checkpoint_of_insert_update.
      destruct (checkpoint_of_put d v0 (db w)) as (row & Cr & Vr & _). eauto.
    + intros N. exfalso. apply N. apply Z.eqb_eq in C. rewrite <- C. exact L.
  - (* synchronous, later write *)
    erewrite bind_ok by reflexivity.
    erewrite bind_ok by (apply insertUpdate_calm, F1).
    eexists. eexists. split; [reflexivity|]. cbn [id after db].
    fold (db w1). rewrite D1.
    split; [cbn [exec snd serial]; lia|].
    split; [apply In_insert_update|].
    split; [rewrite updates_of_insert_update, String.eqb_refl; reflexivity|].
    split.
    + intros L'. apply Z.eqb_neq in C. exfalso. apply C.
      eapply is_latest_unique; eassumption.
    + intros _ d'. apply checkpoint_of_insert_update.
  - (* fire and forget, first write *)
    set (w2 := after (InsertUpdate d u) w1).
    assert (F2 : faults w2 = []) by (apply faults_after, F1).
    assert (D2 : db w2 = snd (exec (InsertUpdate d u) (db w))) by reflexivity.
    assert (K2 : serial_key (db w2)).
    { rewrite D2. apply (adapter_step_serial_key _ _ (step_insert _ d u)), K. }
    erewrite bind_ok.
    2: { unfold fire_and_forget. rewrite (insertUpdate_calm d u w1 F1).
         fold w2. unfold catch_log.
         rewrite (writeInitialStateVector_calm d u w2 ydoc F2 A). reflexivity. }
    fold v0. eexists. eexists. split; [reflexivity|]. cbn [id after db].
    fold (db w2). rewrite D1.
    pose proof (adapter_step_serial _ _ (step_put (db w2) d v0)) as S.
    assert (S2 : serial (db w2) = serial (db w) + 1) by reflexivity.
    change (snd (exec (SelectStateVector d) (db w2))) with (db w2).
    split; [lia|].
    split; [apply In_put_table; auto; rewrite D2; apply In_insert_update|].
    split; [rewrite updates_of_put by exact K2;
            rewrite D2, updates_of_insert_update, String.eqb_refl; reflexivity|].
    split.
    + intros _.
      destruct (checkpoint_of_put d v0 (db w2)) as (row & Cr & Vr & _). eauto.
    + intros N. exfalso. apply N. apply Z.eqb_eq in C. rewrite <- C. exact L.
  - (* fire and forget, later write *)
    erewrite bind_ok by (apply insertUpdate_calm, F1).
    eexists. eexists. split; [reflexivity|]. cbn [id after db].
    fold (db w1). rewrite D1.
    split; [cbn [exec snd serial]; lia|].
    split; [apply In_insert_update|].
    split; [rewrite updates_of_insert_update, String.eqb_refl; reflexivity|].
    split.
    + intros L'. apply Z.eqb_neq in C. exfalso. apply C.
      eapply is_latest_unique; eassumption.
    + intros _ d'. apply checkpoint_of_insert_update.
Qed.

Lemma storeUpdate_first_write_witness :
  exists i w',
    @storeUpdate_of LogDoc FireAndForget "doc" [x0a] (world_of empty_db [])
      = (Ok i, w') /\
    serial (db (world_of empty_db [])) <= i < serial (db w') /\
    In (mkRow i "doc" [x0a] v1) (table (db w')) /\
    updates_of "doc" (db w') =
      updates_of "doc" (db (world_of empty_db [])) ++ [mkRow i "doc" [x0a] v1] /\
    (is_latest "doc" (db (world_of empty_db [])) (-1) ->
       exists row,
         checkpoint_of "doc" (db w') = Some row /\
         value row =
           encodeStateVectorBuffer (@encodeStateVector LogDoc [[x0a]]) 0) /\
    (~ is_latest "doc" (db (world_of empty_db [])) (-1) ->
       forall d', checkpoint_of d' (db w') =
                  checkpoint_of d' (db (world_of empty_db []))).
Proof.
  apply (@storeUpdate_first_write LogDoc FireAndForget "doc" [x0a]
           (world_of empty_db []) [[x0a]]).
  - reflexivity.
  - apply log_ok_empty.
  - reflexivity.
Defined.

(** ** The promise [storeUpdate] does not await *)

Lemma storeUpdate_foreground_faults (d : string) (u : bytes) (b : database)
    (f1 f2 : bool) (fs fs' : list bool) j c j' c' :
  fst (storeUpdate_foreground d u (mkWorld b (f1 :: f2 :: fs) j c)) =
  fst (storeUpdate_foreground d u (mkWorld b (f1 :: f2 :: fs') j' c')).
Proof.
  unfold storeUpdate_foreground, getCurrentUpdateClock,
    PgAdapter.findLatestDocumentId, PgAdapter.insertUpdate, bind, query, ret, lift.
  cbn [faults db journal console tl].
  destruct f1; [reflexivity|].
  destruct (exec (SelectLatest d) b) as [rows1 b1] eqn:X1.
  cbn [faults db journal console tl].
  destruct f2; [reflexivity|].
  cbn [exec] in X1. injection X1 as _ <-.
  destruct (exec (InsertUpdate d u) b) as [rows2 b2]. reflexivity.
Qed.

Lemma async_storeUpdate_foreground `{Yjs} (d : string) (u : bytes) (w : World) :
  fst (Async.storeUpdate d u w) = fst (storeUpdate_foreground d u w).
Proof.
  unfold Async.storeUpdate, storeUpdate_foreground, bind, fire_and_forget.
  destruct (getCurrentUpdateClock d w) as [[c|e] w1]; [|reflexivity].
  destruct (c =? -1); [|reflexivity].
  destruct (PgAdapter.insertUpdate d u w1) as [[row|e] w2];
    destruct (catch_log Async.init_failed (writeInitialStateVector d u) w2)
      as [x w3]; reflexivity.
Qed.

Lemma async_storeUpdate_console `{Yjs} (d : string) (u : bytes) (w : World) r w' :
  Async.storeUpdate d u w = (r, w') ->
  console w' = console w \/
  exists e, console w' = console w ++ [(Async.init_failed, e)].
Proof.
  assert (Q : forall s w r w', query s w = (r, w') -> console w' = console w).
  { intros s x rx x' E. apply query_inv in E as [[_ F] | [_ F]]; apply F. }
  assert (I : forall w r w', PgAdapter.insertUpdate d u w = (r, w') ->
                             console w' = console w).
  { intros x rx x' E. apply insertUpdate_inv in E as [[_ F] | [_ F]]; apply F. }
  assert (P : forall v w r w', PgAdapter.putStateVector d v w = (r, w') ->
                               console w' = console w).
  { intros v x rx x' E. apply putStateVector_inv in E
      as [[_ F] | [(x1 & R1 & _ & _ & F) | (x1 & R1 & _ & R2 & _)]].
    - apply F.
    - destruct F as (_ & _ & -> & _). apply R1.
    - destruct R2 as (_ & _ & -> & _). apply R1. }
  assert (W : forall w r w', writeInitialStateVector d u w = (r, w') ->
                             console w' = console w).
  { intros x rx x' E. unfold writeInitialStateVector in E.
    apply bind_inv in E as [(ydoc & x1 & E1 & E) | (e & E1 & _)];
      apply lift_inv in E1 as [_ ->]; [|reflexivity].
    apply bind_inv in E as [(row & x2 & E2 & E) | (e & E2 & _)].
    - apply ret_inv in E as [_ ->]. eapply P. exact E2.
    - eapply P. exact E2. }
  intros E. unfold Async.storeUpdate, getCurrentUpdateClock in E.
  apply bind_inv in E as [(c & w1 & E1 & E) | (e & E1 & _)];
    apply findLatestDocumentId_inv in E1 as [[X F1] | (X & F1 & _)];
    try discriminate X; try (left; apply F1).
  clear X.
  assert (X : exists rr, (if c =? -1
     then fire_and_forget Async.init_failed (writeInitialStateVector d u)
            (PgAdapter.insertUpdate d u)
     else PgAdapter.insertUpdate d u) w1 = (rr, w')).
  { apply bind_inv in E as [(row & w2 & E2 & E) | (e & E2 & _)].
    - apply lift_inv in E as [_ ->]. eauto.
    - eauto. }
  clear E. destruct X as [rr E].
  assert (C1 : console w1 = console w) by apply F1. rewrite <- C1.
  destruct (c =? -1).
  - apply fire_and_forget_inv in E as (w2 & E2 & E3).
    apply I in E2. rewrite <- E2.
    apply catch_log_inv in E3 as [_ [[a E3] | (e & w3 & E3 & L)]].
    + left. eapply W. exact E3.
    + right. exists e. apply W in E3. rewrite <- E3. apply L.
  - left. eapply I. exact E.
Qed.

Lemma writeInitialStateVector_console `{Yjs} (d : string) (u : bytes)
    (w : World) r w' :
  writeInitialStateVector d u w = (r, w') -> console w' = console w.
Proof.
  assert (P : forall v w r w', PgAdapter.putStateVector d v w = (r, w') ->
                               console w' = console w).
  { intros v x rx x' E. apply putStateVector_inv in E
      as [[_ F] | [(x1 & R1 & _ & _ & F) | (x1 & R1 & _ & R2 & _)]].
    - apply F.
    - destruct F as (_ & _ & -> & _). apply R1.
    - destruct R2 as (_ & _ & -> & _). apply R1. }
  intros E. unfold writeInitialStateVector in E.
  apply bind_inv in E as [(ydoc & x1 & E1 & E) | (e & E1 & _)];
    apply lift_inv in E1 as [_ ->]; [|reflexivity].
  apply bind_inv in E as [(row & x2 & E2 & E) | (e & E2 & _)].
  - apply ret_inv in E as [_ ->]. eapply P. exact E2.
  - eapply P. exact E2.
Qed.

Lemma async_storeUpdate_logs `{Yjs} (d : string) (u : bytes)
    (w w1 w2 w3 : World) (r2 : result (option Row)) (r3 : result unit) :
  getCurrentUpdateClock d w = (Ok (-1), w1) ->
  PgAdapter.insertUpdate d u w1 = (r2, w2) ->
  writeInitialStateVector d u w2 = (r3, w3) ->
  console (snd (Async.storeUpdate d u w)) =
  match r3 with
  | Ok _ => console w
  | Err e => console w ++ [(Async.init_failed, e)]
  end.
Proof.
  intros E1 E2 E3.
  assert (C1 : console w1 = console w).
  { unfold getCurrentUpdateClock in E1.
    apply findLatestDocumentId_inv in E1 as [[X F1] | (X & F1 & _)]; apply F1. }
  assert (C2 : console w2 = console w1).
  { apply insertUpdate_inv in E2 as [[_ F] | [_ F]]; apply F. }
  assert (C3 : console w3 = console w2).
  { eapply writeInitialStateVector_console. exact E3. }
  unfold Async.storeUpdate, bind. rewrite E1.
  replace (-1 =? -1) with true by reflexivity.
  unfold fire_and_forget, catch_log. rewrite E2, E3.
  destruct r3 as [[]|e]; destruct r2 as [row|e2]; cbn [snd console];
    try (destruct (lift (id_of row) _) as [ri wi] eqn:L;
         apply lift_inv in L as [_ ->]; cbn [snd console]);
    congruence.
Qed.

(** C9.  The result of the fire-and-forget [storeUpdate], the id or the
    error, is the result of its two awaited calls alone (the lookup of
    the latest id and the insert).  So it is the same whatever becomes of
    the promise that writes the initial state vector: for one table and
    one fate of the two awaited round trips, whichever later round trips
    fail and whether or not [Y.applyUpdate] throws.  Whatever the promise
    throws is handed to [console.error]: the call leaves the console as
    it was or with one more line, the one of its [catch] handler; and
    when the promise is started (the latest id is -1), the line is there
    exactly when the promise throws, and it carries the error thrown,
    whether the awaited insert succeeded or not. *)
Theorem storeUpdate_background_errors (d : string) (u : bytes) :
  (forall (Y : Yjs) (w : World),
     fst (Async.storeUpdate d u w) = fst (storeUpdate_foreground d u w)) /\
  (forall (Y Y' : Yjs) (b : database) (f1 f2 : bool) (fs fs' : list bool)
          j c j' c',
     fst (@Async.storeUpdate Y d u (mkWorld b (f1 :: f2 :: fs) j c)) =
     fst (@Async.storeUpdate Y' d u (mkWorld b (f1 :: f2 :: fs') j' c'))) /\
  (forall (Y : Yjs) (w : World) r w',
     Async.storeUpdate d u w = (r, w') ->
     console w' = console w \/
     exists e, console w' = console w ++ [(Async.init_failed, e)]) /\
  (forall (Y : Yjs) (w w1 w2 w3 : World) r2 r3,
     getCurrentUpdateClock d w = (Ok (-1), w1) ->
     PgAdapter.insertUpdate d u w1 = (r2, w2) ->
     writeInitialStateVector d u w2 = (r3, w3) ->
     console (snd (Async.storeUpdate d u w)) =
     match r3 with
     | Ok _ => console w
     | Err e => console w ++ [(Async.init_failed, e)]
     end).
Proof.
  split; [|split; [|split]].
  - intros Y w. apply async_storeUpdate_foreground.
  - intros Y Y' b f1 f2 fs fs' j c j' c'.
    rewrite !async_storeUpdate_foreground.
    apply storeUpdate_foreground_faults.
  - intros Y w r w'. apply async_storeUpdate_console.
  - intros Y w w1 w2 w3 r2 r3. apply async_storeUpdate_logs.
Qed.

(** On a fresh table, a promise whose first round trip fails, and one
    whose payload [Y.applyUpdate] refuses: the error of the promise is on
    the console. *)
Lemma storeUpdate_background_errors_witness :
  console (snd (Async.storeUpdate (H:=LogDoc) "doc" [x0a]
                  (world_of empty_db [false; false; true]))) =
    [(Async.init_failed, StorageUnavailable)] /\
  console (snd (Async.storeUpdate (H:=LogDoc) "doc" []
                  (world_of empty_db []))) =
    [(Async.init_failed, InvalidUpdate)].
Proof.
  destruct (storeUpdate_background_errors "doc" [x0a]) as (_ & _ & _ & L1).
  destruct (storeUpdate_background_errors "doc" []) as (_ & _ & _ & L2).
  split.
  - exact (L1 LogDoc (world_of empty_db [false; false; true])
             (snd (getCurrentUpdateClock "doc"
                     (world_of empty_db [false; false; true])))
             (snd (PgAdapter.insertUpdate "doc" [x0a]
                (snd (getCurrentUpdateClock "doc"
                        (world_of empty_db [false; false; true])))))
             (snd (writeInitialStateVector (H:=LogDoc) "doc" [x0a]
                (snd (PgAdapter.insertUpdate "doc" [x0a]
                   (snd (getCurrentUpdateClock "doc"
                           (world_of empty_db [false; false; true])))))))
             (Ok (Some (mkRow 1 "doc" [x0a] v1)))
             (Err StorageUnavailable)
             eq_refl eq_refl eq_refl).
  - exact (L2 LogDoc (world_of empty_db [])
             (snd (getCurrentUpdateClock "doc" (world_of empty_db [])))
             (snd (PgAdapter.insertUpdate "doc" []
                (snd (getCurrentUpdateClock "doc" (world_of empty_db [])))))
             (snd (writeInitialStateVector (H:=LogDoc) "doc" []
                (snd (PgAdapter.insertUpdate "doc" []
                   (snd (getCurrentUpdateClock "doc" (world_of empty_db [])))))))
             (Ok (Some (mkRow 1 "doc" [] v1)))
             (Err InvalidUpdate)
             eq_refl eq_refl eq_refl).
Defined.

(** ** compact *)

Lemma bookkeeping_put_stmt (d : string) (v : bytes) (b : database) :
  bookkeeping (put_stmt d v b).
Proof. unfold put_stmt. destruct (checkpoint_of d b); exact I. Qed.

(** The write of the initial state vector, however it ends: updates stay,
    and the statements it ran are bookkeeping. *)
Lemma writeInitialStateVector_effect `{Yjs} (d : string) (u : bytes)
    (w : World) r w' :
  writeInitialStateVector d u w = (r, w') ->
  serial_key (db w) ->
  serial_key (db w') /\ serial (db w) <= serial (db w') /\
  (forall d', updates_of d' (db w') = updates_of d' (db w)) /\
  (forall x, In x (table (db w)) -> version x = v1 -> In x (table (db w'))) /\
  exists j, journal w' = journal w ++ j /\ Forall bookkeeping j.
Proof.
  intros E K.
  assert (Same : db w' = db w ->
    serial_key (db w') /\ serial (db w) <= serial (db w') /\
    (forall d', updates_of d' (db w') = updates_of d' (db w)) /\
    (forall x, In x (table (db w)) -> version x = v1 -> In x (table (db w')))).
  { intros ->. split; [exact K|]. split; [lia|]. split; auto. }
  assert (Put : forall v, db w' = snd (exec (put_stmt d v (db w)) (db w)) ->
    serial_key (db w') /\ serial (db w) <= serial (db w') /\
    (forall d', updates_of d' (db w') = updates_of d' (db w)) /\
    (forall x, In x (table (db w)) -> version x = v1 -> In x (table (db w')))).
  { intros v ->. split; [apply serial_key_put, K|].
    split; [apply (adapter_step_serial _ _ (step_put (db w) d v))|].
    split; [intros d'; apply updates_of_put, K|].
    intros x Hx Vx. apply In_put_table; auto. }
  unfold writeInitialStateVector in E.
  apply bind_inv in E as [(ydoc & w1 & E1 & E) | (e & E1 & _)];
    apply lift_inv in E1 as [_ ->].
  2: { destruct (Same eq_refl) as (A & B & C & D).
    split; [exact A|]. split; [exact B|]. split; [exact C|]. split; [exact D|].
       exists []. rewrite app_nil_r. auto. }
  assert (X : exists rr, writeStateVector d (encodeStateVector ydoc) 0 w = (rr, w')).
  { apply bind_inv in E as [(row & w2 & E2 & E) | (e & E2 & _)].
    - apply ret_inv in E as [_ ->]. eauto.
    - eauto. }
  clear E. destruct X as [rr E]. unfold writeStateVector in E.
  apply putStateVector_inv in E
    as [[_ F] | [(w1 & R1 & D1 & _ & F) | (w1 & R1 & D1 & R2 & _)]].
  - destruct (Same (failed_db _ _ F)) as (A & B & C & D).
    split; [exact A|]. split; [exact B|]. split; [exact C|]. split; [exact D|].
    exists []. rewrite app_nil_r. split; [apply F | constructor].
  - assert (D' : db w' = db w) by (rewrite (failed_db _ _ F); exact D1).
    destruct (Same D') as (A & B & C & D).
    split; [exact A|]. split; [exact B|]. split; [exact C|]. split; [exact D|].
    exists [SelectStateVector d]. split; [|repeat constructor].
    destruct F as (_ & -> & _). apply R1.
  - assert (D' : db w' = snd (exec (put_stmt d
                  (encodeStateVectorBuffer (encodeStateVector ydoc) 0) (db w)) (db w)))
      by (rewrite (ran_db _ _ _ R2), D1; reflexivity).
    destruct (Put _ D') as (A & B & C & D).
    split; [exact A|]. split; [exact B|]. split; [exact C|]. split; [exact D|].
    eexists [SelectStateVector d; _]. split.
    + destruct R2 as (_ & -> & _). destruct R1 as (_ & -> & _).
      rewrite <- app_assoc. reflexivity.
    + repeat constructor. apply bookkeeping_put_stmt.
Qed.

(** [storeUpdate], when it returns: one [INSERT] of the update, among
    bookkeeping; the update is the new last row of the document. *)
Lemma storeUpdate_success `{Yjs} (rev : revision) (d : string) (u : bytes)
    (w : World) (i : Z) (w' : World) :
  storeUpdate_of rev d u w = (Ok i, w') ->
  serial_key (db w) ->
  serial_key (db w') /\ serial (db w) <= i /\
  (forall d', updates_of d' (db w') =
     updates_of d' (db w) ++
     (if String.eqb d d' then [mkRow i d u v1] else [])) /\
  exists j1 j2,
    journal w' = journal w ++ j1 ++ InsertUpdate d u :: j2 /\
    Forall bookkeeping j1 /\ Forall bookkeeping j2.
Proof.
  intros E K. destruct rev; cbn [storeUpdate_of] in E;
    [unfold Sync.storeUpdate in E | unfold Async.storeUpdate in E];
    unfold getCurrentUpdateClock in E;
    apply bind_ok_inv in E as (c & w1 & E1 & E);
    apply findLatestDocumentId_inv in E1 as [[X _] | (_ & R1 & D1)];
    try discriminate X;
    assert (J1 : journal w1 = journal w ++ [SelectLatest d]) by apply R1;
    rewrite <- D1 in *.
  - (* synchronous *)
    apply bind_ok_inv in E as (u0 & w2 & E2 & E).
    assert (I2 : serial_key (db w2) /\ serial (db w1) <= serial (db w2) /\
      (forall d', updates_of d' (db w2) = updates_of d' (db w1)) /\
      exists j, journal w2 = journal w1 ++ j /\ Forall bookkeeping j).
    { destruct (c =? -1).
      - destruct (writeInitialStateVector_effect _ _ _ _ _ E2 K)
          as (A & B & C & _ & D). auto.
      - apply ret_inv in E2 as [_ ->].
        split; [exact K|]. split; [lia|]. split; [reflexivity|].
        exists []. rewrite app_nil_r. auto. }
    destruct I2 as (K2 & S2 & U2 & j & J2 & B2).
    apply bind_ok_inv in E as (row & w3 & E3 & E).
    apply insertUpdate_inv in E3 as [[X _] | [X R3]]; try discriminate X.
    injection X as ->. apply lift_inv in E as [E ->].
    cbn [id_of id] in E. injection E as ->.
    rewrite (ran_db _ _ _ R3).
    split; [apply serial_key_insert, K2|]. split; [exact S2|]. split.
    + intros d'. rewrite updates_of_insert_update, U2. reflexivity.
    + exists (SelectLatest d :: j), []. split.
      * destruct R3 as (_ & -> & _). rewrite J2, J1, <- !app_assoc. reflexivity.
      * split; constructor; [exact I | exact B2].
  - (* fire and forget *)
    apply bind_ok_inv in E as (row & w2 & E2 & E).
    apply lift_inv in E as [E ->].
    assert (I2 : exists w3 j,
      ran (InsertUpdate d u) w1 w3 /\ row = Some (mkRow (serial (db w1)) d u v1) /\
      serial_key (db w2) /\
      (forall d', updates_of d' (db w2) = updates_of d' (db w3)) /\
      journal w2 = journal w3 ++ j /\ Forall bookkeeping j).
    { destruct (c =? -1).
      - apply fire_and_forget_inv in E2 as (w3 & E2 & E3).
        apply insertUpdate_inv in E2 as [[X _] | [X R3]]; try discriminate X.
        injection X as ->.
        assert (K3 : serial_key (db w3)).
        { rewrite (ran_db _ _ _ R3). apply serial_key_insert, K. }
        apply catch_log_inv in E3 as [_ [[a E3] | (e & w4 & E3 & L)]];
          destruct (writeInitialStateVector_effect _ _ _ _ _ E3 K3)
            as (A & _ & C & _ & (j & J & B)).
        + exists w3, j. auto 10.
        + exists w3, j. destruct L as (Ld & Lj & _).
          rewrite Ld, Lj. auto 10.
      - apply insertUpdate_inv in E2 as [[X _] | [X R3]]; try discriminate X.
        injection X as ->. exists w2, []. rewrite app_nil_r.
        split; [exact R3|]. split; [reflexivity|].
        split; [rewrite (ran_db _ _ _ R3); apply serial_key_insert, K|].
        split; [reflexivity|]. split; [reflexivity | constructor]. }
    destruct I2 as (w3 & j & R3 & -> & K2 & U2 & J2 & B2).
    cbn [id_of id] in E. injection E as ->.
    split; [exact K2|]. split; [lia|]. split.
    + intros d'. rewrite U2, (ran_db _ _ _ R3), updates_of_insert_update.
      reflexivity.
    + exists [SelectLatest d], j. split.
      * destruct R3 as (_ & J3 & _). rewrite J2, J3, J1, <- !app_assoc.
        reflexivity.
      * split; [repeat constructor | exact B2].
Qed.

Lemma flushDocument_of_with `{Yjs} (rev : revision) :
  flushDocument_of rev = flushDocument_with (storeUpdate_of rev).
Proof. destruct rev; reflexivity. Qed.

Lemma flushDocument_success `{Yjs} (rev : revision) (d : string)
    (su sv : bytes) (w : World) (hw : Z) (w' : World) :
  flushDocument_of rev d su sv w = (Ok hw, w') ->
  serial_key (db w) ->
  serial (db w) <= hw /\
  (forall d', updates_of d' (db w') =
     filter (fun r => negb (in_range d 0 hw r))
       (updates_of d' (db w) ++
        (if String.eqb d d' then [mkRow hw d su v1] else []))) /\
  (exists row, checkpoint_of d (db w') = Some row /\
               value row = encodeStateVectorBuffer sv hw) /\
  exists j1 j2 b1,
    journal w' =
      journal w ++ j1 ++ InsertUpdate d su :: j2 ++
      [SelectStateVector d; put_stmt d (encodeStateVectorBuffer sv hw) b1;
       DeleteRange d 0 hw] /\
    Forall bookkeeping j1 /\ Forall bookkeeping j2.
Proof.
  intros E K. rewrite flushDocument_of_with in E. unfold flushDocument_with in E.
  apply bind_ok_inv in E as (i & w1 & E1 & E).
  destruct (storeUpdate_success _ _ _ _ _ _ E1 K)
    as (K1 & S1 & U1 & j1 & j2 & J1 & B1 & B2).
  apply bind_ok_inv in E as (row & w2 & E2 & E). unfold writeStateVector in E2.
  apply putStateVector_inv in E2
    as [[X _] | [(w1' & _ & _ & X & _) | (w1' & R1 & D1 & R2 & _)]];
    try discriminate X.
  apply bind_ok_inv in E as (u0 & w3 & E3 & E).
  apply clearUpdatesRange_inv in E3 as [[X _] | [_ R3]]; try discriminate X.
  apply ret_inv in E as [E ->]. injection E as E. subst i.
  assert (D2 : db w2 = snd (exec (put_stmt d (encodeStateVectorBuffer sv hw)
                                    (db w1)) (db w1)))
    by (rewrite (ran_db _ _ _ R2), D1; reflexivity).
  rewrite (ran_db _ _ _ R3).
  split; [exact S1|]. split; [|split].
  - intros d'. rewrite updates_of_delete_range, D2, updates_of_put by exact K1.
    rewrite U1. reflexivity.
  - rewrite checkpoint_of_delete_range, D2.
    destruct (checkpoint_of_put d (encodeStateVectorBuffer sv hw) (db w1))
      as (r' & C' & V' & _). eauto.
  - exists j1, j2, (db w1). split; [|auto].
    destruct R3 as (_ & -> & _). destruct R2 as (_ & -> & _).
    destruct R1 as (_ & -> & _). rewrite J1.
    repeat (repeat rewrite <- app_assoc; cbn [app]). reflexivity.
Qed.

Lemma filter_none {A} (f : A -> bool) (l : list A) :
  (forall x, In x l -> f x = false) -> filter f l = [].
Proof.
  intros Hf. induction l as [|x l IH]; cbn [filter]; [reflexivity|].
  rewrite (Hf x) by (left; reflexivity). apply IH.
  intros y Hy. apply Hf. right. exact Hy.
Qed.

Lemma new_row_not_in_range (d : string) (su : bytes) (hw : Z) :
  in_range d 0 hw (mkRow hw d su v1) = false.
Proof. unfold in_range. cbn [id]. rewrite Z.ltb_irrefl. apply andb_false_r. Qed.

(** C1.  When [flushDocument] returns [hw], on a table keyed by the
    sequence and with at most one state-vector row for a document, in the
    synchronous revision, and in the fire-and-forget
    revision when the document has an update (its [storeUpdate] then
    starts no promise and reads as the synchronous one): the statements
    it ran are, in this order: [storeUpdate]'s, which are one [INSERT] of
    the full state among bookkeeping (the lookup of the latest id and, for
    a document without updates, the write of its initial state vector; no
    other insert, no delete); then the upsert of the state-vector row with
    the state vector and the clock [hw]; then the one
    [DELETE ... id >= 0 AND id < hw].  [hw] is the id the insert drew
    from the sequence.  The updates left, of any document, are exactly the
    earlier ones and the full-state row that are not updates of this
    document with [0 <= id < hw]; the full-state row, whose id is [hw],
    is among them. *)
Theorem flushDocument_order `{Yjs} (rev : revision) (d : string)
    (su sv : bytes) (w : World) (hw : Z) (w' : World) :
  flushDocument_of rev d su sv w = (Ok hw, w') ->
  serial_key (db w) ->
  one_checkpoint (db w) ->
  rev = Synchronous \/ updates_of d (db w) <> [] ->
  (exists j1 j2 b1,
     journal w' =
       journal w ++ j1 ++ InsertUpdate d su :: j2 ++
       [SelectStateVector d; put_stmt d (encodeStateVectorBuffer sv hw) b1;
        DeleteRange d 0 hw] /\
     Forall bookkeeping j1 /\ Forall bookkeeping j2) /\
  serial (db w) <= hw /\
  (exists row, checkpoint_of d (db w') = Some row /\
               value row = encodeStateVectorBuffer sv hw) /\
  (forall d', updates_of d' (db w') =
     filter (fun r => negb (in_range d 0 hw r))
       (updates_of d' (db w) ++
        (if String.eqb d d' then [mkRow hw d su v1] else []))) /\
  In (mkRow hw d su v1) (updates_of d (db w')).
Proof.
  intros E K _ _.
  destruct (flushDocument_success _ _ _ _ _ _ _ E K) as (S & U & C & J).
  split; [exact J|]. split; [exact S|]. split; [exact C|]. split; [exact U|].
  rewrite U, String.eqb_refl. apply filter_In. split.
  - apply in_or_app. right. left. reflexivity.
  - rewrite new_row_not_in_range. reflexivity.
Qed.

(** C2.  When [flushDocument] (either revision) returns [hw], on a table
    keyed by the sequence, the document has exactly one update left, the
    full-state row with id [hw]: no update of the document with an id
    below [hw] is left.  In the synchronous revision, and in the
    fire-and-forget revision when the document had an update (so that no
    promise is started), on a table with at most one state-vector row
    for a document, [hw] is also the clock its state-vector row holds. *)
Theorem flushDocument_no_orphans `{Yjs} (rev : revision) (d : string)
    (su sv : bytes) (w : World) (hw : Z) (w' : World) :
  flushDocument_of rev d su sv w = (Ok hw, w') ->
  serial_key (db w) ->
  updates_of d (db w') = [mkRow hw d su v1] /\
  (forall r, In r (table (db w')) -> is_update d r = true -> hw <= id r) /\
  (rev = Synchronous \/ updates_of d (db w) <> [] ->
   one_checkpoint (db w) ->
   exists row, checkpoint_of d (db w') = Some row /\
               value row = encodeStateVectorBuffer sv hw).
Proof.
  intros E K.
  destruct (flushDocument_success _ _ _ _ _ _ _ E K) as (S & U & C & _).
  assert (X : updates_of d (db w') = [mkRow hw d su v1]).
  { rewrite U, String.eqb_refl, filter_app. cbn [filter].
    rewrite new_row_not_in_range. cbn [negb].
    rewrite filter_none; [reflexivity|].
    intros x Hx. apply filter_In in Hx as [Hx Ux].
    destruct K as (_ & _ & Hr). specialize (Hr x Hx).
    unfold in_range. rewrite Ux.
    replace (0 <=? id x) with true by (symmetry; apply Z.leb_le; lia).
    replace (id x <? hw) with true by (symmetry; apply Z.ltb_lt; lia).
    reflexivity. }
  split; [exact X|]. split; [|intros _ _; exact C]. intros r Hr Ur.
  assert (Y : In r (updates_of d (db w'))) by (apply filter_In; auto).
  rewrite X in Y. destruct Y as [<-|[]]. cbn [id]. lia.
Qed.

Lemma serial_key_sample : serial_key sample_db.
Proof.
  unfold sample_db. split; [cbn [serial]; lia|]. split.
  - cbn [table map id]. repeat constructor; cbn [In]; intuition lia.
  - cbn [table serial]. intros r [<-|[<-|[<-|[<-|[]]]]]; cbn [id]; lia.
Qed.

Lemma one_checkpoint_sample : one_checkpoint sample_db.
Proof.
  intros d. unfold sample_db. cbn [table filter]. unfold is_state_vector.
  cbn [docname version version_eqb].
  rewrite ?andb_true_r, ?andb_false_r.
  destruct (String.eqb "doc" d); cbn [length]; lia.
Qed.

(** The synchronous revision on a document without updates (it writes
    the initial state vector before the insert), and the fire-and-forget
    revision on a document with updates. *)
Lemma flushDocument_order_witness :
  (journal (snd (@flushDocument_of LogDoc Synchronous "new" [x01; x0a]
                   [x02] (world_of sample_db []))) =
     [SelectLatest "new"; SelectStateVector "new";
      InsertStateVector "new" (encodeStateVectorBuffer [x01] 0);
      InsertUpdate "new" [x01; x0a];
      SelectStateVector "new";
      UpdateStateVector 5 (encodeStateVectorBuffer [x02] 6);
      DeleteRange "new" 0 6] /\
   In (mkRow 6 "new" [x01; x0a] v1)
      (updates_of "new"
         (db (snd (@flushDocument_of LogDoc Synchronous "new" [x01; x0a]
                     [x02] (world_of sample_db [])))))) /\
  ((exists j1 j2 b1,
      journal (snd (@flushDocument_of LogDoc FireAndForget "doc" [x01; x0a; x0b]
                      [x02] (world_of sample_db []))) =
        journal (world_of sample_db []) ++ j1 ++
        InsertUpdate "doc" [x01; x0a; x0b] :: j2 ++
        [SelectStateVector "doc";
         put_stmt "doc" (encodeStateVectorBuffer [x02] 5) b1;
         DeleteRange "doc" 0 5] /\
      Forall bookkeeping j1 /\ Forall bookkeeping j2) /\
   In (mkRow 5 "doc" [x01; x0a; x0b] v1)
      (updates_of "doc"
         (db (snd (@flushDocument_of LogDoc FireAndForget "doc" [x01; x0a; x0b]
                     [x02] (world_of sample_db [])))))).
Proof.
  split.
  - destruct (@flushDocument_order LogDoc Synchronous "new" [x01; x0a] [x02]
                (world_of sample_db []) 6
                (snd (@flushDocument_of LogDoc Synchronous "new" [x01; x0a]
                        [x02] (world_of sample_db []))))
      as (_ & _ & _ & _ & I).
    + vm_compute. reflexivity.
    + apply serial_key_sample.
    + apply one_checkpoint_sample.
    + left. reflexivity.
    + split; [vm_compute; reflexivity | exact I].
  - destruct (@flushDocument_order LogDoc FireAndForget "doc" [x01; x0a; x0b] [x02]
                (world_of sample_db []) 5
                (snd (@flushDocument_of LogDoc FireAndForget "doc" [x01; x0a; x0b]
                        [x02] (world_of sample_db []))))
      as (J & _ & _ & _ & I).
    + vm_compute. reflexivity.
    + apply serial_key_sample.
    + apply one_checkpoint_sample.
    + right. vm_compute. discriminate.
    + split; [exact J | exact I].
Defined.

(** The fire-and-forget revision on a document without updates, and the
    synchronous one on a document with updates. *)
Lemma flushDocument_no_orphans_witness :
  (updates_of "new"
     (db (snd (@flushDocument_of LogDoc FireAndForget "new" [x01; x0a] [x02]
                 (world_of sample_db [])))) =
   [mkRow 5 "new" [x01; x0a] v1] /\
   (forall r,
      In r (table (db (snd (@flushDocument_of LogDoc FireAndForget "new"
                              [x01; x0a] [x02] (world_of sample_db []))))) ->
      is_update "new" r = true -> 5 <= id r)) /\
  (updates_of "doc"
     (db (snd (@flushDocument_of LogDoc Synchronous "doc" [x01; x0a; x0b] [x02]
                 (world_of sample_db [])))) =
   [mkRow 5 "doc" [x01; x0a; x0b] v1] /\
   (forall r,
      In r (table (db (snd (@flushDocument_of LogDoc Synchronous "doc"
                              [x01; x0a; x0b] [x02] (world_of sample_db []))))) ->
      is_update "doc" r = true -> 5 <= id r) /\
   exists row,
     checkpoint_of "doc"
       (db (snd (@flushDocument_of LogDoc Synchronous "doc" [x01; x0a; x0b] [x02]
                   (world_of sample_db [])))) = Some row /\
     value row = encodeStateVectorBuffer [x02] 5).
Proof.
  split.
  - destruct (@flushDocument_no_orphans LogDoc FireAndForget "new" [x01; x0a]
                [x02] (world_of sample_db []) 5
                (snd (@flushDocument_of LogDoc FireAndForget "new" [x01; x0a]
                        [x02] (world_of sample_db []))))
      as (U & L & _).
    + vm_compute. reflexivity.
    + apply serial_key_sample.
    + split; [exact U | exact L].
  - destruct (@flushDocument_no_orphans LogDoc Synchronous "doc" [x01; x0a; x0b]
                [x02] (world_of sample_db []) 5
                (snd (@flushDocument_of LogDoc Synchronous "doc" [x01; x0a; x0b]
                        [x02] (world_of sample_db []))))
      as (U & L & C).
    + vm_compute. reflexivity.
    + apply serial_key_sample.
    + split; [exact U |]. split; [exact L |].
      apply C; [left; reflexivity | apply one_checkpoint_sample].
Defined.

(** ** scan_deltas *)

Lemma filter_andb {A} (f g : A -> bool) (l : list A) :
  filter (fun x => f x && g x) l = filter g (filter f l).
Proof.
  induction l as [|x l IH]; cbn [filter]; [reflexivity|].
  destruct (f x); cbn [andb filter]; rewrite IH; reflexivity.
Qed.

Lemma select_batch_rows (d : string) (c n : Z) (b : database) :
  fst (exec (SelectBatch d c n) b) =
  firstn (Z.to_nat n)
    (filter (fun r => c <? id r) (order_by_id (updates_of d b))).
Proof.
  cbn [exec fst]. unfold limit, updates_of.
  rewrite filter_order_by_id, <- filter_andb. reflexivity.
Qed.

Lemma filter_suffix (c : Z) (P R : list Row) :
  Forall (fun r => id r <= c) P -> Forall (fun r => c < id r) R ->
  filter (fun r => c <? id r) (P ++ R) = R.
Proof.
  intros HP HR. rewrite filter_app.
  rewrite filter_none.
  - cbn [app]. rewrite <- (filter_ext_in (fun _ => true)), filter_true;
      [reflexivity|].
    intros r Hr. rewrite Forall_forall in HR. specialize (HR r Hr).
    symmetry. apply Z.ltb_lt. lia.
  - intros r Hr. rewrite Forall_forall in HP. specialize (HP r Hr).
    apply Z.ltb_ge. lia.
Qed.

Lemma as_update_updates (d : string) (l : list Row) :
  Forall (fun r => is_update d r = true) l -> map PgAdapter.as_update l = l.
Proof.
  induction 1 as [|r l Hr _ IH]; cbn [map]; [reflexivity|].
  rewrite IH. f_equal. apply is_update_iff in Hr as [_ V].
  destruct r as [i dn v ver]. cbn in V. subst ver. reflexivity.
Qed.

Lemma sorted_updates (d : string) (b : database) :
  serial_key b ->
  Permutation (order_by_id (updates_of d b)) (updates_of d b) /\
  StronglySorted by_id_strict (order_by_id (updates_of d b)) /\
  Forall (fun r => is_update d r = true) (order_by_id (updates_of d b)).
Proof.
  intros (_ & Hn & _). split; [apply order_by_id_perm|]. split.
  - apply sorted_strict; [|apply order_by_id_sorted].
    eapply NoDup_ids_perm; [symmetry; apply order_by_id_perm|].
    apply NoDup_ids_filter, Hn.
  - apply Forall_forall. intros r Hr.
    apply (proj1 (order_by_id_In _ _)) in Hr.
    apply filter_In in Hr. tauto.
Qed.

Lemma strongly_sorted_app (l1 l2 : list Row) :
  StronglySorted by_id_strict (l1 ++ l2) ->
  StronglySorted by_id_strict l1 /\ StronglySorted by_id_strict l2 /\
  forall x y, In x l1 -> In y l2 -> id x < id y.
Proof.
  induction l1 as [|a l1 IH]; cbn [app]; intros S.
  - split; [constructor|]. split; [exact S|]. intros x y [].
  - inversion S as [|? ? S' Ha]; subst.
    destruct (IH S') as (S1 & S2 & X). rewrite Forall_forall in Ha.
    split; [|split; [exact S2|]].
    + constructor; [exact S1|]. apply Forall_forall. intros y Hy.
      apply Ha. apply in_or_app. auto.
    + intros x y [<-|Hx] Hy; [|auto]. apply (Ha y). apply in_or_app. auto.
Qed.

(** After a page, its last id splits the rows: none seen is above it,
    none unseen is at or below it. *)
Lemma page_cursor (n : nat) (R : list Row) :
  StronglySorted by_id_strict R -> firstn n R <> [] ->
  Forall (fun r => id r <= last_id (firstn n R)) (firstn n R) /\
  Forall (fun r => last_id (firstn n R) < id r) (skipn n R).
Proof.
  intros S N. rewrite <- (firstn_skipn n R) in S.
  apply strongly_sorted_app in S as (S1 & _ & X).
  destruct (exists_last N) as (pg & x & E). rewrite E in *.
  unfold last_id. rewrite last_last. split.
  - apply Forall_forall. intros r Hr.
    apply in_app_or in Hr as [Hr|[<-|[]]]; [|lia].
    apply strongly_sorted_app in S1 as (_ & _ & Y).
    specialize (Y r x Hr (or_introl eq_refl)). lia.
  - apply Forall_forall. intros r Hr. apply X; [|exact Hr].
    apply in_or_app. right. left. reflexivity.
Qed.

Lemma Forall_firstn_skipn {A} (P : A -> Prop) (n : nat) (l : list A) :
  Forall P l -> Forall P (firstn n l) /\ Forall P (skipn n l).
Proof.
  intros F. rewrite <- (firstn_skipn n l) in F. apply Forall_app in F. exact F.
Qed.

Lemma batch_size_nat : Z.of_nat (Z.to_nat PgAdapterPaged.BATCH_SIZE) = 1000.
Proof. rewrite Z2Nat.id; unfold PgAdapterPaged.BATCH_SIZE; lia. Qed.

(** The loop of [readAllUpdates], keyset revision, from the cursor [c]
    with the rows [R] still above it. *)
Lemma keyset_loop_calm {S : Type} (callback : S -> list Row -> result S)
    (f : S -> list Row -> S) (d : string) :
  (forall s page, callback s page = Ok (f s page)) ->
  forall fuel w P R c total acc,
  faults w = [] ->
  order_by_id (updates_of d (db w)) = P ++ R ->
  StronglySorted by_id_strict R ->
  Forall (fun r => is_update d r = true) R ->
  Forall (fun r => id r <= c) P -> Forall (fun r => c < id r) R ->
  (length R < fuel)%nat ->
  exists pages w',
    PgAdapterPaged.readAllUpdates_loop fuel d callback c total acc w =
      (Ok (total + Z.of_nat (length R), fold_left f pages acc), w') /\
    faults w' = [] /\ console w' = console w /\
    concat pages = R /\
    Forall (fun pg => pg <> [] /\
                      Z.of_nat (length pg) <= PgAdapterPaged.BATCH_SIZE) pages /\
    db w' = db w /\
    journal w' =
      journal w ++
      map (fun c' => SelectBatch d c' PgAdapterPaged.BATCH_SIZE)
          (c :: map last_id (filter full pages)).
Proof.
  intros Hcb.
  induction fuel as [|fuel IH]; intros w P R c total acc F HL St U HP HR Hf;
    [lia|].
  cbn [PgAdapterPaged.readAllUpdates_loop].
  erewrite bind_ok by (apply query_after, hd_faults_nil, F).
  rewrite select_batch_rows, HL, (filter_suffix c P R HP HR).
  set (w1 := after (SelectBatch d c PgAdapterPaged.BATCH_SIZE) w).
  assert (F1 : faults w1 = []) by (apply faults_after, F).
  assert (D1 : db w1 = db w) by reflexivity.
  assert (J1 : journal w1 =
               journal w ++ [SelectBatch d c PgAdapterPaged.BATCH_SIZE])
    by reflexivity.
  pose proof batch_size_nat as Hn.
  set (n := Z.to_nat PgAdapterPaged.BATCH_SIZE) in *.
  destruct (firstn n R) as [|y pg] eqn:Pg.
  - (* no row above the cursor *)
    assert (R = []).
    { destruct R as [|x R']; [reflexivity|]. destruct n; [lia | discriminate]. }
    subst R. exists [], w1. cbn [length concat filter map fold_left].
    rewrite Z.add_0_r. repeat split; auto.
  - rewrite <- Pg.
    destruct (Forall_firstn_skipn _ n R U) as [Uf Us].
    rewrite (as_update_updates d _ Uf).
    assert (N : firstn n R <> []) by (rewrite Pg; discriminate).
    destruct (page_cursor n R St N) as [Cf Cs].
    erewrite bind_ok by (unfold lift; rewrite Hcb; reflexivity).
    pose proof (firstn_le_length n R) as Ln.
    pose proof (firstn_skipn n R) as FS.
    destruct (Z.of_nat (length (firstn n R)) <? PgAdapterPaged.BATCH_SIZE) eqn:Sh.
    + (* a short page: the last one *)
      apply Z.ltb_lt in Sh.
      assert (E : firstn n R = R).
      { apply firstn_all2. rewrite length_firstn in Sh.
        unfold PgAdapterPaged.BATCH_SIZE in Sh. lia. }
      rewrite E in *. exists [R], w1. cbn [concat filter fold_left].
      assert (Fl : full R = false).
      { unfold full. apply Z.eqb_neq. lia. }
      rewrite Fl, app_nil_r. cbn [map].
      split; [reflexivity|]. split; [exact F1|]. split; [reflexivity|].
      split; [reflexivity|].
      split; [repeat constructor; [exact N | lia]|]. auto.
    + (* a full page: on to the next *)
      apply Z.ltb_ge in Sh.
      assert (Ef : Z.of_nat (length (firstn n R)) = PgAdapterPaged.BATCH_SIZE).
      { unfold PgAdapterPaged.BATCH_SIZE in *. lia. }
      assert (LR : length R = (length (firstn n R) + length (skipn n R))%nat).
      { rewrite <- FS at 1. apply length_app. }
      rewrite <- (firstn_skipn n R) in St.
      apply strongly_sorted_app in St as (_ & Ss & _).
      destruct (IH w1 (P ++ firstn n R) (skipn n R) (last_id (firstn n R))
                  (total + Z.of_nat (length (firstn n R)))
                  (f acc (firstn n R)))
        as (pages & w' & E & F' & C' & Cc & Fp & D' & J'); auto.
      * rewrite D1, HL, <- app_assoc, FS. reflexivity.
      * apply Forall_app. split; [|exact Cf].
        apply Forall_forall. intros r Hr.
        rewrite Forall_forall in HP, HR, Cf.
        specialize (HP r Hr).
        assert (In y R) by (rewrite <- FS, Pg; left; reflexivity).
        assert (In y (firstn n R)) by (rewrite Pg; left; reflexivity).
        specialize (HR y H). specialize (Cf y H0). lia.
      * unfold PgAdapterPaged.BATCH_SIZE in *. lia.
      * exists (firstn n R :: pages), w'.
        split.
        { unfold last_id in E. rewrite E.
          replace (total + Z.of_nat (length (firstn n R)) +
                   Z.of_nat (length (skipn n R)))
            with (total + Z.of_nat (length R)) by lia.
          reflexivity. }
        split; [exact F'|]. split; [rewrite C'; reflexivity|].
        split; [rewrite concat_cons, Cc; exact FS|].
        split; [constructor; [split; [exact N | lia] | exact Fp]|].
        split; [congruence|].
        cbn [filter]. replace (full (firstn n R)) with true
          by (symmetry; apply Z.eqb_eq; exact Ef).
        rewrite J', J1, <- app_assoc. reflexivity.
Qed.

Lemma fold_left_collect (pages acc : list (list Row)) :
  fold_left (fun s page => s ++ [page]) pages acc = acc ++ pages.
Proof.
  revert acc. induction pages as [|pg pages IH]; intros acc; cbn [fold_left].
  - rewrite app_nil_r. reflexivity.
  - rewrite IH, <- app_assoc. reflexivity.
Qed.

Lemma single_query_calm (d : string) (w : World) :
  faults w = [] ->
  Forall (fun r => is_update d r = true) (order_by_id (updates_of d (db w))) ->
  readAllUpdates_of SingleQuery _ d collect [] w =
  (Ok (Z.of_nat (length (order_by_id (updates_of d (db w)))),
       [order_by_id (updates_of d (db w))]),
   after (SelectAll d) w).
Proof.
  intros F U. cbn [readAllUpdates_of]. unfold single_query, PgAdapter.readAllUpdates.
  erewrite bind_ok by (apply query_after, hd_faults_nil, F).
  cbn [exec fst]. fold (updates_of d (db w)).
  rewrite (as_update_updates d _ U). reflexivity.
Qed.

(** C3, as the code has it.  In a run in which no round trip fails, on a
    table keyed by the sequence, [readAllUpdates] hands to its callback
    the updates of the document, each once, in ascending order of id (the
    pages, one after the other, are the sorted list of the document's
    updates), returns their number and leaves the table as it is.  In the
    keyset revision no page is empty or longer than 1000 rows, and the
    queries are [... id > c ORDER BY id LIMIT 1000] with [c] first -1,
    then the last id of each full page.  In the revision of
    [pg-adapter.ts] there is one query, without [LIMIT], and its whole
    result is one page. *)
Theorem readAllUpdates_delivers (p : paging) (d : string) (w : World) :
  faults w = [] -> serial_key (db w) ->
  Permutation (order_by_id (updates_of d (db w))) (updates_of d (db w)) /\
  StronglySorted by_id_strict (order_by_id (updates_of d (db w))) /\
  exists pages w',
    readAllUpdates_of p _ d collect [] w =
      (Ok (Z.of_nat (length (updates_of d (db w))), pages), w') /\
    concat pages = order_by_id (updates_of d (db w)) /\
    db w' = db w /\
    match p with
    | Keyset =>
        Forall (fun pg => pg <> [] /\
                          Z.of_nat (length pg) <= PgAdapterPaged.BATCH_SIZE)
               pages /\
        journal w' =
          journal w ++
          map (fun c => SelectBatch d c PgAdapterPaged.BATCH_SIZE)
              (-1 :: map last_id (filter full pages))
    | SingleQuery =>
        pages = [order_by_id (updates_of d (db w))] /\
        journal w' = journal w ++ [SelectAll d]
    end.
Proof.
  intros F K. destruct (sorted_updates d (db w) K) as (Pm & St & U).
  split; [exact Pm|]. split; [exact St|].
  rewrite <- (order_by_id_length (updates_of d (db w))).
  destruct p.
  - exists [order_by_id (updates_of d (db w))], (after (SelectAll d) w).
    split; [apply single_query_calm; assumption|].
    cbn [concat]. rewrite app_nil_r. auto.
  - cbn [readAllUpdates_of]. unfold keyset, PgAdapterPaged.readAllUpdates.
    destruct (keyset_loop_calm collect (fun s page => s ++ [page]) d
                (fun s page => eq_refl)
                (S (length (table (db w)))) w []
                (order_by_id (updates_of d (db w))) (-1) 0 [])
      as (pages & w' & E & _ & _ & C & Fp & D & J); auto.
    + apply Forall_forall. intros r Hr.
      apply (proj1 (order_by_id_In _ _)) in Hr. apply filter_In in Hr as [Hr _].
      destruct K as (_ & _ & Hi). specialize (Hi r Hr). lia.
    + rewrite order_by_id_length. unfold updates_of.
      pose proof (filter_length_le (is_update d) (table (db w))). lia.
    + exists pages, w'. rewrite E, fold_left_collect. cbn [app].
      rewrite Z.add_0_l. auto.
Qed.

Lemma readAllUpdates_delivers_witness :
  exists pages w',
    readAllUpdates_of Keyset _ "doc"%string collect [] (world_of sample_db []) =
      (Ok (Z.of_nat (length (updates_of "doc" sample_db)), pages), w') /\
    concat pages = order_by_id (updates_of "doc" sample_db).
Proof.
  destruct (readAllUpdates_delivers Keyset "doc" (world_of sample_db []))
    as (_ & _ & pages & w' & E & C & _).
  - reflexivity.
  - apply serial_key_sample.
  - exists pages, w'. split; [exact E | exact C].
Defined.

(** The rows [1 .. n] of one document. *)
Lemma long_log (n : nat) :
  serial_key (mkDb (map (fun i => mkRow (Z.of_nat i) "doc" [] v1) (seq 1 n))
                   (Z.of_nat n + 1)) /\
  length (updates_of "doc"
            (mkDb (map (fun i => mkRow (Z.of_nat i) "doc" [] v1) (seq 1 n))
                  (Z.of_nat n + 1))) = n.
Proof.
  split; [split; [cbn [serial]; lia | split]|]; cbn [table serial].
  - rewrite map_map. cbn [id].
    apply Finite.Injective_map_NoDup; [|apply seq_NoDup].
    intros a b E. lia.
  - intros r Hr. apply in_map_iff in Hr as (i & <- & Hi).
    apply in_seq in Hi. cbn [id]. lia.
  - unfold updates_of. cbn [table].
    rewrite <- (filter_ext_in (fun _ => true)), filter_true.
    + rewrite length_map, length_seq. reflexivity.
    + intros r Hr. apply in_map_iff in Hr as (i & <- & _). reflexivity.
Qed.

(** C3, as the specification has it, fails on [pg-adapter.ts]: its
    [readAllUpdates] hands over pages of no bounded size.  Whatever the
    bound, a document with one update more is handed over in one page. *)
Lemma readAllUpdates_single_query_unbounded :
  ~ exists bound : nat,
      forall w, faults w = [] -> serial_key (db w) ->
        forall count pages w',
          readAllUpdates_of SingleQuery _ "doc"%string collect [] w =
            (Ok (count, pages), w') ->
          Forall (fun pg => (length pg <= bound)%nat) pages.
Proof.
  intros [bound Hb].
  destruct (long_log (S bound)) as [K Ln].
  set (b := mkDb (map (fun i => mkRow (Z.of_nat i) "doc" [] v1) (seq 1 (S bound)))
                 (Z.of_nat (S bound) + 1)) in *.
  destruct (sorted_updates "doc" b K) as (_ & _ & U).
  specialize (Hb (world_of b []) eq_refl K _ _ _
                 (single_query_calm "doc" (world_of b []) eq_refl U)).
  apply Forall_inv in Hb. change (db (world_of b [])) with b in Hb.
  rewrite order_by_id_length, Ln in Hb. lia.
Qed.

(** ** load_document *)

(** A scan with a callback that does not throw. *)
Lemma scan_calm (p : paging) {S : Type} (callback : S -> list Row -> result S)
    (f : S -> list Row -> S) (d : string) (s : S) (w : World) :
  (forall s page, callback s page = Ok (f s page)) ->
  faults w = [] -> serial_key (db w) ->
  exists pages w',
    readAllUpdates_of p S d callback s w =
      (Ok (Z.of_nat (length (updates_of d (db w))), fold_left f pages s), w') /\
    faults w' = [] /\ db w' = db w /\ console w' = console w /\
    concat pages = order_by_id (updates_of d (db w)) /\
    (p = SingleQuery -> pages = [order_by_id (updates_of d (db w))]) /\
    (p = Keyset -> Forall (fun pg => pg <> []) pages).
Proof.
  intros Hcb F K. destruct (sorted_updates d (db w) K) as (Pm & St & U).
  rewrite <- (order_by_id_length (updates_of d (db w))).
  destruct p.
  - exists [order_by_id (updates_of d (db w))], (after (SelectAll d) w).
    cbn [readAllUpdates_of]. unfold single_query, PgAdapter.readAllUpdates.
    erewrite bind_ok by (apply query_after, hd_faults_nil, F).
    cbn [exec fst]. fold (updates_of d (db w)).
    rewrite (as_update_updates d _ U).
    erewrite bind_ok by (unfold lift; rewrite Hcb; reflexivity).
    cbn [concat fold_left]. rewrite app_nil_r.
    split; [reflexivity|]. split; [apply faults_after, F|].
    split; [reflexivity|]. split; [reflexivity|]. split; [reflexivity|].
    split; [reflexivity | discriminate].
  - cbn [readAllUpdates_of]. unfold keyset, PgAdapterPaged.readAllUpdates.
    destruct (keyset_loop_calm callback f d Hcb
                (Datatypes.S (length (table (db w)))) w []
                (order_by_id (updates_of d (db w))) (-1) 0 s)
      as (pages & w' & E & F' & C' & C & Fp & D & J); auto.
    + apply Forall_forall. intros r Hr.
      apply (proj1 (order_by_id_In _ _)) in Hr. apply filter_In in Hr as [Hr _].
      destruct K as (_ & _ & Hi). specialize (Hi r Hr). lia.
    + rewrite order_by_id_length. unfold updates_of.
      pose proof (filter_length_le (is_update d) (table (db w))). lia.
    + exists pages, w'. rewrite E, Z.add_0_l.
      split; [reflexivity|]. split; [exact F'|]. split; [exact D|].
      split; [exact C'|]. split; [exact C|]. split; [discriminate|].
      intros _. eapply Forall_impl; [|exact Fp]. cbn. tauto.
Qed.

Lemma fold_left_payloads (pages : list (list Row)) (acc : list bytes) :
  fold_left (fun updates partial => updates ++ map value partial) pages acc =
  acc ++ map value (concat pages).
Proof.
  revert acc. induction pages as [|pg pages IH]; intros acc;
    cbn [fold_left concat map].
  - rewrite app_nil_r. reflexivity.
  - rewrite IH, map_app, app_assoc. reflexivity.
Qed.

(** The synchronous [getYDocFromDb] does what C6 says: with the updates of
    the document all applicable, it goes on to [flushDocument] exactly
    when their number exceeds [flushSize]. *)
Lemma sync_getYDocFromDb_threshold `{Yjs} (p : paging) (d : string)
    (flushSize : Z) (w : World) (ydoc : Doc) :
  faults w = [] -> serial_key (db w) ->
  applyUpdates newDoc (map value (order_by_id (updates_of d (db w)))) = Ok ydoc ->
  exists w1,
    db w1 = db w /\ console w1 = console w /\
    Sync.getYDocFromDb (readAllUpdates_of p) d flushSize w =
    if Z.of_nat (length (updates_of d (db w))) >? flushSize
    then (Sync.flushDocument d (encodeStateAsUpdate ydoc) (encodeStateVector ydoc) ;;;
          ret ydoc) w1
    else (Ok ydoc, w1).
Proof.
  intros F K A.
  destruct (scan_calm p (fun updates partial => Ok (updates ++ map value partial))
              (fun updates partial => updates ++ map value partial) d [] w
              (fun s page => eq_refl) F K)
    as (pages & w1 & E & F1 & D1 & C1 & Cc & _).
  exists w1. split; [exact D1|]. split; [exact C1|].
  unfold Sync.getYDocFromDb. erewrite bind_ok by exact E. cbn [fst snd].
  rewrite fold_left_payloads, Cc. cbn [app].
  erewrite bind_ok by (unfold lift; rewrite A; reflexivity).
  destruct (Z.of_nat (length (updates_of d (db w))) >? flushSize).
  - unfold bind.
    destruct (Sync.flushDocument d (encodeStateAsUpdate ydoc)
                (encodeStateVector ydoc) w1) as [[hw|e] w2]; reflexivity.
  - reflexivity.
Qed.

(** C6 on the fire-and-forget revision: a document with one update, read
    with [flushSize] 500.  The synchronous [getYDocFromDb] reads and
    stops; the fire-and-forget one counts one page as 1000 updates and
    goes on to [flushDocument]: it inserts the full state, writes the
    state vector and deletes. *)
Theorem getYDocFromDb_flushes_below_threshold :
  journal (snd (@Sync.getYDocFromDb LogDoc keyset "doc" 500
                  (world_of (mkDb [mkRow 1 "doc" [x0a] v1] 2) []))) =
    [SelectBatch "doc" (-1) 1000] /\
  journal (snd (@Async.getYDocFromDb LogDoc keyset "doc" 500
                  (world_of (mkDb [mkRow 1 "doc" [x0a] v1] 2) []))) =
    [SelectBatch "doc" (-1) 1000; SelectLatest "doc";
     InsertUpdate "doc" [x01; x0a]; SelectStateVector "doc";
     InsertStateVector "doc" [x02; x01; x01]; DeleteRange "doc" 0 2] /\
  updates_of "doc"
    (db (snd (@Async.getYDocFromDb LogDoc keyset "doc" 500
                (world_of (mkDb [mkRow 1 "doc" [x0a] v1] 2) [])))) =
    [mkRow 2 "doc" [x01; x0a] v1].
Proof. vm_compute. repeat split. Qed.

(** ** The loop of the keyset [readAllUpdates] ends *)

Lemma filter_length_lt {A} (h : A -> bool) (l : list A) (y : A) :
  In y l -> h y = false -> (length (filter h l) < length l)%nat.
Proof.
  induction l as [|x l IH]; cbn [In filter length]; intros Hin Hy; [contradiction|].
  pose proof (filter_length_le h l) as Le.
  destruct Hin as [->|Hin].
  - rewrite Hy. lia.
  - specialize (IH Hin Hy). destruct (h x); cbn [length]; lia.
Qed.

Lemma filter_stronger {A} (g g' : A -> bool) (l : list A) :
  (forall x, g' x = true -> g x = true) ->
  filter g' l = filter g' (filter g l).
Proof.
  intros Hg. induction l as [|x l IH]; cbn [filter]; [reflexivity|].
  destruct (g' x) eqn:G'.
  - rewrite (Hg x G'). cbn [filter]. rewrite G', IH. reflexivity.
  - destruct (g x); cbn [filter]; rewrite ?G', IH; reflexivity.
Qed.

Lemma last_In {A} (l : list A) (d : A) : l <> [] -> In (last l d) l.
Proof.
  intros N. destruct (exists_last N) as (l' & x & ->).
  rewrite last_last. apply in_or_app. right. left. reflexivity.
Qed.

Lemma last_id_as_update (l : list Row) :
  last_id (map PgAdapter.as_update l) = last_id l.
Proof.
  unfold last_id.
  change (mkRow 0 EmptyString [] v1)
    with (PgAdapter.as_update (mkRow 0 EmptyString [] v1)) at 1.
  generalize (mkRow 0 EmptyString [] v1).
  induction l as [|x [|y l] IH]; intros dflt; try reflexivity.
  cbn [map last] in *. apply IH.
Qed.

Lemma In_firstn {A} (n : nat) (l : list A) (x : A) :
  In x (firstn n l) -> In x l.
Proof.
  intros H. rewrite <- (firstn_skipn n l). apply in_or_app. left. exact H.
Qed.

(** Each further query asks for ids above one more row, so the rows above
    the cursor bound the iterations left: with a callback that keeps to
    its own errors, the loop is never cut short, whichever round trips
    fail. *)
Lemma readAllUpdates_loop_fuel {S : Type} (callback : S -> list Row -> result S)
    (d : string) :
  (forall s page, callback s page <> Err OutOfFuel) ->
  forall (fuel : nat) (w : World) (c total : Z) (s : S),
    (length (filter (fun r => is_update d r && (c <? id r)%Z) (table (db w)))
     < fuel)%nat ->
    fst (PgAdapterPaged.readAllUpdates_loop fuel d callback c total s w)
    <> Err OutOfFuel.
Proof.
  intros Hcb. induction fuel as [|fuel IH]; intros w c total s Hf; [lia|].
  cbn [PgAdapterPaged.readAllUpdates_loop]. unfold bind at 1.
  destruct (query (SelectBatch d c PgAdapterPaged.BATCH_SIZE) w) as [r w1] eqn:Q.
  apply query_inv in Q as [[-> _] | [-> R]]; [discriminate|].
  pose proof (ran_db _ _ _ R) as D1. cbn [exec snd] in D1.
  set (F := filter (fun r => is_update d r && (c <? id r)) (table (db w))) in *.
  assert (Hres : forall y, In y (fst (exec (SelectBatch d c PgAdapterPaged.BATCH_SIZE)
                                        (db w))) -> In y F).
  { intros y Hy. cbn [exec fst] in Hy. unfold limit in Hy.
    apply In_firstn in Hy. apply (proj1 (order_by_id_In _ _)) in Hy. exact Hy. }
  destruct (fst (exec (SelectBatch d c PgAdapterPaged.BATCH_SIZE) (db w)))
    as [|x res]; [discriminate|].
  unfold bind, lift.
  destruct (callback s (map PgAdapter.as_update (x :: res))) as [s'|e] eqn:CB.
  2: { cbn [fst]. intros E. injection E as ->. eapply Hcb. exact CB. }
  destruct (Z.of_nat (length (map PgAdapter.as_update (x :: res)))
            <? PgAdapterPaged.BATCH_SIZE); [discriminate|].
  apply IH. rewrite D1.
  fold (last_id (map PgAdapter.as_update (x :: res))).
  rewrite last_id_as_update.
  assert (Hy : In (last (x :: res) (mkRow 0 EmptyString [] v1)) F).
  { apply Hres, last_In. discriminate. }
  fold (last_id (x :: res)) in Hy.
  set (c' := last_id (x :: res)) in *.
  pose proof Hy as Hy'. unfold F in Hy'. apply filter_In in Hy' as [_ Hy'].
  apply andb_true_iff in Hy' as [_ Hc]. apply Z.ltb_lt in Hc.
  rewrite (filter_stronger (fun r => is_update d r && (c <? id r))).
  - fold F.
    assert ((length (filter (fun r => is_update d r && (c' <? id r)%Z) F)
             < length F)%nat); [|lia].
    apply (filter_length_lt _ _ _ Hy).
    unfold c', last_id. rewrite Z.ltb_irrefl. apply andb_false_r.
  - intros r Hr. apply andb_true_iff in Hr as [U L]. rewrite U. cbn [andb].
    apply Z.ltb_lt in L. apply Z.ltb_lt. unfold c', last_id in *. lia.
Qed.

Lemma readAllUpdates_fuel (p : paging) {S : Type}
    (callback : S -> list Row -> result S) (d : string) (s : S) (w : World) :
  (forall s page, callback s page <> Err OutOfFuel) ->
  fst (readAllUpdates_of p S d callback s w) <> Err OutOfFuel.
Proof.
  intros Hcb. destruct p; cbn [readAllUpdates_of].
  - unfold single_query, PgAdapter.readAllUpdates, bind, lift.
    destruct (query (SelectAll d) w) as [r w1] eqn:Q.
    apply query_inv in Q as [[-> _] | [-> _]]; [discriminate|].
    destruct (callback s _) as [s'|e] eqn:CB; [discriminate|].
    cbn [fst]. intros E. injection E as ->. eapply Hcb. exact CB.
  - unfold keyset, PgAdapterPaged.readAllUpdates.
    apply readAllUpdates_loop_fuel; [exact Hcb|].
    pose proof (filter_length_le (fun r => is_update d r && (-1 <? id r))
                  (table (db w))). lia.
Qed.

(* ================================================================== *)
(** * Further properties: the rest of the adapter and of the service *)

(** ** deleteDocument *)

Lemma filter_filter_false {A} (f g : A -> bool) (l : list A) :
  (forall x, f x = true -> g x = false) ->
  filter f (filter (fun x => negb (g x)) l) = filter f l.
Proof.
  intros Hfg. induction l as [|x l IH]; cbn [filter]; [reflexivity|].
  destruct (g x) eqn:G; cbn [negb filter].
  - destruct (f x) eqn:F; [|exact IH].
    rewrite (Hfg x F) in G. discriminate.
  - destruct (f x); rewrite IH; reflexivity.
Qed.

Lemma filter_filter_none {A} (f g : A -> bool) (l : list A) :
  (forall x, f x = true -> g x = true) ->
  filter f (filter (fun x => negb (g x)) l) = [].
Proof.
  intros Hfg. induction l as [|x l IH]; cbn [filter]; [reflexivity|].
  destruct (g x) eqn:G; cbn [negb filter]; [exact IH|].
  destruct (f x) eqn:F; [|exact IH].
  rewrite (Hfg x F) in G. discriminate.
Qed.

Lemma rows_of_updates (d : string) (b : database) :
  filter (is_update d) (rows_of d b) = updates_of d b.
Proof.
  unfold rows_of, updates_of. induction (table b) as [|x l IH];
    cbn [filter]; [reflexivity|].
  unfold is_update at 2. destruct (String.eqb (docname x) d) eqn:E;
    cbn [filter andb].
  - unfold is_update at 1. rewrite E. cbn [andb].
    destruct (version_eqb (version x) v1); rewrite IH; reflexivity.
  - exact IH.
Qed.

Lemma rows_of_checkpoint (d : string) (b : database) :
  hd_error (filter (is_state_vector d) (rows_of d b)) = checkpoint_of d b.
Proof.
  unfold rows_of, checkpoint_of. f_equal.
  induction (table b) as [|x l IH]; cbn [filter]; [reflexivity|].
  unfold is_state_vector at 2. destruct (String.eqb (docname x) d) eqn:E;
    cbn [filter andb].
  - unfold is_state_vector at 1. rewrite E. cbn [andb].
    destruct (version_eqb (version x) v1_sv); rewrite IH; reflexivity.
  - exact IH.
Qed.

(** X1.  When [deleteDocument] returns, it returns the rows the document
    had, of both kinds and in the order of the table, and none of them is
    left; the rows of every other document are as they were, and the
    sequence is not set back.  To the service the document then looks as
    one never written: the latest id is -1 and [readStateVector] answers
    [{ sv: null, clock: -1 }]. *)
Theorem deleteDocument_forgets (d : string) (w : World) (rows : list Row)
    (w' : World) :
  PgAdapter.deleteDocument d w = (Ok rows, w') ->
  rows = rows_of d (db w) /\
  rows_of d (db w') = [] /\
  (forall d', d' <> d -> rows_of d' (db w') = rows_of d' (db w)) /\
  serial (db w') = serial (db w) /\
  (hd false (faults w') = false ->
   fst (getCurrentUpdateClock d w') = Ok (-1) /\
   fst (readStateVector d w') = Ok (None, -1)).
Proof.
  intros E. unfold PgAdapter.deleteDocument in E.
  apply query_inv in E as [[X _] | [X R]]; [discriminate|].
  injection X as X. cbn [exec fst] in X. fold (rows_of d (db w)) in X.
  pose proof (ran_db _ _ _ R) as D. cbn [exec snd] in D.
  assert (N : rows_of d (db w') = []).
  { rewrite D. unfold rows_of. cbn [table].
    apply (filter_filter_none (fun r => String.eqb (docname r) d)
             (fun r => String.eqb (docname r) d)). auto. }
  split; [exact X|]. split; [exact N|]. split; [|split].
  - intros d' Hd. rewrite D. unfold rows_of. cbn [table].
    apply (filter_filter_false (fun r => String.eqb (docname r) d')
             (fun r => String.eqb (docname r) d)).
    intros x Hx. apply String.eqb_eq in Hx. apply String.eqb_neq. congruence.
  - rewrite D. reflexivity.
  - intros F. split.
    + unfold getCurrentUpdateClock, PgAdapter.findLatestDocumentId.
      erewrite bind_ok by (apply query_after, F).
      cbn [fst exec]. fold (updates_of d (db w')).
      rewrite <- rows_of_updates, N. reflexivity.
    + unfold readStateVector, PgAdapter.getStateVectorBuffer,
        PgAdapter._getStateVector.
      erewrite bind_ok;
        [|erewrite bind_ok;
           [|erewrite bind_ok by (apply query_after, F); reflexivity];
          reflexivity].
      cbn [exec fst]. rewrite hd_error_limit_1.
      fold (checkpoint_of d (db w')).
      rewrite <- rows_of_checkpoint, N. reflexivity.
Qed.

Lemma deleteDocument_forgets_witness :
  rows_of "doc" (db (snd (PgAdapter.deleteDocument "doc" (world_of sample_db []))))
    = [] /\
  rows_of "other" (db (snd (PgAdapter.deleteDocument "doc" (world_of sample_db []))))
    = rows_of "other" sample_db.
Proof.
  destruct (deleteDocument_forgets "doc" (world_of sample_db [])
              (rows_of "doc" sample_db)
              (snd (PgAdapter.deleteDocument "doc" (world_of sample_db []))))
    as (_ & N & O & _).
  - vm_compute. reflexivity.
  - split; [exact N|]. apply O. discriminate.
Defined.

(** ** Documents side by side *)

Lemma rows_of_insert (d d' : string) (v : bytes) (ver : ypga_version)
    (b : database) :
  d' <> d ->
  rows_of d' (mkDb (table b ++ [mkRow (serial b) d v ver]) (serial b + 1)) =
  rows_of d' b.
Proof.
  intros N. unfold rows_of. cbn [table]. rewrite filter_app. cbn [filter docname].
  replace (String.eqb d d') with false
    by (symmetry; apply String.eqb_neq; congruence).
  apply app_nil_r.
Qed.

Lemma rows_of_put (d d' : string) (v : bytes) (b : database) :
  serial_key b -> d' <> d ->
  rows_of d' (snd (exec (put_stmt d v b) b)) = rows_of d' b.
Proof.
  intros K N. destruct (checkpoint_of d b) as [r0|] eqn:C.
  - rewrite (exec_put_update _ v _ _ C). unfold rows_of. cbn [table].
    rewrite filter_map_commute by (intros x; rewrite docname_set_value; reflexivity).
    apply checkpoint_of_Some in C as (Hin & Hd & _).
    apply map_set_value_filter; [assumption..|].
    apply String.eqb_neq. congruence.
  - rewrite (exec_put_insert _ v _ C). apply rows_of_insert, N.
Qed.

Lemma rows_of_delete_range (d d' : string) (from to : Z) (b : database) :
  d' <> d ->
  rows_of d' (snd (exec (DeleteRange d from to) b)) = rows_of d' b.
Proof.
  intros N. unfold rows_of. cbn [exec snd table].
  apply (filter_filter_false (fun r => String.eqb (docname r) d')
           (in_range d from to)).
  intros x Hx. apply String.eqb_eq in Hx. unfold in_range, is_update.
  replace (String.eqb (docname x) d) with false; [reflexivity|].
  symmetry. apply String.eqb_neq. congruence.
Qed.

Lemma rows_of_delete_document (d d' : string) (b : database) :
  d' <> d ->
  rows_of d' (snd (exec (DeleteDocument d) b)) = rows_of d' b.
Proof.
  intros N. unfold rows_of. cbn [exec snd table].
  apply (filter_filter_false (fun r => String.eqb (docname r) d')
           (fun r => String.eqb (docname r) d)).
  intros x Hx. apply String.eqb_eq in Hx. apply String.eqb_neq. congruence.
Qed.

Lemma untouched_refl (d' : string) (b : database) : untouched d' b b.
Proof. intros K. auto. Qed.

Lemma untouched_trans (d' : string) (b1 b2 b3 : database) :
  untouched d' b1 b2 -> untouched d' b2 b3 -> untouched d' b1 b3.
Proof.
  intros H12 H23 K. destruct (H12 K) as [K2 E2]. destruct (H23 K2) as [K3 E3].
  split; [exact K3 | congruence].
Qed.

Section Untouched.
Context `{Yjs}.
Variables d d' : string.
Hypothesis apart : d' <> d.

Ltac untouching :=
  repeat first
    [ solve [auto 2 with nocore]
    | apply (respects_ret (untouched d') (untouched_refl d'))
    | apply (respects_lift (untouched d') (untouched_refl d'))
    | apply (respects_bind (untouched d') (untouched_trans d')); [| intros ?]
    | apply respects_if
    | apply (respects_fire_and_forget (untouched d') (untouched_trans d'))
    | apply (respects_scan (untouched d') (untouched_refl d') (untouched_trans d'))
    | apply (respects_query (untouched d') (untouched_refl d')); intros ?;
      cbn [exec snd]; try apply untouched_refl ].

Lemma insertUpdate_untouched v :
  respects (untouched d') (PgAdapter.insertUpdate d v).
Proof.
  unfold PgAdapter.insertUpdate. untouching. intros K.
  split; [apply serial_key_insert, K | apply rows_of_insert, apart].
Qed.

Lemma putStateVector_untouched v :
  respects (untouched d') (PgAdapter.putStateVector d v).
Proof.
  intros w r w' E K. apply putStateVector_outcome in E as [[_ ->] | [_ ->]].
  - auto.
  - split; [apply serial_key_put, K | apply rows_of_put; assumption].
Qed.

Lemma clearUpdatesRange_untouched from to :
  respects (untouched d') (PgAdapter.clearUpdatesRange d from to).
Proof.
  unfold PgAdapter.clearUpdatesRange. untouching. intros K.
  split; [apply serial_key_filter, K | apply rows_of_delete_range, apart].
Qed.

Lemma deleteDocument_untouched :
  respects (untouched d') (PgAdapter.deleteDocument d).
Proof.
  unfold PgAdapter.deleteDocument. untouching. intros K.
  split; [apply serial_key_filter, K | apply rows_of_delete_document, apart].
Qed.

Lemma sync_storeUpdate_untouched u :
  respects (untouched d') (Sync.storeUpdate d u).
Proof.
  pose proof insertUpdate_untouched. pose proof putStateVector_untouched.
  unfold Sync.storeUpdate, getCurrentUpdateClock, writeInitialStateVector,
    writeStateVector, PgAdapter.findLatestDocumentId.
  untouching; auto.
Qed.

Lemma async_storeUpdate_untouched u :
  respects (untouched d') (Async.storeUpdate d u).
Proof.
  pose proof insertUpdate_untouched. pose proof putStateVector_untouched.
  unfold Async.storeUpdate, getCurrentUpdateClock, writeInitialStateVector,
    writeStateVector, PgAdapter.findLatestDocumentId.
  untouching; auto.
Qed.

Lemma flushDocument_with_untouched store su sv :
  (forall u, respects (untouched d') (store d u)) ->
  respects (untouched d') (flushDocument_with store d su sv).
Proof.
  intros Hs. pose proof putStateVector_untouched.
  pose proof clearUpdatesRange_untouched.
  unfold flushDocument_with, writeStateVector. untouching; auto.
Qed.

Lemma run_untouched rev p o :
  docName_of o = d -> respects (untouched d') (run rev p o).
Proof.
  intros Ho. pose proof sync_storeUpdate_untouched.
  pose proof async_storeUpdate_untouched.
  pose proof deleteDocument_untouched.
  pose proof (fun su sv =>
    flushDocument_with_untouched Sync.storeUpdate su sv sync_storeUpdate_untouched).
  pose proof (fun su sv =>
    flushDocument_with_untouched Async.storeUpdate su sv async_storeUpdate_untouched).
  destruct o, rev; cbn [docName_of] in Ho; subst docName; cbn [run];
    unfold Sync.getYDocFromDb, Async.getYDocFromDb,
      Sync.flushDocument, Async.flushDocument;
    untouching; auto.
Qed.

End Untouched.

(** X2.  Documents do not interfere.  On a table keyed by the sequence,
    whatever is done to other documents (updates stored, documents
    loaded, compacted or deleted, in either revision, with either
    [readAllUpdates], whichever round trips fail), the rows of a document
    that no operation names stay exactly as they were: its updates and
    its state-vector row, with their ids, values and order. *)
Theorem documents_independent `{Yjs} (rev : revision) (p : paging)
    (os : list operation) (w : World) (d' : string) :
  serial_key (db w) ->
  Forall (fun o => docName_of o <> d') os ->
  rows_of d' (db (steps rev p os w)) = rows_of d' (db w) /\
  updates_of d' (db (steps rev p os w)) = updates_of d' (db w) /\
  checkpoint_of d' (db (steps rev p os w)) = checkpoint_of d' (db w).
Proof.
  intros K Hos.
  assert (X : serial_key (db (steps rev p os w)) /\
              rows_of d' (db (steps rev p os w)) = rows_of d' (db w)).
  { revert w K. induction Hos as [|o os Ho Hos IH]; intros w K;
      cbn [steps fold_left]; [auto|].
    destruct (run rev p o w) as [r w1] eqn:E.
    replace (step rev p w o) with w1 by (unfold step; rewrite E; reflexivity).
    fold (steps rev p os w1).
    assert (U : untouched d' (db w) (db w1)).
    { apply (run_untouched (docName_of o) d' (not_eq_sym Ho) rev p o eq_refl
               w r w1 E). }
    destruct (U K) as [K1 E1]. destruct (IH w1 K1) as [K2 E2].
    split; [exact K2 | rewrite <- E1; exact E2]. }
  destruct X as [_ X]. split; [exact X|].
  rewrite <- !rows_of_updates, <- !rows_of_checkpoint, X. auto.
Qed.

Lemma documents_independent_witness :
  rows_of "other"
    (db (steps FireAndForget Keyset
           [RecordUpdate "doc" [x0a]; LoadDocument "doc" 0; DeleteDoc "doc"]
           (world_of sample_db [false; true]))) =
  rows_of "other" sample_db.
Proof.
  destruct (@documents_independent LogDoc FireAndForget Keyset
              [RecordUpdate "doc" [x0a]; LoadDocument "doc" 0; DeleteDoc "doc"]
              (world_of sample_db [false; true]) "other")
    as (R & _).
  - apply serial_key_sample.
  - repeat constructor; discriminate.
  - exact R.
Defined.

(** ** decodeStateVectorBuffer reads a prefix *)

Section Prefix.
Import Lib0.

Lemma readVarUint_loop_more (junk : bytes) : forall rest num mult p n q,
  readVarUint_loop rest num mult p = Ok (n, q) ->
  readVarUint_loop (rest ++ junk) num mult p = Ok (n, q) /\
  (q <= p + length rest)%nat.
Proof.
  induction rest as [|b rest IH]; intros num mult p n q E;
    cbn [readVarUint_loop app] in *; [discriminate|].
  destruct (Z_of_byte b <? BIT8).
  - injection E as <- <-. split; [reflexivity | cbn [length]; lia].
  - destruct (num + Z.land (Z_of_byte b) BITS7 * mult >? MAX_SAFE_INTEGER);
      [discriminate|].
    apply IH in E as [E L]. split; [exact E | cbn [length]; lia].
Qed.

Lemma skipn_more {A} (n : nat) (l junk : list A) :
  (n <= length l)%nat -> skipn n (l ++ junk) = skipn n l ++ junk.
Proof.
  intros L. rewrite skipn_app.
  replace (n - length l)%nat with 0%nat by lia. reflexivity.
Qed.

Lemma readVarUint_more (junk : bytes) (a : bytes) (p : nat) n (d' : decoder) :
  (p <= length a)%nat ->
  readVarUint (mkDecoder a p) = Ok (n, d') ->
  readVarUint (mkDecoder (a ++ junk) p) = Ok (n, mkDecoder (a ++ junk) (pos d')) /\
  arr d' = a /\ (pos d' <= length a)%nat.
Proof.
  intros L E. unfold readVarUint in *. cbn [arr pos] in *.
  destruct (readVarUint_loop (skipn p a) 0 1 p) as [[m q]|e] eqn:R;
    [|discriminate].
  injection E as <- <-. cbn [arr pos].
  apply (readVarUint_loop_more junk) in R as [R Q].
  rewrite skipn_more, R by exact L.
  rewrite length_skipn in Q. split; [reflexivity|]. split; [reflexivity | lia].
Qed.

Lemma readUint8Array_more (junk : bytes) (a : bytes) (p : nat) (len : Z)
    (sv : bytes) (d' : decoder) :
  (p <= length a)%nat ->
  readUint8Array (mkDecoder a p) len = Ok (sv, d') ->
  exists d2, readUint8Array (mkDecoder (a ++ junk) p) len = Ok (sv, d2).
Proof.
  intros L E. unfold readUint8Array in *. cbn [arr pos] in *.
  destruct ((0 <=? len) && (len <=? Z.of_nat (length (skipn p a)))) eqn:B;
    [|discriminate].
  injection E as <- _. apply andb_true_iff in B as [B0 B1].
  apply Z.leb_le in B1. rewrite skipn_more by exact L.
  rewrite B0, length_app.
  replace (len <=? Z.of_nat (length (skipn p a) + length junk)) with true
    by (symmetry; apply Z.leb_le; lia).
  cbn [andb]. eexists. rewrite firstn_app.
  replace (Z.to_nat len - length (skipn p a))%nat with 0%nat
    by (apply Z.leb_le in B0; lia).
  cbn [firstn]. rewrite app_nil_r. reflexivity.
Qed.

End Prefix.

(** X3.  [decodeStateVectorBuffer] reads a prefix of the buffer and does
    not look at what follows: whatever it decodes from a buffer it
    decodes from that buffer followed by any bytes.  So a payload of
    [writeStateVector] (safe clock and length) with trailing bytes still
    decodes to the state vector and the clock written.  It makes no
    difference whether the argument is a [Buffer] or holds one, and an
    argument that is neither is refused with the function's own error. *)
Theorem decodeStateVectorBuffer_prefix (b junk sv : bytes) (clock : Z) :
  decodeStateVectorBuffer (IsBuffer b) = Ok (sv, clock) ->
  decodeStateVectorBuffer (IsBuffer (b ++ junk)) = Ok (sv, clock) /\
  decodeStateVectorBuffer (HoldsBuffer (b ++ junk)) = Ok (sv, clock) /\
  (forall sv' clock',
     0 <= clock' <= Lib0.MAX_SAFE_INTEGER ->
     Z.of_nat (length sv') <= Lib0.MAX_SAFE_INTEGER ->
     decodeStateVectorBuffer
       (IsBuffer (encodeStateVectorBuffer sv' clock' ++ junk)) = Ok (sv', clock')) /\
  decodeStateVectorBuffer NoBuffer = Err NoBufferProvided.
Proof.
  assert (P : forall b sv clock,
            decodeStateVectorBuffer (IsBuffer b) = Ok (sv, clock) ->
            decodeStateVectorBuffer (IsBuffer (b ++ junk)) = Ok (sv, clock)).
  { clear. intros b sv clock E.
    unfold decodeStateVectorBuffer, Lib0.createDecoder in *.
    destruct (Lib0.readVarUint (Lib0.mkDecoder b 0)) as [[c d1]|e] eqn:R1;
      [|discriminate].
    destruct d1 as [a1 p1].
    apply (readVarUint_more junk) in R1 as (R1 & A1 & P1); [|lia].
    cbn [Lib0.arr Lib0.pos] in *. subst a1. rewrite R1.
    unfold Lib0.readVarUint8Array in *.
    destruct (Lib0.readVarUint (Lib0.mkDecoder b p1)) as [[len d2]|e] eqn:R2;
      [|discriminate].
    destruct d2 as [a2 p2].
    apply (readVarUint_more junk) in R2 as (R2 & A2 & P2); [|exact P1].
    cbn [Lib0.arr Lib0.pos] in *. subst a2. rewrite R2.
    destruct (Lib0.readUint8Array (Lib0.mkDecoder b p2) len) as [[s d3]|e] eqn:R3;
      [|discriminate].
    injection E as <- <-.
    destruct (readUint8Array_more junk _ _ _ _ _ P2 R3) as [d4 R4].
    rewrite R4. reflexivity. }
  intros E. split; [apply P, E|]. split; [apply P, E|]. split; [|reflexivity].
  intros sv' clock' Hc Hl. apply P, decode_encode; assumption.
Qed.

Lemma decodeStateVectorBuffer_prefix_witness :
  decodeStateVectorBuffer
    (IsBuffer (encodeStateVectorBuffer [x01; x02] 300 ++ [xff; x00])) =
  Ok ([x01; x02], 300).
Proof.
  destruct (decodeStateVectorBuffer_prefix
              (encodeStateVectorBuffer [x01; x02] 300) [xff; x00] [x01; x02] 300)
    as (P & _).
  - vm_compute. reflexivity.
  - exact P.
Defined.

(** ** Calls that throw *)

Lemma same_updates_refl (b : database) : same_updates b b.
Proof. intros K. auto. Qed.

Lemma same_updates_trans (b1 b2 b3 : database) :
  same_updates b1 b2 -> same_updates b2 b3 -> same_updates b1 b3.
Proof.
  intros H12 H23 K. destruct (H12 K) as [K2 E2]. destruct (H23 K2) as [K3 E3].
  split; [exact K3|]. intros d. rewrite E3. apply E2.
Qed.

Lemma same_updates_eq (b b' : database) : b' = b -> same_updates b b'.
Proof. intros ->. apply same_updates_refl. Qed.

Lemma findLatestDocumentId_same_updates (d : string) :
  respects same_updates (PgAdapter.findLatestDocumentId d).
Proof.
  intros w r w' E. apply findLatestDocumentId_outcome in E as [E _].
  apply same_updates_eq, E.
Qed.

Lemma putStateVector_same_updates (d : string) (v : bytes) :
  respects same_updates (PgAdapter.putStateVector d v).
Proof.
  intros w r w' E. apply putStateVector_outcome in E as [[_ ->] | [_ ->]].
  - apply same_updates_refl.
  - intros K. split; [apply serial_key_put, K|].
    intros d'. apply updates_of_put, K.
Qed.

Lemma writeInitialStateVector_same_updates `{Yjs} (d : string) (u : bytes) :
  respects same_updates (writeInitialStateVector d u).
Proof.
  unfold writeInitialStateVector, writeStateVector.
  apply (respects_bind same_updates same_updates_trans);
    [apply (respects_lift same_updates same_updates_refl)|].
  intros ydoc. apply (respects_bind same_updates same_updates_trans);
    [apply putStateVector_same_updates|].
  intros _. apply (respects_ret same_updates same_updates_refl).
Qed.

(** The row [insertUpdate] returns has an id. *)
Lemma insertUpdate_id (d : string) (u : bytes) (w : World) storedDoc w1 e w' :
  PgAdapter.insertUpdate d u w = (Ok storedDoc, w1) ->
  lift (id_of storedDoc) w1 = (Err e, w') -> False.
Proof.
  intros E L. apply insertUpdate_outcome in E as [[E _] | [E _]];
    [discriminate|].
  injection E as ->. discriminate.
Qed.

Lemma storeUpdate_throws `{Yjs} (rev : revision) (d : string) (u : bytes)
    (w : World) (e : error) (w' : World) :
  storeUpdate_of rev d u w = (Err e, w') ->
  same_updates (db w) (db w').
Proof.
  intros E. destruct rev; cbn [storeUpdate_of] in E.
  - unfold Sync.storeUpdate, getCurrentUpdateClock in E.
    apply bind_inv in E as [(c & w1 & E1 & E) | (e1 & E1 & _)];
      [|eapply findLatestDocumentId_same_updates; exact E1].
    eapply same_updates_trans;
      [eapply findLatestDocumentId_same_updates; exact E1|].
    apply bind_inv in E as [(x & w2 & E2 & E) | (e2 & E2 & _)].
    + assert (S2 : same_updates (db w1) (db w2)).
      { destruct (c =? -1).
        - eapply writeInitialStateVector_same_updates; exact E2.
        - apply ret_inv in E2 as [_ ->]. apply same_updates_refl. }
      eapply same_updates_trans; [exact S2|].
      apply bind_inv in E as [(row & w3 & E3 & E) | (e3 & E3 & _)].
      * exfalso. eapply insertUpdate_id; eassumption.
      * apply insertUpdate_outcome in E3 as [[_ D] | [X _]]; [|discriminate].
        apply same_updates_eq, D.
    + destruct (c =? -1).
      * eapply writeInitialStateVector_same_updates; exact E2.
      * apply ret_inv in E2 as [X _]. discriminate.
  - unfold Async.storeUpdate, getCurrentUpdateClock in E.
    apply bind_inv in E as [(c & w1 & E1 & E) | (e1 & E1 & _)];
      [|eapply findLatestDocumentId_same_updates; exact E1].
    eapply same_updates_trans;
      [eapply findLatestDocumentId_same_updates; exact E1|].
    apply bind_inv in E as [(row & w3 & E3 & E) | (e3 & E3 & _)].
    + exfalso. destruct (c =? -1).
      * apply fire_and_forget_inv in E3 as (w2 & E3 & _).
        eapply insertUpdate_id; [exact E3|].
        unfold lift in *. injection E as E _. rewrite E. reflexivity.
      * eapply insertUpdate_id; eassumption.
    + destruct (c =? -1).
      * apply fire_and_forget_inv in E3 as (w2 & E3 & E4).
        apply insertUpdate_outcome in E3 as [[_ D] | [X _]]; [|discriminate].
        eapply same_updates_trans; [apply same_updates_eq, D|].
        eapply (respects_catch_log same_updates); [|exact E4].
        apply writeInitialStateVector_same_updates.
      * apply insertUpdate_outcome in E3 as [[_ D] | [X _]]; [|discriminate].
        apply same_updates_eq, D.
Qed.

(** X4.  [storeUpdate] stores all or nothing.  On a table keyed by the
    sequence, in either revision and whichever round trips fail: when it
    returns an id, the updates in the table are the earlier ones and, last
    of its document, the one update under that id; when it throws, the
    updates of every document are the ones there were. *)
Theorem storeUpdate_all_or_nothing `{Yjs} (rev : revision) (d : string)
    (u : bytes) (w : World) (r : result Z) (w' : World) :
  storeUpdate_of rev d u w = (r, w') ->
  serial_key (db w) ->
  serial_key (db w') /\
  forall d',
    updates_of d' (db w') =
    updates_of d' (db w) ++
    match r with
    | Ok i => if String.eqb d d' then [mkRow i d u v1] else []
    | Err _ => []
    end.
Proof.
  intros E K. destruct r as [i|e].
  - destruct (storeUpdate_success _ _ _ _ _ _ E K) as (K' & _ & U & _).
    split; [exact K' | exact U].
  - destruct (storeUpdate_throws _ _ _ _ _ _ E K) as [K' U].
    split; [exact K'|]. intros d'. rewrite app_nil_r. apply U.
Qed.

Lemma storeUpdate_all_or_nothing_witness :
  updates_of "doc"
    (db (snd (@Sync.storeUpdate LogDoc "doc" [x0c]
                (world_of sample_db [false; true])))) =
  updates_of "doc" sample_db.
Proof.
  destruct (@storeUpdate_all_or_nothing LogDoc Synchronous "doc" [x0c]
              (world_of sample_db [false; true])
              (Err StorageUnavailable)
              (snd (@Sync.storeUpdate LogDoc "doc" [x0c]
                      (world_of sample_db [false; true]))))
    as (_ & U).
  - vm_compute. reflexivity.
  - apply serial_key_sample.
  - rewrite (U "doc"%string). apply app_nil_r.
Defined.

(** X5.  A [flushDocument] that throws has deleted nothing.  On a table
    keyed by the sequence, in either revision and whichever round trip
    made it fail: the updates of every other document are as they were,
    and those of the document are the ones there were, followed by the
    full-state update if the failure came after it was stored. *)
Theorem flushDocument_failure_keeps_log `{Yjs} (rev : revision) (d : string)
    (su sv : bytes) (w : World) (e : error) (w' : World) :
  flushDocument_of rev d su sv w = (Err e, w') ->
  serial_key (db w) ->
  (forall d', d' <> d -> updates_of d' (db w') = updates_of d' (db w)) /\
  (updates_of d (db w') = updates_of d (db w) \/
   exists hw, serial (db w) <= hw /\
     updates_of d (db w') = updates_of d (db w) ++ [mkRow hw d su v1]).
Proof.
  intros E K. rewrite flushDocument_of_with in E. unfold flushDocument_with in E.
  apply bind_inv in E as [(hw & w1 & E1 & E) | (e1 & E1 & _)].
  - destruct (storeUpdate_success _ _ _ _ _ _ E1 K) as (K1 & S1 & U1 & _).
    assert (X : same_updates (db w1) (db w')).
    { apply bind_inv in E as [(row & w2 & E2 & E) | (e2 & E2 & _)];
        [|eapply putStateVector_same_updates; exact E2].
      eapply same_updates_trans;
        [eapply putStateVector_same_updates; exact E2|].
      apply bind_inv in E as [(x & w3 & E3 & E) | (e3 & E3 & _)].
      - apply ret_inv in E as [E _]. discriminate.
      - apply clearUpdatesRange_outcome in E3 as [[_ D] | [X _]];
          [|discriminate].
        apply same_updates_eq, D. }
    destruct (X K1) as [_ U]. split.
    + intros d' N. rewrite U, U1.
      replace (String.eqb d d') with false
        by (symmetry; apply String.eqb_neq; congruence).
      apply app_nil_r.
    + right. exists hw. split; [exact S1|].
      rewrite U, U1, String.eqb_refl. reflexivity.
  - destruct (storeUpdate_throws _ _ _ _ _ _ E1 K) as [_ U]. split.
    + intros d' _. apply U.
    + left. apply U.
Qed.

Lemma flushDocument_failure_keeps_log_witness :
  updates_of "doc"
    (db (snd (@Sync.flushDocument LogDoc "doc" [x01; x0a; x0b] [x02]
                (world_of sample_db [false; false; false; false; true])))) =
  updates_of "doc" sample_db \/
  exists hw, serial sample_db <= hw /\
    updates_of "doc"
      (db (snd (@Sync.flushDocument LogDoc "doc" [x01; x0a; x0b] [x02]
                  (world_of sample_db [false; false; false; false; true])))) =
    updates_of "doc" sample_db ++ [mkRow hw "doc" [x01; x0a; x0b] v1].
Proof.
  destruct (@flushDocument_failure_keeps_log LogDoc Synchronous "doc"
              [x01; x0a; x0b] [x02]
              (world_of sample_db [false; false; false; false; true])
              StorageUnavailable
              (snd (@Sync.flushDocument LogDoc "doc" [x01; x0a; x0b] [x02]
                      (world_of sample_db [false; false; false; false; true]))))
    as (_ & U).
  - vm_compute. reflexivity.
  - apply serial_key_sample.
  - exact U.
Defined.

(** ** A first update that Yjs refuses *)

(** X6.  The two revisions part on a first update that [Y.applyUpdate]
    refuses.  With no round trip failing and no update of the document in
    the table: the synchronous [storeUpdate] throws the error of
    [Y.applyUpdate] after its one lookup and writes nothing; the
    fire-and-forget one stores the update, returns its id, and leaves the
    error on the console, the document being left without the
    state-vector row the promise was to write. *)
Theorem storeUpdate_refused_update `{Yjs} (d : string) (u : bytes) (w : World) :
  faults w = [] -> updates_of d (db w) = [] -> applyUpdate newDoc u = None ->
  Sync.storeUpdate d u w = (Err InvalidUpdate, after (SelectLatest d) w) /\
  db (after (SelectLatest d) w) = db w /\
  exists w',
    Async.storeUpdate d u w = (Ok (serial (db w)), w') /\
    db w' = snd (exec (InsertUpdate d u) (db w)) /\
    journal w' = journal w ++ [SelectLatest d; InsertUpdate d u] /\
    console w' = console w ++ [(Async.init_failed, InvalidUpdate)].
Proof.
  intros F U A.
  assert (L : getCurrentUpdateClock d w = (Ok (-1), after (SelectLatest d) w)).
  { unfold getCurrentUpdateClock. rewrite (findLatestDocumentId_calm d w F).
    cbn [exec fst]. fold (updates_of d (db w)). rewrite U. reflexivity. }
  assert (W : writeInitialStateVector d u =
              fun x => (Err InvalidUpdate, x)).
  { unfold writeInitialStateVector, Y_applyUpdate. rewrite A. reflexivity. }
  split; [|split; [reflexivity|]].
  - unfold Sync.storeUpdate. erewrite bind_ok by exact L.
    cbn [Z.eqb Pos.eqb]. rewrite W. reflexivity.
  - eexists. split; [|split; [|split]].
    + unfold Async.storeUpdate. erewrite bind_ok by exact L.
      cbn [Z.eqb Pos.eqb]. unfold fire_and_forget, bind at 1.
      rewrite (insertUpdate_calm d u (after (SelectLatest d) w))
        by (apply faults_after, F).
      unfold catch_log. rewrite W. cbn [id_of lift id]. unfold lift.
      reflexivity.
    + reflexivity.
    + cbn [journal after]. rewrite <- app_assoc. reflexivity.
    + reflexivity.
Qed.

Lemma storeUpdate_refused_update_witness :
  @Sync.storeUpdate LogDoc "doc" [] (world_of empty_db []) =
  (Err InvalidUpdate, after (SelectLatest "doc") (world_of empty_db [])).
Proof.
  destruct (@storeUpdate_refused_update LogDoc "doc" [] (world_of empty_db []))
    as (S & _).
  - reflexivity.
  - reflexivity.
  - reflexivity.
  - exact S.
Defined.

(** ** Loading: the scan with any callback *)

Lemma keyset_loop_visit {S : Type} (d : string) :
  forall fuel c total acc w n ps w',
    PgAdapterPaged.readAllUpdates_loop fuel d collect c total acc w =
      (Ok (n, ps), w') ->
    exists pages,
      ps = acc ++ pages /\
      forall (cb : S -> list Row -> result S) s s',
        visit cb pages s = Ok s' ->
        PgAdapterPaged.readAllUpdates_loop fuel d cb c total s w =
          (Ok (n, s'), w').
Proof.
  induction fuel as [|fuel IH]; intros c total acc w n ps w' E;
    cbn [PgAdapterPaged.readAllUpdates_loop] in E; [discriminate|].
  apply bind_ok_inv in E as (res & w1 & Q & E). destruct res as [|x res].
  - apply ret_inv in E as [E ->].
    assert (X : n = total /\ ps = acc) by (split; congruence).
    destruct X as [-> ->]. clear E.
    exists []. split; [symmetry; apply app_nil_r|].
    intros cb s s' V. cbn [visit] in V. injection V as <-.
    cbn [PgAdapterPaged.readAllUpdates_loop].
    erewrite bind_ok by exact Q. reflexivity.
  - remember (map PgAdapter.as_update (x :: res)) as rows eqn:HR.
    apply bind_ok_inv in E as (acc' & w2 & L & E).
    apply lift_inv in L as [L ->].
    assert (A : acc' = acc ++ [rows]) by (unfold collect in L; congruence).
    subst acc'. clear L.
    destruct (Z.of_nat (length rows) <? PgAdapterPaged.BATCH_SIZE) eqn:B.
    + apply ret_inv in E as [E ->].
      assert (X : n = total + Z.of_nat (length rows) /\ ps = acc ++ [rows])
        by (split; congruence).
      destruct X as [-> ->]. clear E.
      exists [rows]. split; [reflexivity|].
      intros cb s s' V. cbn [visit] in V.
      destruct (cb s rows) as [s1|e] eqn:C; [|discriminate].
      injection V as <-. cbn [PgAdapterPaged.readAllUpdates_loop].
      erewrite bind_ok by exact Q. rewrite <- HR.
      erewrite bind_ok by (unfold lift; rewrite C; reflexivity).
      rewrite B. reflexivity.
    + apply IH in E as (pages & -> & X).
      exists (rows :: pages).
      split; [rewrite <- app_assoc; reflexivity|].
      intros cb s s' V. cbn [visit] in V.
      destruct (cb s rows) as [s1|e] eqn:C; [|discriminate].
      cbn [PgAdapterPaged.readAllUpdates_loop].
      erewrite bind_ok by exact Q. rewrite <- HR.
      erewrite bind_ok by (unfold lift; rewrite C; reflexivity).
      rewrite B. apply X, V.
Qed.

(** What a scan does with a callback is read off the pages it hands
    over: if the callback accepts them all, the scan returns its last
    state, with the same count and the same queries. *)
Lemma scan_visit (p : paging) {S : Type} (d : string) (w : World) n pages w'
    (cb : S -> list Row -> result S) (s s' : S) :
  readAllUpdates_of p _ d collect [] w = (Ok (n, pages), w') ->
  visit cb pages s = Ok s' ->
  readAllUpdates_of p S d cb s w = (Ok (n, s'), w').
Proof.
  intros E V. destruct p; cbn [readAllUpdates_of] in *.
  - unfold single_query, PgAdapter.readAllUpdates in *.
    apply bind_ok_inv in E as (res & w1 & Q & E).
    apply bind_ok_inv in E as (acc' & w2 & L & E).
    apply lift_inv in L as [L ->].
    assert (A : acc' = [] ++ [map PgAdapter.as_update res])
      by (unfold collect in L; congruence).
    subst acc'. clear L.
    apply ret_inv in E as [E ->].
    assert (X : n = Z.of_nat (length (map PgAdapter.as_update res)) /\
                pages = [] ++ [map PgAdapter.as_update res])
      by (split; congruence).
    destruct X as [-> ->]. clear E.
    cbn [app visit] in V.
    destruct (cb s (map PgAdapter.as_update res)) as [s1|e] eqn:C;
      [|discriminate].
    injection V as <-.
    erewrite bind_ok by exact Q.
    erewrite bind_ok by (unfold lift; rewrite C; reflexivity).
    reflexivity.
  - unfold keyset, PgAdapterPaged.readAllUpdates in *.
    apply (keyset_loop_visit (S := S)) in E as (pages' & E & X).
    cbn [app] in E. subst pages'. apply X, V.
Qed.

(** Only after a page of 1000 rows does the loop ask for another. *)
Lemma keyset_loop_full (d : string) :
  forall fuel c total acc w n ps w',
    PgAdapterPaged.readAllUpdates_loop fuel d collect c total acc w =
      (Ok (n, ps), w') ->
    exists fulls rest,
      ps = acc ++ fulls ++ rest /\
      Forall (fun pg => (Z.of_nat (length pg) <? PgAdapterPaged.BATCH_SIZE)
                        = false) fulls /\
      (rest = [] \/
       exists pg, rest = [pg] /\
         (Z.of_nat (length pg) <? PgAdapterPaged.BATCH_SIZE) = true) /\
      exists j,
        journal w' = journal w ++ j /\ length j = S (length fulls).
Proof.
  induction fuel as [|fuel IH]; intros c total acc w n ps w' E;
    cbn [PgAdapterPaged.readAllUpdates_loop] in E; [discriminate|].
  apply bind_ok_inv in E as (res & w1 & Q & E).
  apply query_inv in Q as [[X _] | [X R]]; [discriminate|].
  assert (J1 : journal w1 =
               journal w ++ [SelectBatch d c PgAdapterPaged.BATCH_SIZE])
    by apply R.
  clear X R. destruct res as [|x res].
  - apply ret_inv in E as [E ->].
    assert (X : ps = acc) by congruence. subst ps.
    exists [], []. cbn [app length]. rewrite app_nil_r.
    split; [reflexivity|]. split; [constructor|]. split; [left; reflexivity|].
    eexists. split; [exact J1 | reflexivity].
  - remember (map PgAdapter.as_update (x :: res)) as rows eqn:HR.
    apply bind_ok_inv in E as (acc' & w2 & L & E).
    apply lift_inv in L as [L ->].
    assert (A : acc' = acc ++ [rows]) by (unfold collect in L; congruence).
    subst acc'. clear L.
    destruct (Z.of_nat (length rows) <? PgAdapterPaged.BATCH_SIZE) eqn:B.
    + apply ret_inv in E as [E ->].
      assert (X : ps = acc ++ [rows]) by congruence. subst ps.
      exists [], [rows]. cbn [app length].
      split; [reflexivity|]. split; [constructor|].
      split; [right; exists rows; auto|].
      eexists. split; [exact J1 | reflexivity].
    + apply IH in E as (fulls & rest & -> & Ff & Hr & j & J & Lj).
      exists (rows :: fulls), rest.
      split; [rewrite <- app_assoc; reflexivity|].
      split; [constructor; assumption|]. split; [exact Hr|].
      exists (SelectBatch d c PgAdapterPaged.BATCH_SIZE :: j).
      split; [rewrite J, J1, <- app_assoc; reflexivity|].
      cbn [length]. rewrite Lj. reflexivity.
Qed.

Lemma length_concat_full (fulls : list (list Row)) :
  Forall (fun pg => Z.of_nat (length pg) = 1000) fulls ->
  Z.of_nat (length (concat fulls)) = 1000 * Z.of_nat (length fulls).
Proof.
  induction 1 as [|pg fulls Hp _ IH]; cbn [concat length]; [reflexivity|].
  rewrite length_app. lia.
Qed.

(** The pages of a keyset scan: as many as thousands of rows, begun
    ones included. *)
Lemma page_count (fulls rest : list (list Row)) :
  Forall (fun pg => pg <> [] /\
                    Z.of_nat (length pg) <= PgAdapterPaged.BATCH_SIZE)
         (fulls ++ rest) ->
  Forall (fun pg => (Z.of_nat (length pg) <? PgAdapterPaged.BATCH_SIZE)
                    = false) fulls ->
  (rest = [] \/
   exists pg, rest = [pg] /\
     (Z.of_nat (length pg) <? PgAdapterPaged.BATCH_SIZE) = true) ->
  Z.of_nat (length (concat (fulls ++ rest))) =
    1000 * Z.of_nat (length fulls) + Z.of_nat (length (concat rest)) /\
  Z.of_nat (length (fulls ++ rest)) =
    (Z.of_nat (length (concat (fulls ++ rest))) + 999) / 1000.
Proof.
  intros Fp Ff Hr. apply Forall_app in Fp as [Fp1 Fp2].
  assert (Fe : Forall (fun pg => Z.of_nat (length pg) = 1000) fulls).
  { rewrite Forall_forall in *. intros pg Hpg.
    specialize (Ff pg Hpg). specialize (Fp1 pg Hpg). cbn beta in *.
    apply Z.ltb_ge in Ff. unfold PgAdapterPaged.BATCH_SIZE in *. lia. }
  assert (N : Z.of_nat (length (concat (fulls ++ rest))) =
              1000 * Z.of_nat (length fulls) + Z.of_nat (length (concat rest))).
  { rewrite concat_app, length_app, Nat2Z.inj_add, (length_concat_full _ Fe).
    reflexivity. }
  split; [exact N|]. rewrite N, length_app, Nat2Z.inj_add.
  destruct Hr as [-> | (pg & -> & Hs)].
  - cbn [concat length].
    replace (1000 * Z.of_nat (length fulls) + Z.of_nat 0 + 999)
      with (999 + Z.of_nat (length fulls) * 1000) by lia.
    rewrite Z.div_add by lia. rewrite Z.div_small by lia. lia.
  - cbn [concat length]. rewrite app_nil_r. apply Z.ltb_lt in Hs.
    inversion Fp2 as [|? ? [Ne _] _]; subst.
    assert (0 < Z.of_nat (length pg)).
    { destruct pg; [contradiction | cbn [length]; lia]. }
    unfold PgAdapterPaged.BATCH_SIZE in Hs.
    replace (1000 * Z.of_nat (length fulls) + Z.of_nat (length pg) + 999)
      with (Z.of_nat (length pg) - 1 + (Z.of_nat (length fulls) + 1) * 1000)
      by lia.
    rewrite Z.div_add by lia. rewrite Z.div_small by lia. lia.
Qed.

(** The pages of a scan in which no round trip fails. *)
Lemma scan_pages (p : paging) (d : string) (w : World) :
  faults w = [] -> serial_key (db w) ->
  exists pages w',
    readAllUpdates_of p _ d collect [] w =
      (Ok (Z.of_nat (length (updates_of d (db w))), pages), w') /\
    faults w' = [] /\ db w' = db w /\ console w' = console w /\
    concat pages = order_by_id (updates_of d (db w)) /\
    (p = SingleQuery -> pages = [order_by_id (updates_of d (db w))]) /\
    (p = Keyset ->
     Forall (fun pg => pg <> [] /\
                       Z.of_nat (length pg) <= PgAdapterPaged.BATCH_SIZE) pages /\
     Z.of_nat (length pages) =
       (Z.of_nat (length (updates_of d (db w))) + 999) / 1000).
Proof.
  intros F K. destruct (sorted_updates d (db w) K) as (Pm & St & U).
  rewrite <- (order_by_id_length (updates_of d (db w))).
  destruct p.
  - exists [order_by_id (updates_of d (db w))], (after (SelectAll d) w).
    rewrite (single_query_calm d w F U). cbn [concat]. rewrite app_nil_r.
    split; [reflexivity|]. split; [apply faults_after, F|].
    repeat (split; [reflexivity|]). discriminate.
  - cbn [readAllUpdates_of]. unfold keyset, PgAdapterPaged.readAllUpdates.
    destruct (keyset_loop_calm collect (fun s page => s ++ [page]) d
                (fun s page => eq_refl)
                (S (length (table (db w)))) w []
                (order_by_id (updates_of d (db w))) (-1) 0 [])
      as (pages & w' & E & F' & C' & C & Fp & D & J); auto.
    + apply Forall_forall. intros r Hr.
      apply (proj1 (order_by_id_In _ _)) in Hr. apply filter_In in Hr as [Hr _].
      destruct K as (_ & _ & Hi). specialize (Hi r Hr). lia.
    + rewrite order_by_id_length. unfold updates_of.
      pose proof (filter_length_le (is_update d) (table (db w))). lia.
    + exists pages, w'. rewrite E, fold_left_collect. cbn [app].
      rewrite Z.add_0_l. split; [reflexivity|]. split; [exact F'|].
      split; [exact D|]. split; [exact C'|]. split; [exact C|].
      split; [discriminate|]. intros _. split; [exact Fp|].
      rewrite fold_left_collect in E. cbn [app] in E.
      apply keyset_loop_full in E as (fulls & rest & Ep & Ff & Hr & _).
      cbn [app] in Ep. subst pages. rewrite <- C.
      apply page_count; assumption.
Qed.

Lemma applyUpdates_app `{Yjs} (ydoc : Doc) (us vs : list bytes) :
  applyUpdates ydoc (us ++ vs) =
  match applyUpdates ydoc us with
  | Ok ydoc' => applyUpdates ydoc' vs
  | Err e => Err e
  end.
Proof.
  revert ydoc. induction us as [|u us IH]; intros ydoc;
    cbn [app applyUpdates]; [reflexivity|].
  destruct (Y_applyUpdate ydoc u); [apply IH | reflexivity].
Qed.

(** Page by page or all at once, the updates applied are the same. *)
Lemma visit_apply_page `{Yjs} (pages : list (list Row)) :
  forall (y0 ydoc : Doc) (k : Z),
    applyUpdates y0 (map value (concat pages)) = Ok ydoc ->
    visit apply_page pages (y0, k) = Ok (ydoc, k + Z.of_nat (length pages)).
Proof.
  induction pages as [|pg pages IH]; intros y0 ydoc k A;
    cbn [concat visit length] in *.
  - cbn [map applyUpdates] in A. injection A as <-. do 2 f_equal. lia.
  - rewrite map_app, applyUpdates_app in A. unfold apply_page at 1.
    cbn [fst snd].
    destruct (applyUpdates y0 (map value pg)) as [y1|e]; [|discriminate].
    rewrite (IH _ _ _ A). do 2 f_equal. lia.
Qed.

Lemma visit_payloads (pages : list (list Row)) : forall acc,
  visit (fun updates partial => Ok (updates ++ map value partial)) pages acc =
  Ok (acc ++ map value (concat pages)).
Proof.
  induction pages as [|pg pages IH]; intros acc; cbn [visit concat map].
  - rewrite app_nil_r. reflexivity.
  - rewrite IH, map_app, app_assoc. reflexivity.
Qed.

(** ** Calls after the first, when no round trip fails *)

Lemma latest_of_updates (d : string) (b : database) :
  serial_key b -> updates_of d b <> [] ->
  (match fst (exec (SelectLatest d) b) with
   | x :: _ => id x
   | [] => -1
   end =? -1) = false.
Proof.
  intros K N. apply Z.eqb_neq. intros E.
  pose proof (select_latest_is_latest d b) as L. rewrite E in L.
  apply N, latest_none; assumption.
Qed.

Lemma storeUpdate_calm `{Yjs} (rev : revision) (d : string) (u : bytes)
    (w : World) :
  faults w = [] -> serial_key (db w) -> updates_of d (db w) <> [] ->
  storeUpdate_of rev d u w =
  (Ok (serial (db w)), after (InsertUpdate d u) (after (SelectLatest d) w)).
Proof.
  intros F K N.
  assert (I : PgAdapter.insertUpdate d u (after (SelectLatest d) w) =
              (Ok (Some (mkRow (serial (db w)) d u v1)),
               after (InsertUpdate d u) (after (SelectLatest d) w))).
  { apply (insertUpdate_calm d u (after (SelectLatest d) w)), faults_after, F. }
  destruct rev; cbn [storeUpdate_of];
    unfold Sync.storeUpdate, Async.storeUpdate, getCurrentUpdateClock;
    erewrite bind_ok by (apply findLatestDocumentId_calm, F);
    rewrite (latest_of_updates d (db w) K N).
  - erewrite bind_ok by reflexivity. erewrite bind_ok by exact I. reflexivity.
  - erewrite bind_ok by exact I. reflexivity.
Qed.

Lemma flushDocument_calm `{Yjs} (rev : revision) (d : string) (su sv : bytes)
    (w : World) :
  faults w = [] -> serial_key (db w) -> updates_of d (db w) <> [] ->
  exists w',
    flushDocument_of rev d su sv w = (Ok (serial (db w)), w') /\
    faults w' = [] /\ console w' = console w.
Proof.
  intros F K N. rewrite flushDocument_of_with. unfold flushDocument_with.
  erewrite bind_ok by (apply storeUpdate_calm; assumption).
  set (w1' := after (InsertUpdate d su) (after (SelectLatest d) w)).
  assert (F1 : faults w1' = []) by (do 2 apply faults_after; exact F).
  unfold writeStateVector.
  destruct (putStateVector_calm d (encodeStateVectorBuffer sv (serial (db w)))
              w1' F1) as [row E].
  erewrite bind_ok by exact E.
  erewrite bind_ok
    by (apply clearUpdatesRange_calm; do 2 apply faults_after; exact F1).
  eexists. split; [reflexivity|]. split; [|reflexivity].
  do 3 apply faults_after. exact F1.
Qed.

(** What a [flushDocument] that returned leaves of the document. *)
Lemma flushDocument_leaves `{Yjs} (rev : revision) (d : string)
    (su sv : bytes) (w : World) (hw : Z) (w' : World) :
  flushDocument_of rev d su sv w = (Ok hw, w') ->
  serial_key (db w) ->
  serial_key (db w') /\
  updates_of d (db w') = [mkRow hw d su v1] /\
  exists row, checkpoint_of d (db w') = Some row /\
              value row = encodeStateVectorBuffer sv hw.
Proof.
  intros E K.
  destruct (flushDocument_success _ _ _ _ _ _ _ E K) as (S & U & C & _).
  split; [|split; [|exact C]].
  - eapply adapter_steps_serial_key; [|exact K].
    rewrite flushDocument_of_with in E.
    eapply (flushDocument_with_steps (storeUpdate_of rev)); [|exact E].
    intros d0 u0. destruct rev; cbn [storeUpdate_of];
      [apply sync_storeUpdate_steps | apply async_storeUpdate_steps].
  - rewrite U, String.eqb_refl, filter_app. cbn [filter].
    rewrite new_row_not_in_range. cbn [negb].
    rewrite filter_none; [reflexivity|].
    intros x Hx. apply filter_In in Hx as [Hx Ux].
    destruct K as (_ & _ & Hr). specialize (Hr x Hx).
    unfold in_range. rewrite Ux.
    replace (0 <=? id x) with true by (symmetry; apply Z.leb_le; lia).
    replace (id x <? hw) with true by (symmetry; apply Z.ltb_lt; lia).
    reflexivity.
Qed.

(** ** Loading: what [getYDocFromDb] returns *)

Lemma sync_load `{Yjs} (p : paging) (d : string) (flushSize : Z) (w : World)
    (ydoc : Doc) :
  faults w = [] -> serial_key (db w) ->
  applyUpdates newDoc (map value (order_by_id (updates_of d (db w)))) = Ok ydoc ->
  exists w1,
    faults w1 = [] /\ db w1 = db w /\ console w1 = console w /\
    Sync.getYDocFromDb (readAllUpdates_of p) d flushSize w =
    if Z.of_nat (length (updates_of d (db w))) >? flushSize
    then (Sync.flushDocument d (encodeStateAsUpdate ydoc) (encodeStateVector ydoc) ;;;
          ret ydoc) w1
    else (Ok ydoc, w1).
Proof.
  intros F K A.
  destruct (scan_pages p d w F K) as (pages & w1 & E & F1 & D1 & C1 & Cc & _).
  exists w1. split; [exact F1|]. split; [exact D1|]. split; [exact C1|].
  unfold Sync.getYDocFromDb.
  erewrite bind_ok by (eapply scan_visit; [exact E | apply visit_payloads]).
  cbn [fst snd app]. rewrite Cc.
  erewrite bind_ok by (unfold lift; rewrite A; reflexivity).
  destruct (Z.of_nat (length (updates_of d (db w))) >? flushSize).
  - unfold bind.
    destruct (Sync.flushDocument d (encodeStateAsUpdate ydoc)
                (encodeStateVector ydoc) w1) as [[hw|e] w2]; reflexivity.
  - reflexivity.
Qed.

Lemma async_load `{Yjs} (p : paging) (d : string) (flushSize : Z) (w : World)
    (ydoc : Doc) :
  faults w = [] -> serial_key (db w) ->
  applyUpdates newDoc (map value (order_by_id (updates_of d (db w)))) = Ok ydoc ->
  exists pages w1,
    faults w1 = [] /\ db w1 = db w /\ console w1 = console w /\
    concat pages = order_by_id (updates_of d (db w)) /\
    (p = SingleQuery -> pages = [order_by_id (updates_of d (db w))]) /\
    (p = Keyset ->
     Forall (fun pg => pg <> [] /\
                       Z.of_nat (length pg) <= PgAdapterPaged.BATCH_SIZE) pages /\
     Z.of_nat (length pages) =
       (Z.of_nat (length (updates_of d (db w))) + 999) / 1000) /\
    Async.getYDocFromDb (readAllUpdates_of p) d flushSize w =
    if Z.of_nat (length pages) * 1000 >? flushSize
    then fire_and_forget Async.flush_error (flush_in_background d ydoc)
           (ret ydoc) w1
    else (Ok ydoc, w1).
Proof.
  intros F K A.
  destruct (scan_pages p d w F K)
    as (pages & w1 & E & F1 & D1 & C1 & Cc & Sp & Fp).
  exists pages, w1. split; [exact F1|]. split; [exact D1|].
  split; [exact C1|]. split; [exact Cc|]. split; [exact Sp|].
  split; [exact Fp|].
  unfold Async.getYDocFromDb. fold apply_page.
  erewrite bind_ok
    by (eapply scan_visit; [exact E|];
        apply visit_apply_page; rewrite Cc; exact A).
  cbn [fst snd]. rewrite Z.add_0_l.
  destruct (Z.of_nat (length pages) * 1000 >? flushSize); reflexivity.
Qed.

Lemma fst_fire_and_forget {A} (msg : string) (task : M unit) (a : A) (w : World) :
  fst (fire_and_forget msg task (ret a) w) = Ok a.
Proof.
  unfold fire_and_forget, ret.
  destruct (catch_log msg task w) as [x w2]. reflexivity.
Qed.

Lemma updates_of_length_pos (d : string) (b : database) :
  0 < Z.of_nat (length (updates_of d b)) -> updates_of d b <> [].
Proof. intros L E. rewrite E in L. cbn in L. lia. Qed.

(** In a run without failing round trips, [getYDocFromDb] returns the
    document its updates make. *)
Lemma load_replays `{Yjs} (rev : revision) (p : paging) (d : string)
    (flushSize : Z) (w : World) (ydoc : Doc) :
  faults w = [] -> serial_key (db w) -> 0 <= flushSize ->
  applyUpdates newDoc (map value (order_by_id (updates_of d (db w)))) = Ok ydoc ->
  fst (getYDocFromDb_of rev (readAllUpdates_of p) d flushSize w) = Ok ydoc.
Proof.
  intros F K Hf A. destruct rev; cbn [getYDocFromDb_of].
  - destruct (sync_load p d flushSize w ydoc F K A) as (w1 & F1 & D1 & _ & ->).
    destruct (Z.of_nat (length (updates_of d (db w))) >? flushSize) eqn:G;
      [|reflexivity].
    apply Z.gtb_lt in G.
    destruct (flushDocument_calm Synchronous d (encodeStateAsUpdate ydoc)
                (encodeStateVector ydoc) w1) as (w2 & E & _);
      [exact F1 | rewrite D1; exact K
      | rewrite D1; apply updates_of_length_pos; lia |].
    cbn [flushDocument_of] in E. erewrite bind_ok by exact E. reflexivity.
  - destruct (async_load p d flushSize w ydoc F K A)
      as (pages & w1 & _ & _ & _ & _ & _ & _ & ->).
    destruct (Z.of_nat (length pages) * 1000 >? flushSize);
      [apply fst_fire_and_forget | reflexivity].
Qed.

(** X7.  [getYDocFromDb] replays the log.  In a run without failing
    round trips, on a table keyed by the sequence, with a [flushSize]
    that is not negative: if the updates of the document, taken in
    ascending order of id, can be applied one after the other to a new
    [Y.Doc], then the document so made is what [getYDocFromDb] returns,
    in either revision and with either [readAllUpdates], whether it
    collects the updates first or applies them page by page, and whether
    or not it goes on to flush.  For the synchronous revision with the
    single query of [pg-adapter.ts], this is for a document of at most
    [spread_safe] updates, which its callback can push in one call. *)
Theorem getYDocFromDb_replays `{Yjs} (rev : revision) (p : paging)
    (d : string) (flushSize : Z) (w : World) (ydoc : Doc) :
  faults w = [] -> serial_key (db w) -> 0 <= flushSize ->
  (rev = Synchronous -> p = SingleQuery ->
   Z.of_nat (length (updates_of d (db w))) <= spread_safe) ->
  applyUpdates newDoc (map value (order_by_id (updates_of d (db w)))) = Ok ydoc ->
  fst (getYDocFromDb_of rev (readAllUpdates_of p) d flushSize w) = Ok ydoc.
Proof. intros F K Hf _. apply load_replays; assumption. Qed.

Lemma getYDocFromDb_replays_witness :
  fst (@getYDocFromDb_of LogDoc Synchronous (readAllUpdates_of SingleQuery)
         "doc" 10 (world_of sample_db [])) =
  Ok [[x0a]; [x0b]] /\
  fst (@getYDocFromDb_of LogDoc FireAndForget (readAllUpdates_of Keyset)
         "doc" 10 (world_of sample_db [])) =
  Ok [[x0a]; [x0b]].
Proof.
  split.
  - apply (@getYDocFromDb_replays LogDoc Synchronous SingleQuery "doc" 10
             (world_of sample_db []) [[x0a]; [x0b]]).
    + reflexivity.
    + apply serial_key_sample.
    + lia.
    + intros _ _. vm_compute. discriminate.
    + reflexivity.
  - apply (@getYDocFromDb_replays LogDoc FireAndForget Keyset "doc" 10
             (world_of sample_db []) [[x0a]; [x0b]]).
    + reflexivity.
    + apply serial_key_sample.
    + lia.
    + intros X. discriminate X.
    + reflexivity.
Defined.

(** X8.  After a compaction the document is its full state.  When
    [flushDocument] has returned (either revision, on a table keyed by
    the sequence) and no later round trip fails, a [getYDocFromDb] of the
    document (either revision, either [readAllUpdates], a [flushSize]
    that is not negative) returns what applying the full-state update
    alone to a new [Y.Doc] gives: no earlier update is read any more. *)
Theorem getYDocFromDb_after_flush `{Yjs} (rev rev' : revision) (p : paging)
    (d : string) (su sv : bytes) (w : World) (hw : Z) (w' : World)
    (flushSize : Z) (ydoc : Doc) :
  flushDocument_of rev d su sv w = (Ok hw, w') ->
  serial_key (db w) -> faults w' = [] -> 0 <= flushSize ->
  applyUpdate newDoc su = Some ydoc ->
  fst (getYDocFromDb_of rev' (readAllUpdates_of p) d flushSize w') = Ok ydoc.
Proof.
  intros E K F Hf A.
  destruct (flushDocument_leaves _ _ _ _ _ _ _ E K) as (K' & U & _).
  apply load_replays; try assumption.
  rewrite U. cbn [order_by_id fold_right insert_by_id map value applyUpdates].
  unfold Y_applyUpdate. rewrite A. reflexivity.
Qed.

Lemma getYDocFromDb_after_flush_witness :
  fst (@getYDocFromDb_of LogDoc FireAndForget (readAllUpdates_of SingleQuery)
         "doc" 0
         (snd (@Sync.flushDocument LogDoc "doc" [x01; x0a; x0b] [x02]
                 (world_of sample_db [])))) =
  Ok [[x01; x0a; x0b]].
Proof.
  apply (@getYDocFromDb_after_flush LogDoc Synchronous FireAndForget SingleQuery
           "doc" [x01; x0a; x0b] [x02] (world_of sample_db []) 5
           (snd (@Sync.flushDocument LogDoc "doc" [x01; x0a; x0b] [x02]
                   (world_of sample_db [])))
           0 [[x01; x0a; x0b]]).
  - vm_compute. reflexivity.
  - apply serial_key_sample.
  - reflexivity.
  - lia.
  - reflexivity.
Defined.

(** ** Loading, fire-and-forget revision: when the flush is started *)

Lemma length_concat_le (B : Z) (pages : list (list Row)) :
  Forall (fun pg => pg <> [] /\ Z.of_nat (length pg) <= B) pages ->
  Z.of_nat (length (concat pages)) <= Z.of_nat (length pages) * B.
Proof.
  induction 1 as [|pg pages [_ Hp] _ IH]; cbn [concat length]; [lia|].
  rewrite length_app. lia.
Qed.

Lemma concat_nil_nonempty (pages : list (list Row)) :
  Forall (fun pg => pg <> [] /\
                    Z.of_nat (length pg) <= PgAdapterPaged.BATCH_SIZE) pages ->
  concat pages = [] -> pages = [].
Proof.
  intros F E. destruct pages as [|pg pages]; [reflexivity|].
  inversion F as [|? ? [N _] _]; subst. cbn [concat] in E.
  apply app_eq_nil in E as [E _]. contradiction.
Qed.

(** X9.  The fire-and-forget [getYDocFromDb] on the keyset
    [readAllUpdates], in a run without failing round trips, on a table
    keyed by the sequence, with the updates of the document all
    applicable and a [flushSize] that is not negative.  If the document
    has more than [flushSize] updates, the flush is started, and when the
    promise has run the document is left with the one full-state update
    of the document returned and with the state-vector row of its clock;
    nothing is written to the console.  If the document has no update,
    no flush is started and the table is as it was. *)
Theorem async_getYDocFromDb_flushes `{Yjs} (d : string) (flushSize : Z)
    (w : World) (ydoc : Doc) :
  faults w = [] -> serial_key (db w) -> 0 <= flushSize ->
  applyUpdates newDoc (map value (order_by_id (updates_of d (db w)))) = Ok ydoc ->
  (flushSize < Z.of_nat (length (updates_of d (db w))) ->
   exists w',
     Async.getYDocFromDb keyset d flushSize w = (Ok ydoc, w') /\
     updates_of d (db w') =
       [mkRow (serial (db w)) d (encodeStateAsUpdate ydoc) v1] /\
     (exists row,
        checkpoint_of d (db w') = Some row /\
        value row =
          encodeStateVectorBuffer (encodeStateVector ydoc) (serial (db w))) /\
     console w' = console w) /\
  (updates_of d (db w) = [] ->
   exists w',
     Async.getYDocFromDb keyset d flushSize w = (Ok ydoc, w') /\
     db w' = db w /\ console w' = console w).
Proof.
  intros F K Hf A.
  destruct (async_load Keyset d flushSize w ydoc F K A)
    as (pages & w1 & F1 & D1 & C1 & Cc & _ & Fp & E).
  destruct (Fp eq_refl) as [Fp' _]. clear Fp. rename Fp' into Fp.
  cbn [readAllUpdates_of] in E. split.
  - intros G.
    assert (L : Z.of_nat (length (updates_of d (db w))) <=
                Z.of_nat (length pages) * 1000).
    { rewrite <- (order_by_id_length (updates_of d (db w))), <- Cc.
      apply (length_concat_le PgAdapterPaged.BATCH_SIZE), Fp. }
    replace (Z.of_nat (length pages) * 1000 >? flushSize) with true in E
      by (symmetry; apply Z.gtb_lt; lia).
    destruct (flushDocument_calm FireAndForget d (encodeStateAsUpdate ydoc)
                (encodeStateVector ydoc) w1) as (w2 & E2 & _ & C2);
      [exact F1 | rewrite D1; exact K
      | rewrite D1; apply updates_of_length_pos; lia |].
    destruct (flushDocument_leaves _ _ _ _ _ _ _ E2) as (_ & U & C);
      [rewrite D1; exact K|].
    cbn [flushDocument_of] in E2. rewrite D1 in *.
    exists w2. split; [|split; [exact U|split; [exact C|congruence]]].
    rewrite E. unfold fire_and_forget, ret, catch_log, flush_in_background.
    erewrite bind_ok by exact E2. reflexivity.
  - intros U. rewrite U in Cc. cbn [order_by_id fold_right] in Cc.
    rewrite (concat_nil_nonempty pages Fp Cc) in E. cbn [length] in E.
    replace (Z.of_nat 0 * 1000 >? flushSize) with false in E
      by (symmetry; rewrite Z.gtb_ltb; apply Z.ltb_ge; lia).
    exists w1. split; [exact E|]. split; [exact D1 | exact C1].
Qed.

Lemma async_getYDocFromDb_flushes_witness :
  exists w',
    @Async.getYDocFromDb LogDoc keyset "doc" 1 (world_of sample_db []) =
      (Ok [[x0a]; [x0b]], w') /\
    updates_of "doc" (db w') = [mkRow 5 "doc" [x01; x0a; x0b] v1].
Proof.
  destruct (@async_getYDocFromDb_flushes LogDoc "doc" 1 (world_of sample_db [])
              [[x0a]; [x0b]]) as [X _].
  - reflexivity.
  - apply serial_key_sample.
  - lia.
  - reflexivity.
  - destruct X as (w' & E & U & _); [cbn; lia|].
    exists w'. split; [exact E | exact U].
Defined.

(** ** What reaches the console *)

Section Says.
Variable P : string * error -> Prop.

Lemma says_ret {A} (a : A) : says P (ret a).
Proof.
  intros w r w' E. apply ret_inv in E as [_ ->].
  exists []. rewrite app_nil_r. auto.
Qed.

Lemma says_lift {A} (r0 : result A) : says P (lift r0).
Proof.
  intros w r w' E. apply lift_inv in E as [_ ->].
  exists []. rewrite app_nil_r. auto.
Qed.

Lemma says_bind {A B} (m : M A) (f : A -> M B) :
  says P m -> (forall a, says P (f a)) -> says P (bind m f).
Proof.
  intros Hm Hf w r w' E.
  apply bind_inv in E as [(a & w1 & E1 & E2) | (e & E1 & _)].
  - destruct (Hm _ _ _ E1) as (l1 & C1 & P1).
    destruct (Hf _ _ _ _ E2) as (l2 & C2 & P2).
    exists (l1 ++ l2). rewrite C2, C1, app_assoc.
    split; [reflexivity | apply Forall_app; auto].
  - eapply Hm; eassumption.
Qed.

Lemma says_query (s : stmt) : says P (query s).
Proof.
  intros w r w' E. exists []. rewrite app_nil_r. split; [|constructor].
  apply query_inv in E as [[_ F] | [_ F]]; apply F.
Qed.

Lemma says_if {A} (c : bool) (m1 m2 : M A) :
  says P m1 -> says P m2 -> says P (if c then m1 else m2).
Proof. destruct c; auto. Qed.

Lemma says_catch_log {A} (msg : string) (m : M A) :
  (forall e, P (msg, e)) -> says P m -> says P (catch_log msg m).
Proof.
  intros Hmsg Hm w r w' E.
  apply catch_log_inv in E as [_ [[a E] | (e & w1 & E & L)]].
  - eapply Hm; eassumption.
  - destruct (Hm _ _ _ E) as (l1 & C1 & P1).
    exists (l1 ++ [(msg, e)]). destruct L as (_ & _ & _ & ->).
    rewrite C1, app_assoc. split; [reflexivity|].
    apply Forall_app. split; [exact P1|]. constructor; [apply Hmsg | constructor].
Qed.

Lemma says_fire_and_forget {A} (msg : string) (task : M unit) (rest : M A) :
  (forall e, P (msg, e)) -> says P task -> says P rest ->
  says P (fire_and_forget msg task rest).
Proof.
  intros Hmsg Ht Hr w r w' E.
  apply fire_and_forget_inv in E as (w1 & E1 & E2).
  destruct (Hr _ _ _ E1) as (l1 & C1 & P1).
  destruct (says_catch_log msg task Hmsg Ht _ _ _ E2) as (l2 & C2 & P2).
  exists (l1 ++ l2). rewrite C2, C1, app_assoc.
  split; [reflexivity | apply Forall_app; auto].
Qed.

Lemma says_keyset_loop {S} d (callback : S -> list Row -> result S) fuel :
  forall lastId total s,
    says P (PgAdapterPaged.readAllUpdates_loop fuel d callback lastId total s).
Proof.
  induction fuel as [|fuel IH]; intros lastId total s;
    cbn [PgAdapterPaged.readAllUpdates_loop].
  - intros w r w' E. unfold throw in E. inversion E.
    exists []. rewrite app_nil_r. auto.
  - apply says_bind; [apply says_query|].
    intros [|x rows]; [apply says_ret|].
    apply says_bind; [apply says_lift|]. intros s'.
    apply says_if; [apply says_ret | apply IH].
Qed.

Lemma says_scan (p : paging) {S} d (callback : S -> list Row -> result S) s :
  says P (readAllUpdates_of p S d callback s).
Proof.
  destruct p; cbn [readAllUpdates_of].
  - unfold single_query, PgAdapter.readAllUpdates.
    apply says_bind; [apply says_query|]. intros rows.
    apply says_bind; [apply says_lift|]. intros s'. apply says_ret.
  - intros w r w' E. unfold keyset, PgAdapterPaged.readAllUpdates in E.
    eapply says_keyset_loop; eassumption.
Qed.

Lemma says_putStateVector d v : says P (PgAdapter.putStateVector d v).
Proof.
  unfold PgAdapter.putStateVector, PgAdapter._getStateVector.
  apply says_bind.
  - apply says_bind; [apply says_query | intros ?; apply says_ret].
  - intros sv. apply says_bind; [apply says_query | intros ?; apply says_ret].
Qed.

Lemma says_insertUpdate d v : says P (PgAdapter.insertUpdate d v).
Proof.
  unfold PgAdapter.insertUpdate.
  apply says_bind; [apply says_query | intros ?; apply says_ret].
Qed.

Lemma says_findLatestDocumentId d : says P (PgAdapter.findLatestDocumentId d).
Proof.
  unfold PgAdapter.findLatestDocumentId.
  apply says_bind; [apply says_query | intros ?; apply says_ret].
Qed.

Lemma says_writeInitialStateVector `{Yjs} d u :
  says P (writeInitialStateVector d u).
Proof.
  unfold writeInitialStateVector, writeStateVector.
  apply says_bind; [apply says_lift|]. intros ydoc.
  apply says_bind; [apply says_putStateVector | intros ?; apply says_ret].
Qed.

Lemma says_flushDocument_with store d su sv :
  (forall u, says P (store d u)) ->
  says P (flushDocument_with store d su sv).
Proof.
  intros Hs. unfold flushDocument_with, writeStateVector,
    PgAdapter.clearUpdatesRange.
  apply says_bind; [apply Hs|]. intros clock.
  apply says_bind; [apply says_putStateVector|]. intros _.
  apply says_bind; [|intros ?; apply says_ret].
  apply says_bind; [apply says_query | intros ?; apply says_ret].
Qed.

Lemma says_sync_storeUpdate `{Yjs} d u : says P (Sync.storeUpdate d u).
Proof.
  unfold Sync.storeUpdate, getCurrentUpdateClock.
  apply says_bind; [apply says_findLatestDocumentId|]. intros clock.
  apply says_bind;
    [apply says_if; [apply says_writeInitialStateVector | apply says_ret]|].
  intros _. apply says_bind; [apply says_insertUpdate|].
  intros ?. apply says_lift.
Qed.

Lemma says_async_storeUpdate `{Yjs} d u :
  (forall e, P (Async.init_failed, e)) -> says P (Async.storeUpdate d u).
Proof.
  intros Hi. unfold Async.storeUpdate, getCurrentUpdateClock.
  apply says_bind; [apply says_findLatestDocumentId|]. intros clock.
  apply says_bind; [|intros ?; apply says_lift].
  apply says_if; [|apply says_insertUpdate].
  apply says_fire_and_forget;
    [exact Hi | apply says_writeInitialStateVector | apply says_insertUpdate].
Qed.

Lemma says_sync_getYDocFromDb `{Yjs} p d n :
  says P (Sync.getYDocFromDb (readAllUpdates_of p) d n).
Proof.
  unfold Sync.getYDocFromDb, Sync.flushDocument.
  apply says_bind; [apply says_scan|]. intros r.
  apply says_bind; [apply says_lift|]. intros ydoc.
  apply says_bind; [|intros ?; apply says_ret].
  apply says_if; [|apply says_ret].
  apply says_bind; [|intros ?; apply says_ret].
  apply says_flushDocument_with. intros u. apply says_sync_storeUpdate.
Qed.

Lemma says_async_getYDocFromDb `{Yjs} p d n :
  (forall e, P (Async.init_failed, e)) ->
  (forall e, P (Async.flush_error, e)) ->
  says P (Async.getYDocFromDb (readAllUpdates_of p) d n).
Proof.
  intros Hi Hf. unfold Async.getYDocFromDb, Async.flushDocument.
  apply says_bind; [apply says_scan|]. intros r.
  apply says_if; [|apply says_ret].
  apply says_fire_and_forget; [exact Hf | | apply says_ret].
  apply says_bind; [|intros ?; apply says_ret].
  apply says_flushDocument_with. intros u.
  apply says_async_storeUpdate, Hi.
Qed.

End Says.

(** X10.  Nothing the flush does reaches the caller of the
    fire-and-forget [getYDocFromDb].  Its result, the document or the
    error, is that of the scan alone, whatever [flushSize] is and
    whatever becomes of the flush it may start; and all that the call
    writes to the console are lines of the two [catch] handlers, the one
    of the flush and the one of the initial state vector. *)
Theorem getYDocFromDb_background_errors `{Yjs} (p : paging) (d : string)
    (flushSize : Z) (w : World) :
  fst (Async.getYDocFromDb (readAllUpdates_of p) d flushSize w) =
  fst (getYDocFromDb_foreground (readAllUpdates_of p) d w) /\
  exists lines,
    console (snd (Async.getYDocFromDb (readAllUpdates_of p) d flushSize w)) =
      console w ++ lines /\
    Forall background_line lines.
Proof.
  split.
  - unfold Async.getYDocFromDb, getYDocFromDb_foreground, bind.
    fold apply_page.
    destruct (readAllUpdates_of p (Doc * Z)%type d apply_page (newDoc, 0) w)
      as [[r|e] w1]; [|reflexivity].
    destruct (snd (snd r) * 1000 >? flushSize);
      [apply fst_fire_and_forget | reflexivity].
  - destruct (Async.getYDocFromDb (readAllUpdates_of p) d flushSize w)
      as [r w'] eqn:E.
    eapply (says_async_getYDocFromDb background_line); [| |exact E];
      intros e; [right | left]; reflexivity.
Qed.

(** X11.  The synchronous revision swallows no error: whatever operation
    of the service runs, and whichever round trips fail, it writes
    nothing to the console, so every error there is reaches the caller.
    The fire-and-forget revision writes lines of its two [catch] handlers
    only. *)
Theorem console_lines `{Yjs} (rev : revision) (p : paging) (o : operation)
    (w : World) :
  exists lines,
    console (step rev p w o) = console w ++ lines /\
    Forall background_line lines /\
    (rev = Synchronous -> lines = []).
Proof.
  unfold step. destruct (run rev p o w) as [r w'] eqn:E. cbn [snd].
  destruct rev.
  - assert (X : says (fun _ => False) (run Synchronous p o)).
    { destruct o; cbn [run]; unfold Sync.flushDocument,
        PgAdapter.deleteDocument;
        (apply says_bind; [|intros ?; apply says_ret]).
      - apply says_sync_storeUpdate.
      - apply says_sync_getYDocFromDb.
      - apply says_flushDocument_with. intros u. apply says_sync_storeUpdate.
      - apply says_query. }
    destruct (X _ _ _ E) as (lines & C & Pl).
    destruct lines as [|l lines]; [|inversion Pl; contradiction].
    exists []. auto.
  - assert (X : says background_line (run FireAndForget p o)).
    { assert (Hi : forall e, background_line (Async.init_failed, e))
        by (intros e; right; reflexivity).
      assert (Hf : forall e, background_line (Async.flush_error, e))
        by (intros e; left; reflexivity).
      destruct o; cbn [run]; unfold Async.flushDocument,
        PgAdapter.deleteDocument;
        (apply says_bind; [|intros ?; apply says_ret]).
      - apply says_async_storeUpdate, Hi.
      - apply says_async_getYDocFromDb; assumption.
      - apply says_flushDocument_with. intros u.
        apply says_async_storeUpdate, Hi.
      - apply says_query. }
    destruct (X _ _ _ E) as (lines & C & Pl).
    exists lines. split; [exact C|]. split; [exact Pl | discriminate].
Qed.

(** ** Sequence numbers *)

Lemma steps_adapter_steps `{Yjs} (rev : revision) (p : paging)
    (os : list operation) : forall w,
  adapter_steps (db w) (db (steps rev p os w)).
Proof.
  induction os as [|o os IH]; intros w; cbn [steps fold_left].
  - apply steps_refl.
  - destruct (run rev p o w) as [r w1] eqn:E.
    replace (step rev p w o) with w1 by (unfold step; rewrite E; reflexivity).
    eapply adapter_steps_trans; [eapply run_steps; exact E | apply IH].
Qed.

(** X12.  The ids [storeUpdate] returns go up.  On a table keyed by the
    sequence, an id it returned is below the id of every update stored
    later, of any document, whatever was done in between in either
    revision: updates stored, documents loaded, compacted or deleted,
    round trips that failed.  No id is handed out twice, even after the
    row that had it is gone. *)
Theorem storeUpdate_ids_increase `{Yjs} (rev : revision) (p : paging)
    (d d' : string) (u u' : bytes) (os : list operation)
    (w w1 w3 : World) (i j : Z) :
  serial_key (db w) ->
  storeUpdate_of rev d u w = (Ok i, w1) ->
  storeUpdate_of rev d' u' (steps rev p os w1) = (Ok j, w3) ->
  i < j.
Proof.
  intros K E1 E3.
  destruct (storeUpdate_success _ _ _ _ _ _ E1 K) as (K1 & _ & U1 & _).
  assert (I : i < serial (db w1)).
  { destruct K1 as (_ & _ & Hr).
    assert (X : In (mkRow i d u v1) (updates_of d (db w1))).
    { rewrite U1, String.eqb_refl. apply in_or_app. right. left. reflexivity. }
    apply filter_In in X as [X _]. specialize (Hr _ X). cbn [id] in Hr. lia. }
  pose proof (steps_adapter_steps rev p os w1) as S.
  pose proof (adapter_steps_serial _ _ S) as L.
  pose proof (adapter_steps_serial_key _ _ S K1) as K2.
  destruct (storeUpdate_success _ _ _ _ _ _ E3 K2) as (_ & J & _).
  lia.
Qed.

Lemma storeUpdate_ids_increase_witness :
  5 <
  match fst (@Sync.storeUpdate LogDoc "other" [x0e]
               (steps Synchronous Keyset [DeleteDoc "doc"]
                  (snd (@Sync.storeUpdate LogDoc "doc" [x0d]
                          (world_of sample_db []))))) with
  | Ok j => j
  | Err _ => 0
  end.
Proof.
  apply (@storeUpdate_ids_increase LogDoc Synchronous Keyset "doc" "other"
           [x0d] [x0e] [DeleteDoc "doc"] (world_of sample_db [])
           (snd (@Sync.storeUpdate LogDoc "doc" [x0d] (world_of sample_db [])))
           (snd (@Sync.storeUpdate LogDoc "other" [x0e]
                   (steps Synchronous Keyset [DeleteDoc "doc"]
                      (snd (@Sync.storeUpdate LogDoc "doc" [x0d]
                              (world_of sample_db []))))))
           5 6).
  - apply serial_key_sample.
  - vm_compute. reflexivity.
  - vm_compute. reflexivity.
Defined.

(** ** A scan only reads *)

Lemma keyset_loop_reads {S : Type} (d : string)
    (callback : S -> list Row -> result S) (fuel : nat) :
  forall c total s w r w',
    PgAdapterPaged.readAllUpdates_loop fuel d callback c total s w = (r, w') ->
    db w' = db w /\ console w' = console w /\
    exists j, journal w' = journal w ++ j /\ Forall (scan_query d) j.
Proof.
  induction fuel as [|fuel IH]; intros c total s w r w' E;
    cbn [PgAdapterPaged.readAllUpdates_loop] in E.
  - unfold throw in E. inversion E. subst.
    split; [reflexivity|]. split; [reflexivity|].
    exists []. rewrite app_nil_r. auto.
  - assert (Q : forall res w1,
              query (SelectBatch d c PgAdapterPaged.BATCH_SIZE) w = (res, w1) ->
              db w1 = db w /\ console w1 = console w /\
              exists j, journal w1 = journal w ++ j /\ Forall (scan_query d) j).
    { intros res w1 E1. apply query_inv in E1 as [[_ F] | [_ R]].
      - destruct F as (D & J & C & _). split; [exact D|]. split; [exact C|].
        exists []. rewrite app_nil_r. auto.
      - destruct R as (D & J & C & _). split; [exact D|]. split; [exact C|].
        eexists. split; [exact J|]. constructor; [|constructor].
        right. eexists. reflexivity. }
    apply bind_inv in E as [(res & w1 & E1 & E) | (e & E1 & _)];
      [|eapply Q; exact E1].
    destruct (Q _ _ E1) as (D1 & C1 & j1 & J1 & P1).
    assert (X : db w' = db w1 /\ console w' = console w1 /\
                exists j, journal w' = journal w1 ++ j /\ Forall (scan_query d) j).
    { assert (N : forall a, w' = a ->
                  db w' = db a /\ console w' = console a /\
                  exists j, journal w' = journal a ++ j /\
                            Forall (scan_query d) j).
      { intros a ->. split; [reflexivity|]. split; [reflexivity|].
        exists []. rewrite app_nil_r. auto. }
      destruct res as [|x res].
      - apply ret_inv in E as [_ E]. apply N, E.
      - apply bind_inv in E as [(s' & w2 & E2 & E) | (e & E2 & _)];
          apply lift_inv in E2 as [_ E2]; [|apply N, E2].
        subst w2.
        destruct (Z.of_nat (length (map PgAdapter.as_update (x :: res)))
                  <? PgAdapterPaged.BATCH_SIZE).
        + apply ret_inv in E as [_ E]. apply N, E.
        + eapply IH. exact E. }
    destruct X as (D2 & C2 & j2 & J2 & P2).
    split; [congruence|]. split; [congruence|].
    exists (j1 ++ j2). rewrite J2, J1, app_assoc.
    split; [reflexivity | apply Forall_app; auto].
Qed.

Lemma scan_reads (p : paging) {S : Type} (d : string)
    (callback : S -> list Row -> result S) (s : S) (w : World) :
  db (snd (readAllUpdates_of p S d callback s w)) = db w /\
  console (snd (readAllUpdates_of p S d callback s w)) = console w /\
  exists j,
    journal (snd (readAllUpdates_of p S d callback s w)) = journal w ++ j /\
    Forall (scan_query d) j.
Proof.
  destruct (readAllUpdates_of p S d callback s w) as [r w'] eqn:E. cbn [snd].
  destruct p; cbn [readAllUpdates_of] in E.
  - unfold single_query, PgAdapter.readAllUpdates in E.
    assert (N : forall a, w' = a ->
                db w' = db a /\ console w' = console a /\
                exists j, journal w' = journal a ++ j /\ Forall (scan_query d) j).
    { intros a ->. split; [reflexivity|]. split; [reflexivity|].
      exists []. rewrite app_nil_r. auto. }
    apply bind_inv in E as [(res & w1 & E1 & E) | (e & E1 & _)].
    + assert (w' = w1) as ->.
      { apply bind_inv in E as [(s' & w2 & E2 & E) | (e & E2 & _)];
          apply lift_inv in E2 as [_ E2]; [|exact E2].
        subst w2. apply ret_inv in E as [_ E]. exact E. }
      apply query_inv in E1 as [[X _] | [_ R]]; [discriminate|].
      destruct R as (D & J & C & _). split; [exact D|]. split; [exact C|].
      eexists. split; [exact J|]. constructor; [|constructor].
      left. reflexivity.
    + apply query_inv in E1 as [[_ F] | [X _]]; [|discriminate].
      destruct F as (D & J & C & _). split; [exact D|]. split; [exact C|].
      exists []. rewrite app_nil_r. auto.
  - unfold keyset, PgAdapterPaged.readAllUpdates in E.
    eapply keyset_loop_reads. exact E.
Qed.

(** X13.  [readAllUpdates] only reads.  In either revision, with any
    callback and whichever round trips fail, whether it returns or
    throws: the table and the sequence are as they were, nothing is
    written to the console, and the statements it has run are its own
    queries for the document, the unpaginated one or pages of 1000. *)
Theorem readAllUpdates_reads_only (p : paging) {S : Type} (d : string)
    (callback : S -> list Row -> result S) (s : S) (w : World) :
  db (snd (readAllUpdates_of p S d callback s w)) = db w /\
  console (snd (readAllUpdates_of p S d callback s w)) = console w /\
  exists j,
    journal (snd (readAllUpdates_of p S d callback s w)) = journal w ++ j /\
    Forall (scan_query d) j.
Proof. apply scan_reads. Qed.

(** ** [insertUpdate] in a transaction *)

Section Transaction.
Import PgAdapterTx.

(** [insertUpdate] of [pg-adapter.ts], by the fate of its round trips. *)
Lemma tx_insertUpdate_outcome (d : string) (v : bytes) (s : Session)
    (r : result Z) (s' : Session) :
  insertUpdate d v s = (r, s') ->
  in_use s' = in_use s /\
  console (world s') = console (world s) /\
  match r with
  | Ok i =>
      i = serial (db (world s)) /\
      db (world s') = snd (exec (InsertUpdate d v) (db (world s))) /\
      journal (world s') = journal (world s) ++ [InsertUpdate d v] /\
      transaction s' = None /\
      sent s' = sent s ++ [BEGIN; Sql (InsertUpdate d v); COMMIT]
  | Err e =>
      e = StorageUnavailable /\
      table (db (world s')) = table (db (world s)) /\
      serial (db (world s)) <= serial (db (world s')) <= serial (db (world s)) + 1
  end.
Proof.
  destruct s as [[b fs j c] t n sn].
  unfold insertUpdate, pool_connect, client_query, round_trip, Stateful.bind,
    Stateful.finally, Stateful.try_catch, Stateful.lift, Stateful.throw,
    with_faults, release.
  cbn [world faults db journal console transaction in_use sent].
  intros E.
  do 5 (try (destruct fs as [|[|] fs]);
        cbn [tl world faults db journal console transaction in_use sent
             client_exec exec fst snd table serial hd_error id_of id] in E);
    injection E as <- <-;
    cbn [world db table serial in_use console journal transaction sent
         exec snd pred];
    repeat split; try reflexivity; try lia;
    rewrite <- ?app_assoc; reflexivity.
Qed.

(** X14.  [insertUpdate] of [pg-adapter.ts] stores all or nothing and
    gives its client back.  Whichever of its round trips fail (taking the
    client, [BEGIN], the [INSERT], [COMMIT], [ROLLBACK]): the clients
    taken from the pool and not released are as many as before, and the
    console is as it was.  When it returns, the id is the next value of
    the sequence, the table is the old one with the one new row, and
    what was sent is [BEGIN], the [INSERT], [COMMIT].  When it throws,
    the rows are the ones there were, and the sequence has moved on by
    one at most: a value drawn in a transaction that is rolled back is
    not drawn again. *)
Theorem insertUpdate_transaction (d : string) (v : bytes) (s : Session)
    (r : result Z) (s' : Session) :
  insertUpdate d v s = (r, s') ->
  in_use s' = in_use s /\
  console (world s') = console (world s) /\
  match r with
  | Ok i =>
      i = serial (db (world s)) /\
      db (world s') = snd (exec (InsertUpdate d v) (db (world s))) /\
      journal (world s') = journal (world s) ++ [InsertUpdate d v] /\
      transaction s' = None /\
      sent s' = sent s ++ [BEGIN; Sql (InsertUpdate d v); COMMIT]
  | Err e =>
      e = StorageUnavailable /\
      table (db (world s')) = table (db (world s)) /\
      serial (db (world s)) <= serial (db (world s')) <= serial (db (world s)) + 1
  end.
Proof. apply tx_insertUpdate_outcome. Qed.

Lemma insertUpdate_transaction_witness :
  table (db (world (snd (insertUpdate "doc" [x0c]
                           (session_of
                              (world_of sample_db [false; false; false; true]))))))
  = table sample_db /\
  in_use (snd (insertUpdate "doc" [x0c]
                 (session_of (world_of sample_db [false; false; false; true]))))
  = 0%nat.
Proof.
  destruct (insertUpdate_transaction "doc" [x0c]
              (session_of (world_of sample_db [false; false; false; true]))
              (Err StorageUnavailable)
              (snd (insertUpdate "doc" [x0c]
                      (session_of
                         (world_of sample_db [false; false; false; true])))))
    as (U & _ & _ & T & _).
  - vm_compute. reflexivity.
  - split; [exact T | exact U].
Defined.

(** X15.  The two revisions of [insertUpdate] agree.  When no round trip
    fails, the one of [pg-adapter.ts], in its transaction, returns the id
    of the row the other returns from its single [INSERT], and the two
    leave the same table, the same sequence and the same statements in
    the journal. *)
Theorem insertUpdate_revisions_agree (d : string) (v : bytes) (s : Session) :
  faults (world s) = [] ->
  exists i s' row w',
    insertUpdate d v s = (Ok i, s') /\
    PgAdapter.insertUpdate d v (world s) = (Ok (Some row), w') /\
    id row = i /\ docname row = d /\ value row = v /\ version row = v1 /\
    db (world s') = db w' /\ journal (world s') = journal w'.
Proof.
  intros F. destruct (insertUpdate d v s) as [r s'] eqn:E.
  pose proof (tx_insertUpdate_outcome d v s r s' E) as (_ & _ & X).
  destruct r as [i|e].
  - destruct X as (-> & D & J & _).
    exists (serial (db (world s))), s'. do 2 eexists.
    split; [reflexivity|]. split; [apply insertUpdate_calm, F|].
    cbn [id docname value version after db journal]. rewrite D, J. auto 8.
  - exfalso. clear X. revert E. destruct s as [[b fs j c] t n sn].
    cbn [world faults] in F. subst fs.
    unfold insertUpdate, pool_connect, client_query, round_trip, Stateful.bind,
      Stateful.finally, Stateful.try_catch, Stateful.lift, Stateful.throw,
      with_faults, release.
    cbn [tl world faults db journal console transaction in_use sent
         client_exec exec fst snd table serial hd_error id_of id].
    discriminate.
Qed.

Lemma insertUpdate_revisions_agree_witness :
  exists i s' row w',
    insertUpdate "doc" [x0c] (session_of (world_of sample_db [])) = (Ok i, s') /\
    PgAdapter.insertUpdate "doc" [x0c] (world_of sample_db []) =
      (Ok (Some row), w') /\
    id row = i.
Proof.
  destruct (insertUpdate_revisions_agree "doc" [x0c]
              (session_of (world_of sample_db [])))
    as (i & s' & row & w' & E1 & E2 & I & _).
  - reflexivity.
  - exists i, s', row, w'. auto.
Defined.

End Transaction.

(** ** [connect] *)

Section Connect.
Import Schema.

Lemma sbind_inv {St A B} (m : Stateful.T St A) (f : A -> Stateful.T St B)
    (s : St) r s' :
  Stateful.bind m f s = (r, s') ->
  (exists a s1, m s = (Ok a, s1) /\ f a s1 = (r, s')) \/
  (exists e, m s = (Err e, s') /\ r = Err e).
Proof.
  unfold Stateful.bind. destruct (m s) as [[a|e] s1]; intros E.
  - left. eauto.
  - right. inversion E; subst. eauto.
Qed.

Lemma sbind_ok_inv {St A B} (m : Stateful.T St A) (f : A -> Stateful.T St B)
    (s : St) b s' :
  Stateful.bind m f s = (Ok b, s') ->
  exists a s1, m s = (Ok a, s1) /\ f a s1 = (Ok b, s').
Proof.
  intros E. destruct (sbind_inv _ _ _ _ _ E) as [?|[e [_ ?]]];
    [assumption | discriminate].
Qed.

Lemma sbind_ok {St A B} (m : Stateful.T St A) (f : A -> Stateful.T St B)
    (s s1 : St) a :
  m s = (Ok a, s1) -> Stateful.bind m f s = f a s1.
Proof. intros E. unfold Stateful.bind. rewrite E. reflexivity. Qed.

Lemma schema_query_inv (q : statement) (s : Server) r s' :
  query q s = (r, s') ->
  (r = Err StorageUnavailable /\ cat s' = cat s) \/
  (exists res,
     r = Ok res /\ run_statement q (cat s) = Some (res, cat s') /\
     issued s' = issued s ++ [q] /\ outages s' = tl (outages s)).
Proof.
  unfold query. intros E.
  destruct (outages s) as [|[|] fs] eqn:O;
    try (inversion E; subst; left; split; reflexivity);
    destruct (run_statement q (cat s)) as [[res c]|];
    inversion E; subst; cbn [cat issued outages tl];
    try (left; split; reflexivity);
    right; exists res; auto.
Qed.

Lemma schema_query_calm (q : statement) (s : Server) res c :
  outages s = [] -> run_statement q (cat s) = Some (res, c) ->
  query q s = (Ok res, mkServer c [] (issued s ++ [q])).
Proof. intros O R. unfold query. rewrite O, R. reflexivity. Qed.

(** *** Names *)

Lemma append_self (t s : string) : (t ++ s)%string = t -> s = EmptyString.
Proof.
  induction t as [|a t IH]; cbn [String.append]; intros E; [exact E|].
  injection E as E. apply IH, E.
Qed.

Lemma append_same (t a b : string) : (t ++ a)%string = (t ++ b)%string -> a = b.
Proof.
  induction t as [|x t IH]; cbn [String.append]; intros E; [exact E|].
  injection E as E. apply IH, E.
Qed.

Lemma docname_idx_fresh (t : string) :
  String.eqb (docname_idx t) t = false /\
  String.eqb t (docname_idx t) = false.
Proof.
  assert (N : docname_idx t <> t).
  { intros E. apply append_self in E. discriminate. }
  split; apply String.eqb_neq; congruence.
Qed.

Lemma docname_id_idx_fresh (t : string) :
  String.eqb (docname_id_idx t) t = false /\
  String.eqb t (docname_id_idx t) = false.
Proof.
  assert (N : docname_id_idx t <> t).
  { intros E. apply append_self in E. discriminate. }
  split; apply String.eqb_neq; congruence.
Qed.

Lemma idx_names_differ (t : string) :
  String.eqb (docname_id_idx t) (docname_idx t) = false /\
  String.eqb (docname_idx t) (docname_id_idx t) = false.
Proof.
  assert (N : docname_id_idx t <> docname_idx t).
  { intros E. apply append_same in E. discriminate. }
  split; apply String.eqb_neq; congruence.
Qed.

Lemma mem_In (x : string) (l : list string) : mem x l = true <-> In x l.
Proof.
  unfold mem. rewrite existsb_exists. split.
  - intros (y & Hy & E). apply String.eqb_eq in E. subst. exact Hy.
  - intros H. exists x. split; [exact H | apply String.eqb_refl].
Qed.

Lemma has_index_In (t i : string) (c : catalog) :
  has_index t i c = true <-> In (t, i) (indexes c).
Proof.
  unfold has_index. rewrite existsb_exists. split.
  - intros ([t' i'] & Hy & E). cbn [fst snd] in E.
    apply andb_true_iff in E as [E1 E2].
    apply String.eqb_eq in E1, E2. subst. exact Hy.
  - intros H. exists (t, i). split; [exact H|]. cbn [fst snd].
    rewrite !String.eqb_refl. reflexivity.
Qed.

Lemma has_index_named (t i : string) (c : catalog) :
  has_index t i c = true -> mem i (map snd (indexes c)) = true.
Proof.
  intros H. apply has_index_In in H. apply mem_In.
  apply in_map_iff. exists (t, i). auto.
Qed.

(** *** The catalog only grows *)

Lemma extends_refl (c : catalog) : extends c c.
Proof. repeat split; apply incl_refl. Qed.

Lemma extends_trans (c1 c2 c3 : catalog) :
  extends c1 c2 -> extends c2 c3 -> extends c1 c3.
Proof.
  intros (A1 & B1 & C1) (A2 & B2 & C2).
  repeat split; eapply incl_tran; eassumption.
Qed.

Lemma run_statement_extends (q : statement) (c : catalog) res c' :
  run_statement q c = Some (res, c') -> extends c c'.
Proof.
  destruct q; cbn [run_statement]; intros E.
  - injection E as _ <-. apply extends_refl.
  - injection E as _ <-. apply extends_refl.
  - injection E as _ <-. destruct (mem version_type (types c));
      [apply extends_refl|].
    repeat split; cbn [types tables indexes];
      try apply incl_refl; apply incl_tl, incl_refl.
  - destruct (relation t c || negb (mem version_type (types c)));
      [discriminate|].
    injection E as _ <-.
    repeat split; cbn [types tables indexes];
      try apply incl_refl; apply incl_tl, incl_refl.
  - injection E as _ <-. apply extends_refl.
  - destruct (relation i c || negb (mem t (tables c))); [discriminate|].
    injection E as _ <-.
    repeat split; cbn [types tables indexes];
      try apply incl_refl; apply incl_tl, incl_refl.
Qed.

Section Preserves.
Variable R : catalog -> catalog -> Prop.
Hypothesis R_refl : forall c, R c c.
Hypothesis R_trans : forall c1 c2 c3, R c1 c2 -> R c2 c3 -> R c1 c3.

Lemma preserves_ret {A} (a : A) : preserves R (Stateful.ret (St := Server) a).
Proof. intros s r s' E. inversion E. apply R_refl. Qed.

Lemma preserves_bind {A B} (m : Stateful.T Server A)
    (f : A -> Stateful.T Server B) :
  preserves R m -> (forall a, preserves R (f a)) ->
  preserves R (Stateful.bind m f).
Proof.
  intros Hm Hf s r s' E.
  apply sbind_inv in E as [(a & s1 & E1 & E2) | (e & E1 & _)].
  - eapply R_trans; [eapply Hm | eapply Hf]; eassumption.
  - eapply Hm; eassumption.
Qed.

Lemma preserves_if {A} (b : bool) (m1 m2 : Stateful.T Server A) :
  preserves R m1 -> preserves R m2 -> preserves R (if b then m1 else m2).
Proof. destruct b; auto. Qed.

Lemma preserves_query (q : statement) :
  (forall c res c', run_statement q c = Some (res, c') -> R c c') ->
  preserves R (query q).
Proof.
  intros Hq s r s' E.
  apply schema_query_inv in E as [[_ ->] | (res & _ & E & _)].
  - apply R_refl.
  - eapply Hq. exact E.
Qed.

(** [connect] keeps to [R] if its statements do. *)
Lemma preserves_connect (t : string) (u : bool) :
  (forall q c res c',
     In q [CreateTypeIfMissing; CreateTable t;
           CreateIndex (docname_idx t) t ["docname"%string];
           CreateIndex (docname_id_idx t) t ["docname"%string; "id"%string]] ->
     run_statement q c = Some (res, c') -> R c c') ->
  preserves R (connect t u).
Proof.
  intros Hq.
  assert (P : forall q, probe q -> preserves R (query q)).
  { intros q Pq. apply preserves_query. intros c res c' E.
    destruct q; cbn [probe] in Pq; try contradiction;
      cbn [run_statement] in E; injection E as _ <-; apply R_refl. }
  assert (W : forall q,
            In q [CreateTypeIfMissing; CreateTable t;
                  CreateIndex (docname_idx t) t ["docname"%string];
                  CreateIndex (docname_id_idx t) t
                    ["docname"%string; "id"%string]] ->
            preserves R (query q)).
  { intros q Hin. apply preserves_query. intros c res c'. apply Hq, Hin. }
  unfold connect.
  apply preserves_bind; [apply P; exact I|]. intros _.
  apply preserves_bind; [apply P; exact I|]. intros tableExists.
  apply preserves_bind.
  { apply preserves_if; [|apply preserves_ret].
    apply preserves_bind; [apply W; cbn; auto|]. intros _.
    apply preserves_bind; [apply W; cbn; auto|]. intros _.
    apply preserves_ret. }
  intros _. apply preserves_bind; [|intros _; apply preserves_ret].
  apply preserves_if; [|apply preserves_ret].
  apply preserves_bind; [apply P; exact I|]. intros i1.
  apply preserves_bind.
  { apply preserves_if; [|apply preserves_ret].
    apply preserves_bind; [apply W; cbn; auto|]. intros _.
    apply preserves_ret. }
  intros _. apply preserves_bind; [apply P; exact I|]. intros i2.
  apply preserves_if; [|apply preserves_ret].
  apply preserves_bind; [apply W; cbn; auto 6|]. intros _.
  apply preserves_ret.
Qed.

End Preserves.

Lemma connect_extends (t : string) (u : bool) (s : Server) r s' :
  connect t u s = (r, s') -> extends (cat s) (cat s').
Proof.
  apply (preserves_connect extends extends_refl extends_trans).
  intros q c res c' _. apply run_statement_extends.
Qed.

Lemma mem_extends (x : string) (l l' : list string) :
  incl l l' -> mem x l = true -> mem x l' = true.
Proof. intros I H. apply mem_In. apply I. apply mem_In. exact H. Qed.

Lemma has_index_extends (t i : string) (c c' : catalog) :
  incl (indexes c) (indexes c') ->
  has_index t i c = true -> has_index t i c' = true.
Proof. intros I H. apply has_index_In. apply I. apply has_index_In. exact H. Qed.

Lemma create_type_effect (c : catalog) res c' :
  run_statement CreateTypeIfMissing c = Some (res, c') ->
  tables c' = tables c /\ indexes c' = indexes c /\
  mem version_type (types c') = true.
Proof.
  cbn [run_statement]. intros E. injection E as _ <-.
  destruct (mem version_type (types c)) eqn:T; cbn [tables indexes types];
    auto.
Qed.

Lemma create_table_effect (t : string) (c : catalog) res c' :
  run_statement (CreateTable t) c = Some (res, c') ->
  tables c' = t :: tables c /\ indexes c' = indexes c /\
  relation t c = false.
Proof.
  cbn [run_statement]. intros E.
  destruct (relation t c) eqn:Rl; cbn [orb] in E; [discriminate|].
  destruct (negb (mem version_type (types c))); [discriminate|].
  injection E as _ <-. cbn [tables indexes]. auto.
Qed.

Lemma create_index_effect (i t : string) cols (c : catalog) res c' :
  run_statement (CreateIndex i t cols) c = Some (res, c') ->
  tables c' = tables c /\ indexes c' = (t, i) :: indexes c /\
  relation i c = false /\ mem t (tables c) = true.
Proof.
  cbn [run_statement]. intros E.
  destruct (relation i c) eqn:Rl; cbn [orb] in E; [discriminate|].
  destruct (mem t (tables c)) eqn:T; cbn [negb] in E; [|discriminate].
  injection E as _ <-. cbn [tables indexes]. auto.
Qed.

Lemma has_index_new (t i : string) (c : catalog) (l : list (string * string)) :
  indexes c = (t, i) :: l -> has_index t i c = true.
Proof. intros E. apply has_index_In. rewrite E. left. reflexivity. Qed.

(** One index of [connect], made if the lookup has not found it. *)
Lemma create_if_missing_ok (found : bool) (t i : string) cols (s : Server)
    x s' :
  has_index t i (cat s) = found ->
  (if negb found
   then Stateful.bind (query (CreateIndex i t cols))
          (fun _ => Stateful.ret tt)
   else Stateful.ret tt) s = (Ok x, s') ->
  has_index t i (cat s') = true /\ tables (cat s') = tables (cat s) /\
  incl (indexes (cat s)) (indexes (cat s')).
Proof.
  intros F E. destruct found; cbn [negb] in E.
  - injection E as _ <-.
    split; [exact F|]. split; [reflexivity | apply incl_refl].
  - apply sbind_ok_inv in E as (y & s2 & E2 & E). injection E as _ <-.
    apply schema_query_inv in E2 as [[X _] | (res & _ & E2 & _)];
      [discriminate|].
    apply create_index_effect in E2 as (T2 & I2 & _).
    split; [eapply has_index_new; exact I2|].
    split; [exact T2|]. rewrite I2. apply incl_tl, incl_refl.
Qed.

Lemma index_exists_ok (t i : string) (s : Server) found s' :
  query (IndexExists t i) s = (Ok found, s') ->
  has_index t i (cat s') = found /\ cat s' = cat s.
Proof.
  intros E.
  apply schema_query_inv in E as [[X _] | (res & X & E & _)]; [discriminate|].
  injection X as <-. cbn [run_statement] in E. injection E as F C.
  rewrite <- C. auto.
Qed.

(** What [connect] has made sure of when it returns. *)
Lemma connect_ok (t : string) (u : bool) (s : Server) a s' :
  connect t u s = (Ok a, s') ->
  a = t /\ mem t (tables (cat s')) = true /\
  (if u
   then has_index t (docname_idx t) (cat s') = true /\
        has_index t (docname_id_idx t) (cat s') = true
   else indexes (cat s') = indexes (cat s)).
Proof.
  intros E. unfold connect in E.
  apply sbind_ok_inv in E as (x1 & s1 & E1 & E).
  apply sbind_ok_inv in E as (found & s2 & E2 & E).
  apply sbind_ok_inv in E as (x3 & s3 & E3 & E).
  apply sbind_ok_inv in E as (x4 & s4 & E4 & E).
  injection E as <- <-. split; [reflexivity|].
  apply schema_query_inv in E1 as [[X _] | (res3 & _ & E1 & _)];
    [discriminate|].
  cbn [run_statement] in E1. injection E1 as _ C1.
  apply schema_query_inv in E2 as [[X _] | (res4 & X & E2 & _)];
    [discriminate|].
  injection X as <-. cbn [run_statement] in E2. injection E2 as F C2.
  assert (T3 : mem t (tables (cat s3)) = true /\
               indexes (cat s3) = indexes (cat s)).
  { destruct found; cbn [negb] in E3.
    - injection E3 as _ <-. rewrite <- C2.
      split; [exact F | rewrite <- C1; reflexivity].
    - apply sbind_ok_inv in E3 as (y1 & s5 & E5 & E3).
      apply sbind_ok_inv in E3 as (y2 & s6 & E6 & E3).
      injection E3 as _ <-.
      apply schema_query_inv in E5 as [[X _] | (res5 & _ & E5 & _)];
        [discriminate|].
      apply create_type_effect in E5 as (_ & I5 & _).
      apply schema_query_inv in E6 as [[X _] | (res6 & _ & E6 & _)];
        [discriminate|].
      apply create_table_effect in E6 as (T6 & I6 & _).
      split.
      + rewrite T6. unfold mem. cbn [existsb].
        rewrite String.eqb_refl. reflexivity.
      + rewrite I6, I5, <- C2, <- C1. reflexivity. }
  destruct T3 as [T3 I3]. destruct u.
  - apply sbind_ok_inv in E4 as (f1 & s5 & E5 & E4).
    apply sbind_ok_inv in E4 as (y1 & s6 & E6 & E4).
    apply sbind_ok_inv in E4 as (f2 & s7 & E7 & E4).
    apply index_exists_ok in E5 as [F5 C5].
    apply (create_if_missing_ok _ _ _ _ _ _ _ F5) in E6 as (H6 & T6 & _).
    apply index_exists_ok in E7 as [F7 C7].
    apply (create_if_missing_ok _ _ _ _ _ _ _ F7) in E4 as (H4 & T4 & I4).
    rewrite C7 in *. rewrite C5 in *.
    split; [rewrite T4, T6; exact T3|]. split; [|exact H4].
    eapply has_index_extends; eassumption.
  - injection E4 as _ <-. auto.
Qed.

(** *** Retrying *)

Lemma mem_cons (x y : string) (l : list string) :
  mem x (y :: l) = String.eqb x y || mem x l.
Proof. reflexivity. Qed.

Lemma run_statement_compatible (t : string) (q : statement) (c : catalog)
    res c' :
  q = CreateTypeIfMissing \/ q = CreateTable t \/
  (exists i cols,
     (i = docname_idx t \/ i = docname_id_idx t) /\ q = CreateIndex i t cols) ->
  run_statement q c = Some (res, c') ->
  compatible t c -> compatible t c'.
Proof.
  intros Hq E [C1 C2].
  assert (X : forall i cols,
            i = docname_idx t \/ i = docname_id_idx t ->
            run_statement (CreateIndex i t cols) c = Some (res, c') ->
            compatible t c').
  { clear Hq E. intros i0 cols Hi E.
    apply create_index_effect in E as (T & I & Rl & Tt).
    assert (N : String.eqb t i0 = false).
    { destruct Hi as [-> | ->];
        [apply docname_idx_fresh | apply docname_id_idx_fresh]. }
    split.
    - rewrite I. cbn [map snd]. rewrite mem_cons, N. exact C1.
    - intros i Hi'. destruct (C2 i Hi') as [A B]. rewrite T.
      split; [exact A|]. rewrite I. cbn [map snd]. rewrite mem_cons.
      intros M. split; [|exact Tt].
      apply has_index_In. rewrite I.
      destruct (String.eqb i i0) eqn:Ei.
      + apply String.eqb_eq in Ei. subst i0. left. reflexivity.
      + right. apply has_index_In, B, M. }
  destruct Hq as [-> | [-> | (i & cols & Hi & ->)]].
  - apply create_type_effect in E as (T & I & _).
    unfold compatible, has_index. rewrite T, I. split; assumption.
  - apply create_table_effect in E as (T & I & _). split.
    + rewrite I. exact C1.
    + intros i Hi. destruct (C2 i Hi) as [A B]. rewrite T, mem_cons, I.
      split.
      * rewrite A, orb_false_r.
        destruct Hi as [-> | ->];
          [apply docname_idx_fresh | apply docname_id_idx_fresh].
      * intros M. destruct (B M) as [B1 B2]. split.
        -- apply has_index_In. rewrite I. apply has_index_In, B1.
        -- rewrite mem_cons, String.eqb_refl. reflexivity.
  - eapply X; [exact Hi | exact E].
Qed.

Lemma connect_compatible (t : string) (u : bool) (s : Server) r s' :
  connect t u s = (r, s') ->
  compatible t (cat s) -> compatible t (cat s').
Proof.
  apply (preserves_connect (fun c c' => compatible t c -> compatible t c')).
  - auto.
  - auto.
  - intros q c res c' Hq E. eapply run_statement_compatible; [|exact E].
    destruct Hq as [<- | [<- | [<- | [<- | []]]]]; eauto 8.
Qed.

Lemma create_if_missing_calm (t i : string) cols (s : Server) :
  i = docname_idx t \/ i = docname_id_idx t ->
  compatible t (cat s) -> mem t (tables (cat s)) = true -> outages s = [] ->
  exists s',
    (if negb (has_index t i (cat s))
     then Stateful.bind (query (CreateIndex i t cols))
            (fun _ => Stateful.ret tt)
     else Stateful.ret tt) s = (Ok tt, s') /\
    compatible t (cat s') /\ mem t (tables (cat s')) = true /\
    outages s' = [].
Proof.
  intros Hi C T O.
  destruct (has_index t i (cat s)) eqn:Hx; cbn [negb].
  - eexists. split; [reflexivity|]. auto.
  - assert (Rl : relation i (cat s) = false).
    { destruct C as [_ C2]. destruct (C2 i Hi) as [A B].
      unfold relation. rewrite A. cbn [orb].
      destruct (mem i (map snd (indexes (cat s)))) eqn:M; [|reflexivity].
      destruct (B eq_refl) as [B1 _]. congruence. }
    assert (E : run_statement (CreateIndex i t cols) (cat s) =
                Some (false, mkCatalog (types (cat s)) (tables (cat s))
                                       ((t, i) :: indexes (cat s)))).
    { cbn [run_statement]. rewrite Rl, T. reflexivity. }
    erewrite sbind_ok by (apply schema_query_calm; [exact O | exact E]).
    eexists. split; [reflexivity|]. cbn [cat outages tables].
    split; [|auto].
    eapply (run_statement_compatible t (CreateIndex i t cols));
      [|exact E | exact C].
    right. right. eauto.
Qed.

Lemma connect_calm (t : string) (u : bool) (s : Server) :
  compatible t (cat s) -> outages s = [] ->
  exists s', connect t u s = (Ok t, s') /\ outages s' = [].
Proof.
  intros C O. unfold connect.
  erewrite sbind_ok by (apply schema_query_calm; [exact O | reflexivity]).
  erewrite sbind_ok by (apply schema_query_calm; reflexivity).
  set (s2 := mkServer (cat s) [] ((issued s ++ [SelectOne]) ++ [TableExists t])).
  assert (B3 : exists s3,
            (if negb (mem t (tables (cat s)))
             then Stateful.bind (query CreateTypeIfMissing) (fun _ =>
                    Stateful.bind (query (CreateTable t)) (fun _ =>
                      Stateful.ret tt))
             else Stateful.ret tt) s2 = (Ok tt, s3) /\
            compatible t (cat s3) /\ mem t (tables (cat s3)) = true /\
            outages s3 = []).
  { destruct (mem t (tables (cat s))) eqn:T; cbn [negb].
    - eexists. split; [reflexivity|]. auto.
    - destruct (run_statement CreateTypeIfMissing (cat s)) as [[r1 c1]|] eqn:E1;
        [|discriminate].
      pose proof (create_type_effect _ _ _ E1) as (T1 & I1 & V1).
      assert (C1 : compatible t c1).
      { eapply run_statement_compatible; [|exact E1 | exact C]. auto. }
      assert (E2 : run_statement (CreateTable t) c1 =
                   Some (false, mkCatalog (types c1) (t :: tables c1) (indexes c1))).
      { cbn [run_statement]. unfold relation.
        rewrite T1, I1, T, V1. destruct C as [C _]. rewrite C. reflexivity. }
      erewrite sbind_ok by (apply schema_query_calm; [reflexivity | exact E1]).
      erewrite sbind_ok by (apply schema_query_calm; [reflexivity | exact E2]).
      eexists. split; [reflexivity|]. cbn [cat outages tables].
      split; [|split; [|reflexivity]].
      + eapply run_statement_compatible; [|exact E2 | exact C1]. auto.
      + rewrite mem_cons, String.eqb_refl. reflexivity. }
  destruct B3 as (s3 & E3 & C3 & T3 & O3).
  erewrite sbind_ok by exact E3.
  assert (B4 : exists s4,
            (if u
             then
               Stateful.bind (query (IndexExists t (docname_idx t)))
                 (fun f1 =>
                  Stateful.bind
                    (if negb f1
                     then Stateful.bind
                            (query (CreateIndex (docname_idx t) t
                                      ["docname"%string]))
                            (fun _ => Stateful.ret tt)
                     else Stateful.ret tt)
                    (fun _ =>
                     Stateful.bind (query (IndexExists t (docname_id_idx t)))
                       (fun f2 =>
                        if negb f2
                        then Stateful.bind
                               (query (CreateIndex (docname_id_idx t) t
                                         ["docname"%string; "id"%string]))
                               (fun _ => Stateful.ret tt)
                        else Stateful.ret tt)))
             else Stateful.ret tt) s3 = (Ok tt, s4) /\ outages s4 = []).
  { destruct u; [|eexists; split; [reflexivity | exact O3]].
    erewrite sbind_ok by (apply schema_query_calm; [exact O3 | reflexivity]).
    set (s4 := mkServer (cat s3) []
                 (issued s3 ++ [IndexExists t (docname_idx t)])).
    destruct (create_if_missing_calm t (docname_idx t) ["docname"%string] s4)
      as (s5 & E5 & C5 & T5 & O5); auto.
    cbn [cat run_statement] in *.
    erewrite sbind_ok by exact E5.
    erewrite sbind_ok by (apply schema_query_calm; [exact O5 | reflexivity]).
    set (s6 := mkServer (cat s5) []
                 (issued s5 ++ [IndexExists t (docname_id_idx t)])).
    destruct (create_if_missing_calm t (docname_id_idx t)
                ["docname"%string; "id"%string] s6)
      as (s7 & E7 & C7 & T7 & O7); auto.
    cbn [cat run_statement] in *.
    exists s7. split; [exact E7 | exact O7]. }
  destruct B4 as (s4 & E4 & O4).
  erewrite sbind_ok by exact E4.
  eexists. split; [reflexivity | exact O4].
Qed.

Lemma compatible_empty (t : string) : compatible t empty_catalog.
Proof.
  split; [reflexivity|]. intros i _. split; [reflexivity | discriminate].
Qed.

Lemma length_append (a b : string) :
  String.length (a ++ b) = (String.length a + String.length b)%nat.
Proof.
  induction a as [|c a IH]; cbn [append String.length]; [reflexivity|].
  rewrite IH. reflexivity.
Qed.

Lemma valid_table_name_length (t : string) :
  valid_table_name t -> (1 <= String.length t <= 48)%nat.
Proof.
  intros (N & _ & _ & _ & L). unfold docname_id_idx in L.
  rewrite length_append in L. cbn [String.length] in L.
  destruct t as [|c t]; [contradiction|]. cbn [String.length] in *. lia.
Qed.

Lemma valid_table_name_yjs : valid_table_name "yjs".
Proof.
  split; [discriminate|]. split; [discriminate|].
  split; [reflexivity|]. split.
  - cbn. intros [X|[X|[X|[]]]]; discriminate X.
  - cbn. lia.
Qed.

(** X16.  What [connect] leaves in the catalog, for a table name that
    PostgreSQL takes and that is short enough for the names of its
    indexes to be kept whole (1 to 48 bytes, none of them 0, not the name
    of the type and not one of the system catalog).  Whatever it returns
    or throws, it drops nothing: the types, tables and indexes there were
    are still there.  When it returns, it returns the adapter of the
    table named, the table exists, and with [useIndex] so do its two
    indexes, the one on [docname] and the one on [docname, id], both on
    that table; without [useIndex] each of the two is there only if it
    was. *)
Theorem connect_establishes (t : string) (u : bool) (s : Server)
    (r : result string) (s' : Server) :
  valid_table_name t ->
  connect t u s = (r, s') ->
  extends (cat s) (cat s') /\
  (forall a, r = Ok a ->
     a = t /\ mem t (tables (cat s')) = true /\
     (if u
      then has_index t (docname_idx t) (cat s') = true /\
           has_index t (docname_id_idx t) (cat s') = true
      else has_index t (docname_idx t) (cat s') =
             has_index t (docname_idx t) (cat s) /\
           has_index t (docname_id_idx t) (cat s') =
             has_index t (docname_id_idx t) (cat s))).
Proof.
  intros _ E. split; [eapply connect_extends; exact E|].
  intros a ->. apply connect_ok in E as (A & T & I).
  split; [exact A|]. split; [exact T|].
  destruct u; [exact I|]. unfold has_index. rewrite I. split; reflexivity.
Qed.

Lemma connect_establishes_witness :
  mem "yjs" (tables (cat (snd (connect "yjs" true
                                 (mkServer empty_catalog [] []))))) = true /\
  has_index "yjs" "yjs_docname_id_idx"
    (cat (snd (connect "yjs" true (mkServer empty_catalog [] [])))) = true.
Proof.
  destruct (connect_establishes "yjs" true (mkServer empty_catalog [] [])
              (Ok "yjs"%string)
              (snd (connect "yjs" true (mkServer empty_catalog [] []))))
    as (_ & X).
  - apply valid_table_name_yjs.
  - vm_compute. reflexivity.
  - destruct (X "yjs"%string eq_refl) as (_ & T & _ & I).
    split; [exact T | exact I].
Defined.

(** X17.  [connect] is idempotent.  After a [connect] that returned, a
    second one with the same options, none of whose round trips fails,
    returns as well, sends nothing but its lookups (the test query, the
    lookup of the table and, with [useIndex], of the two indexes) and
    leaves the catalog as it is. *)
Theorem connect_idempotent (t : string) (u : bool) (s : Server) (a : string)
    (s' : Server) :
  connect t u s = (Ok a, s') -> outages s' = [] ->
  exists s2,
    connect t u s' = (Ok t, s2) /\ cat s2 = cat s' /\
    issued s2 =
      issued s' ++
      SelectOne :: TableExists t ::
      (if u
       then [IndexExists t (docname_idx t); IndexExists t (docname_id_idx t)]
       else []).
Proof.
  intros E O. apply connect_ok in E as (_ & T & I). unfold connect.
  erewrite sbind_ok by (apply schema_query_calm; [exact O | reflexivity]).
  erewrite sbind_ok by (apply schema_query_calm; reflexivity).
  cbn [cat]. rewrite T. cbn [negb].
  erewrite sbind_ok by reflexivity.
  destruct u.
  - destruct I as [I1 I2].
    erewrite sbind_ok;
      [|erewrite sbind_ok by (apply schema_query_calm; reflexivity);
        cbn [cat]; rewrite I1; cbn [negb];
        erewrite sbind_ok by reflexivity;
        erewrite sbind_ok by (apply schema_query_calm; reflexivity);
        cbn [cat]; rewrite I2; reflexivity].
    eexists. split; [reflexivity|]. cbn [cat issued].
    split; [reflexivity|]. rewrite <- !app_assoc. reflexivity.
  - erewrite sbind_ok by reflexivity.
    eexists. split; [reflexivity|]. cbn [cat issued].
    split; [reflexivity|]. rewrite <- !app_assoc. reflexivity.
Qed.

Lemma connect_idempotent_witness :
  exists s2,
    connect "yjs" true (snd (connect "yjs" true (mkServer empty_catalog [] [])))
      = (Ok "yjs"%string, s2) /\
    cat s2 = cat (snd (connect "yjs" true (mkServer empty_catalog [] []))).
Proof.
  destruct (connect_idempotent "yjs" true (mkServer empty_catalog [] [])
              "yjs" (snd (connect "yjs" true (mkServer empty_catalog [] []))))
    as (s2 & E & C & _).
  - vm_compute. reflexivity.
  - reflexivity.
  - exists s2. split; [exact E | exact C].
Defined.

(** X18.  [connect] can be tried again.  Its statements are not in a
    transaction, so a [connect] that throws may leave the type without
    the table, or the table without an index.  For a table name that
    PostgreSQL takes and that is short enough for the names of its
    indexes to be kept whole (1 to 48 bytes, none of them 0, not the name
    of the type and not one of the system catalog), on a database that
    had no type, table or index: whatever a [connect] has left behind,
    whichever of its round trips failed, the next [connect] for the table
    none of whose round trips fails returns, with the table in place and,
    if asked for, its two indexes. *)
Theorem connect_retry (t : string) (u u' : bool) (s : Server)
    (r : result string) (s1 : Server) :
  valid_table_name t ->
  cat s = empty_catalog ->
  connect t u s = (r, s1) -> outages s1 = [] ->
  exists s2,
    connect t u' s1 = (Ok t, s2) /\
    mem t (tables (cat s2)) = true /\
    (u' = true ->
     has_index t (docname_idx t) (cat s2) = true /\
     has_index t (docname_id_idx t) (cat s2) = true).
Proof.
  intros _ C0 E O.
  assert (C : compatible t (cat s)) by (rewrite C0; apply compatible_empty).
  pose proof (connect_compatible _ _ _ _ _ E C) as C1.
  destruct (connect_calm t u' s1 C1 O) as (s2 & E2 & _).
  exists s2. split; [exact E2|].
  apply connect_ok in E2 as (_ & T & I). split; [exact T|].
  intros ->. exact I.
Qed.

Lemma connect_retry_witness :
  exists s2,
    connect "yjs" true
      (snd (connect "yjs" true
              (mkServer empty_catalog [false; false; false; true] []))) =
    (Ok "yjs"%string, s2) /\
    mem "yjs" (tables (cat s2)) = true.
Proof.
  destruct (connect_retry "yjs" true true
              (mkServer empty_catalog [false; false; false; true] [])
              (Err StorageUnavailable)
              (snd (connect "yjs" true
                      (mkServer empty_catalog [false; false; false; true] []))))
    as (s2 & E & T & _).
  - apply valid_table_name_yjs.
  - reflexivity.
  - vm_compute. reflexivity.
  - reflexivity.
  - exists s2. split; [exact E | exact T].
Defined.

End Connect.

(** ** The stored clock and the log *)

Lemma checkpoints_sound_delete_document (d : string) (b : database) :
  checkpoints_sound b ->
  checkpoints_sound (snd (exec (DeleteDocument d) b)).
Proof.
  intros S r Hin Hv. cbn [exec snd table] in *.
  apply filter_In in Hin as [Hin Nd].
  destruct (S r Hin Hv) as (sv & c & V & Hc & W).
  exists sv, c. split; [exact V|]. split; [exact Hc|].
  destruct W as [->|(r' & Hr' & U & L)]; [left; reflexivity|].
  right. exists r'. split; [|split; [exact U | exact L]].
  apply filter_In. split; [exact Hr'|].
  apply is_update_iff in U as [U _]. rewrite U. exact Nd.
Qed.

Lemma step_log_ok `{Yjs} (rev : revision) (p : paging) (o : operation)
    (w : World) :
  log_ok (db w) -> log_ok (db (step rev p w o)).
Proof.
  intros L. unfold step. destruct (run rev p o w) as [r w'] eqn:E. cbn [snd].
  destruct o as [d u | d n | d su sv | d].
  1-3: (assert (K : keeps (db w) (db w'));
        [match type of E with
         | run _ _ ?o _ = _ =>
             exact (run_keeps_from (db w) rev p o I w r w' E (keeps_refl _ L))
         end
        | apply K]).
  cbn [run] in E.
  apply bind_inv in E as [(rows & w1 & E1 & E) | (e & E1 & _)].
  - apply ret_inv in E as [_ ->]. unfold PgAdapter.deleteDocument in E1.
    apply query_inv in E1 as [[X _] | [_ R]]; [discriminate|].
    rewrite (ran_db _ _ _ R). destruct L as (K & O & S).
    split; [apply serial_key_filter, K|]. split.
    + apply one_checkpoint_filter, O.
    + apply checkpoints_sound_delete_document, S.
  - unfold PgAdapter.deleteDocument in E1.
    apply query_inv in E1 as [[_ F] | [X _]]; [|discriminate].
    rewrite (failed_db _ _ F). exact L.
Qed.

Lemma steps_log_ok `{Yjs} (rev : revision) (p : paging) (os : list operation) :
  forall w, log_ok (db w) -> log_ok (db (steps rev p os w)).
Proof.
  induction os as [|o os IH]; intros w L; cbn [steps fold_left]; [exact L|].
  apply IH, step_log_ok, L.
Qed.

(** X19.  The stored clock is never ahead of the log.  In the
    synchronous revision, from a table that only the service wrote, after
    every run of its operations, deletions included, whichever round
    trips fail: the state-vector row of a document holds a state vector
    and a clock as [writeStateVector] encodes them, and the clock is 0 or
    at most the id of an update of the document that is still in the
    table. *)
Theorem clock_never_ahead `{Yjs} (p : paging)
    (os : list operation) (w : World) (d : string) (row : Row) :
  log_ok (db w) ->
  checkpoint_of d (db (steps Synchronous p os w)) = Some row ->
  exists sv c,
    value row = encodeStateVectorBuffer sv c /\ 0 <= c /\
    (c = 0 \/
     exists r', In r' (updates_of d (db (steps Synchronous p os w))) /\
                c <= id r').
Proof.
  intros L C. pose proof (steps_log_ok Synchronous p os w L) as (_ & _ & S).
  apply checkpoint_of_Some in C as (Hin & Hd & Hv).
  destruct (S row Hin Hv) as (sv & c & V & Hc & W).
  exists sv, c. split; [exact V|]. split; [exact Hc|].
  destruct W as [->|(r' & Hr' & U & Le)]; [left; reflexivity|].
  right. exists r'. split; [|exact Le].
  apply filter_In. split; [exact Hr'|]. rewrite <- Hd. exact U.
Qed.

Lemma clock_never_ahead_witness :
  exists sv c,
    value (mkRow 3 "doc" [x05; x01; x01] v1_sv) = encodeStateVectorBuffer sv c /\
    0 <= c.
Proof.
  destruct (@clock_never_ahead LogDoc Keyset
              [RecordUpdate "doc" [x0a]; DeleteDoc "doc";
               RecordUpdate "doc" [x0b]; Compact "doc" [x01] [x01]]
              (world_of empty_db []) "doc"
              (mkRow 3 "doc" [x05; x01; x01] v1_sv))
    as (sv & c & V & Hc & _).
  - apply log_ok_empty.
  - vm_compute. reflexivity.
  - exists sv, c. split; [exact V | exact Hc].
Defined.

(** ** An update stored is an update loaded *)

Lemma insert_by_id_snoc (a x : Row) (l : list Row) :
  id a <= id x -> insert_by_id a (l ++ [x]) = insert_by_id a l ++ [x].
Proof.
  intros Le. induction l as [|y l IH]; cbn [app insert_by_id].
  - replace (id a <=? id x) with true by (symmetry; apply Z.leb_le; exact Le).
    reflexivity.
  - destruct (id a <=? id y); [reflexivity|]. rewrite IH. reflexivity.
Qed.

Lemma order_by_id_snoc (l : list Row) (x : Row) :
  (forall y, In y l -> id y <= id x) ->
  order_by_id (l ++ [x]) = order_by_id l ++ [x].
Proof.
  intros Le. unfold order_by_id. rewrite fold_right_app.
  cbn [fold_right insert_by_id].
  induction l as [|a l IH]; cbn [fold_right]; [reflexivity|].
  rewrite IH by (intros y Hy; apply Le; right; exact Hy).
  apply insert_by_id_snoc, Le. left. reflexivity.
Qed.

(** X20.  An update stored is an update loaded, after all the earlier
    ones.  When [storeUpdate] has returned (either revision, on a table
    keyed by the sequence) and no later round trip fails, a
    [getYDocFromDb] of the document (either revision, either
    [readAllUpdates], a [flushSize] that is not negative) returns the
    document made by applying the updates there were, in ascending order
    of id, and then the new one.  For a synchronous [getYDocFromDb] with
    the single query of [pg-adapter.ts], this is for a document that,
    with the new update, has at most [spread_safe] updates. *)
Theorem getYDocFromDb_after_storeUpdate `{Yjs} (rev rev' : revision)
    (p : paging) (d : string) (u : bytes) (w : World) (i : Z) (w1 : World)
    (flushSize : Z) (ydoc : Doc) :
  storeUpdate_of rev d u w = (Ok i, w1) ->
  serial_key (db w) -> faults w1 = [] -> 0 <= flushSize ->
  (rev' = Synchronous -> p = SingleQuery ->
   Z.of_nat (length (updates_of d (db w))) + 1 <= spread_safe) ->
  applyUpdates newDoc
    (map value (order_by_id (updates_of d (db w))) ++ [u]) = Ok ydoc ->
  fst (getYDocFromDb_of rev' (readAllUpdates_of p) d flushSize w1) = Ok ydoc.
Proof.
  intros E K F Hf _ A.
  destruct (storeUpdate_success _ _ _ _ _ _ E K) as (K1 & S & U & _).
  apply load_replays; try assumption.
  rewrite U, String.eqb_refl, order_by_id_snoc, map_app; [exact A|].
  intros y Hy. apply filter_In in Hy as [Hy _].
  destruct K as (_ & _ & Hr). specialize (Hr y Hy). cbn [id]. lia.
Qed.

Lemma getYDocFromDb_after_storeUpdate_witness :
  fst (@getYDocFromDb_of LogDoc Synchronous (readAllUpdates_of SingleQuery)
         "doc" 10
         (snd (@Sync.storeUpdate LogDoc "doc" [x0c] (world_of sample_db [])))) =
  Ok [[x0a]; [x0b]; [x0c]] /\
  fst (@getYDocFromDb_of LogDoc FireAndForget (readAllUpdates_of Keyset)
         "doc" 10
         (snd (@Sync.storeUpdate LogDoc "doc" [x0c] (world_of sample_db [])))) =
  Ok [[x0a]; [x0b]; [x0c]].
Proof.
  split.
  - apply (@getYDocFromDb_after_storeUpdate LogDoc Synchronous Synchronous
             SingleQuery "doc" [x0c] (world_of sample_db []) 5
             (snd (@Sync.storeUpdate LogDoc "doc" [x0c] (world_of sample_db [])))
             10 [[x0a]; [x0b]; [x0c]]).
    + vm_compute. reflexivity.
    + apply serial_key_sample.
    + reflexivity.
    + lia.
    + intros _ _. vm_compute. discriminate.
    + reflexivity.
  - apply (@getYDocFromDb_after_storeUpdate LogDoc Synchronous FireAndForget
             Keyset "doc" [x0c] (world_of sample_db []) 5
             (snd (@Sync.storeUpdate LogDoc "doc" [x0c] (world_of sample_db [])))
             10 [[x0a]; [x0b]; [x0c]]).
    + vm_compute. reflexivity.
    + apply serial_key_sample.
    + reflexivity.
    + lia.
    + intros X. discriminate X.
    + reflexivity.
Defined.

(** ** The round trips of a keyset scan *)

(** X21.  The round trips of the keyset [readAllUpdates].  In a run
    without failing round trips, on a table keyed by the sequence, a
    document with [n] updates is read with [n / 1000 + 1] queries: one
    for each full page, and one more, which finds the rest of the rows,
    or none. *)
Theorem readAllUpdates_round_trips (d : string) (w : World) :
  faults w = [] -> serial_key (db w) ->
  exists j,
    journal (snd (readAllUpdates_of Keyset _ d collect [] w)) = journal w ++ j /\
    Forall (scan_query d) j /\
    Z.of_nat (length j) = Z.of_nat (length (updates_of d (db w))) / 1000 + 1.
Proof.
  intros F K.
  destruct (scan_pages Keyset d w F K)
    as (pages & w' & E & _ & _ & _ & Cc & _ & Fp).
  destruct (Fp eq_refl) as [Fp' _]. clear Fp. rename Fp' into Fp.
  pose proof (scan_reads Keyset d collect [] w) as Rd.
  rewrite E in *. cbn [snd] in *. destruct Rd as (_ & _ & j0 & J0 & Q0).
  cbn [readAllUpdates_of] in E. unfold keyset, PgAdapterPaged.readAllUpdates in E.
  apply keyset_loop_full in E as (fulls & rest & Ep & Ff & Hr & j & J & Lj).
  cbn [app] in Ep. subst pages.
  assert (j0 = j) by (rewrite J0 in J; apply app_inv_head in J; exact J).
  subst j0. exists j. split; [exact J|]. split; [exact Q0|].
  rewrite <- (order_by_id_length (updates_of d (db w))), <- Cc.
  apply Forall_app in Fp as [Fp1 Fp2].
  assert (Fe : Forall (fun pg => Z.of_nat (length pg) = 1000) fulls).
  { rewrite Forall_forall in *. intros pg Hpg.
    specialize (Ff pg Hpg). specialize (Fp1 pg Hpg). cbn beta in *.
    apply Z.ltb_ge in Ff. unfold PgAdapterPaged.BATCH_SIZE in *. lia. }
  rewrite concat_app, length_app, Nat2Z.inj_add, (length_concat_full _ Fe), Lj.
  destruct Hr as [-> | (pg & -> & Hs)].
  - cbn [concat length]. rewrite Z.add_0_r, Z.mul_comm, Z.div_mul by lia. lia.
  - cbn [concat]. rewrite app_nil_r. apply Z.ltb_lt in Hs.
    unfold PgAdapterPaged.BATCH_SIZE in Hs.
    replace (1000 * Z.of_nat (length fulls) + Z.of_nat (length pg))
      with (Z.of_nat (length pg) + Z.of_nat (length fulls) * 1000) by lia.
    rewrite Z.div_add by lia. rewrite Z.div_small by lia. lia.
Qed.

Lemma readAllUpdates_round_trips_witness :
  exists j,
    journal (snd (readAllUpdates_of Keyset _ "doc"%string collect []
                    (world_of sample_db []))) = [] ++ j /\
    Z.of_nat (length j) = 1.
Proof.
  destruct (readAllUpdates_round_trips "doc" (world_of sample_db []))
    as (j & J & _ & L).
  - reflexivity.
  - apply serial_key_sample.
  - exists j. split; [exact J | exact L].
Defined.

(** ** When [getYDocFromDb] flushes *)

(** X22.  The synchronous [getYDocFromDb] flushes exactly when the
    document has more than [flushSize] updates.  In a run without failing
    round trips, on a table keyed by the sequence and with at most one
    state-vector row for a document, with the updates of
    the document all applicable and a [flushSize] that is not negative,
    with either [readAllUpdates] (with the single query of
    [pg-adapter.ts], for a document of at most [spread_safe] updates): it
    returns the document; if the number of updates exceeds [flushSize],
    the document is left with the one full-state update of the document
    returned and with the state-vector row of its clock; otherwise the
    table is as it was. *)
Theorem sync_getYDocFromDb_flushes `{Yjs} (p : paging) (d : string)
    (flushSize : Z) (w : World) (ydoc : Doc) :
  faults w = [] -> serial_key (db w) -> one_checkpoint (db w) ->
  0 <= flushSize ->
  (p = SingleQuery ->
   Z.of_nat (length (updates_of d (db w))) <= spread_safe) ->
  applyUpdates newDoc (map value (order_by_id (updates_of d (db w)))) = Ok ydoc ->
  exists w',
    Sync.getYDocFromDb (readAllUpdates_of p) d flushSize w = (Ok ydoc, w') /\
    console w' = console w /\
    if Z.of_nat (length (updates_of d (db w))) >? flushSize
    then
      updates_of d (db w') =
        [mkRow (serial (db w)) d (encodeStateAsUpdate ydoc) v1] /\
      exists row,
        checkpoint_of d (db w') = Some row /\
        value row =
          encodeStateVectorBuffer (encodeStateVector ydoc) (serial (db w))
    else db w' = db w.
Proof.
  intros F K _ Hf _ A.
  destruct (sync_load p d flushSize w ydoc F K A) as (w1 & F1 & D1 & C1 & ->).
  destruct (Z.of_nat (length (updates_of d (db w))) >? flushSize) eqn:G.
  - apply Z.gtb_lt in G.
    destruct (flushDocument_calm Synchronous d (encodeStateAsUpdate ydoc)
                (encodeStateVector ydoc) w1) as (w2 & E & _ & C2);
      [exact F1 | rewrite D1; exact K
      | rewrite D1; apply updates_of_length_pos; lia |].
    destruct (flushDocument_leaves _ _ _ _ _ _ _ E) as (_ & U & C);
      [rewrite D1; exact K|].
    cbn [flushDocument_of] in E. rewrite D1 in *.
    exists w2. erewrite bind_ok by exact E.
    split; [reflexivity|]. split; [congruence|]. split; [exact U | exact C].
  - exists w1. split; [reflexivity|]. split; [exact C1 | exact D1].
Qed.

Lemma sync_getYDocFromDb_flushes_witness :
  (exists w',
     @Sync.getYDocFromDb LogDoc (readAllUpdates_of SingleQuery) "doc" 2
       (world_of sample_db []) = (Ok [[x0a]; [x0b]], w') /\
     db w' = sample_db) /\
  (exists w',
     @Sync.getYDocFromDb LogDoc (readAllUpdates_of SingleQuery) "doc" 1
       (world_of sample_db []) = (Ok [[x0a]; [x0b]], w') /\
     updates_of "doc" (db w') = [mkRow 5 "doc" [x01; x0a; x0b] v1]).
Proof.
  split.
  - destruct (@sync_getYDocFromDb_flushes LogDoc SingleQuery "doc" 2
                (world_of sample_db []) [[x0a]; [x0b]])
      as (w' & E & _ & X).
    + reflexivity.
    + apply serial_key_sample.
    + apply one_checkpoint_sample.
    + lia.
    + intros _. vm_compute. discriminate.
    + reflexivity.
    + exists w'. split; [exact E | exact X].
  - destruct (@sync_getYDocFromDb_flushes LogDoc SingleQuery "doc" 1
                (world_of sample_db []) [[x0a]; [x0b]])
      as (w' & E & _ & X).
    + reflexivity.
    + apply serial_key_sample.
    + apply one_checkpoint_sample.
    + lia.
    + intros _. vm_compute. discriminate.
    + reflexivity.
    + exists w'. split; [exact E | apply X].
Defined.

(** X23.  When the fire-and-forget [getYDocFromDb] starts its flush.  In
    a run without failing round trips, on a table keyed by the sequence,
    with the updates of the document all applicable: the flush is started
    exactly when 1000 times the number of pages handed to the callback
    exceeds [flushSize]; the pages are one with the [readAllUpdates] of
    [pg-adapter.ts], whatever the number of updates, and with the keyset
    one as many as thousands of updates, a begun thousand counting as
    one.  The table and the console are, when the flush is started, as
    they were before the call. *)
Theorem async_getYDocFromDb_threshold `{Yjs} (p : paging) (d : string)
    (flushSize : Z) (w : World) (ydoc : Doc) :
  faults w = [] -> serial_key (db w) ->
  applyUpdates newDoc (map value (order_by_id (updates_of d (db w)))) = Ok ydoc ->
  exists w1,
    faults w1 = [] /\ db w1 = db w /\ console w1 = console w /\
    Async.getYDocFromDb (readAllUpdates_of p) d flushSize w =
    if (match p with
        | SingleQuery => 1
        | Keyset => (Z.of_nat (length (updates_of d (db w))) + 999) / 1000
        end) * 1000 >? flushSize
    then fire_and_forget Async.flush_error (flush_in_background d ydoc)
           (ret ydoc) w1
    else (Ok ydoc, w1).
Proof.
  intros F K A.
  destruct (async_load p d flushSize w ydoc F K A)
    as (pages & w1 & F1 & D1 & C1 & _ & Sp & Fp & E).
  exists w1. split; [exact F1|]. split; [exact D1|]. split; [exact C1|].
  rewrite E. destruct p.
  - rewrite (Sp eq_refl). reflexivity.
  - destruct (Fp eq_refl) as [_ ->]. reflexivity.
Qed.

Lemma async_getYDocFromDb_threshold_witness :
  exists w1,
    @Async.getYDocFromDb LogDoc (readAllUpdates_of Keyset) "doc" 500
      (world_of sample_db []) =
    fire_and_forget Async.flush_error
      (@flush_in_background LogDoc "doc" [[x0a]; [x0b]])
      (ret [[x0a]; [x0b]]) w1.
Proof.
  destruct (@async_getYDocFromDb_threshold LogDoc Keyset "doc" 500
              (world_of sample_db []) [[x0a]; [x0b]])
    as (w1 & _ & _ & _ & E).
  - reflexivity.
  - apply serial_key_sample.
  - reflexivity.
  - exists w1. exact E.
Defined.

(** ** Loading a log that cannot be applied *)

Lemma keyset_loop_refused {S : Type} (d : string) :
  forall fuel c total acc w n ps w',
    PgAdapterPaged.readAllUpdates_loop fuel d collect c total acc w =
      (Ok (n, ps), w') ->
    forall pages (cb : S -> list Row -> result S) s e,
      ps = acc ++ pages -> visit cb pages s = Err e ->
      fst (PgAdapterPaged.readAllUpdates_loop fuel d cb c total s w) = Err e.
Proof.
  induction fuel as [|fuel IH]; intros c total acc w n ps w' E;
    cbn [PgAdapterPaged.readAllUpdates_loop] in E; [discriminate|].
  apply bind_ok_inv in E as (res & w1 & Q & E). destruct res as [|x res].
  - apply ret_inv in E as [E ->].
    assert (X : ps = acc) by congruence. subst ps. clear E.
    intros pages cb s e Ep V.
    rewrite <- (app_nil_r acc) in Ep at 1. apply app_inv_head in Ep.
    subst pages. discriminate.
  - remember (map PgAdapter.as_update (x :: res)) as rows eqn:HR.
    apply bind_ok_inv in E as (acc' & w2 & L & E).
    apply lift_inv in L as [L ->].
    assert (A : acc' = acc ++ [rows]) by (unfold collect in L; congruence).
    subst acc'. clear L.
    assert (R : forall (cb : S -> list Row -> result S) s e,
              cb s rows = Err e ->
              fst (PgAdapterPaged.readAllUpdates_loop (Datatypes.S fuel) d cb
                     c total s w) = Err e).
    { intros cb s e C. cbn [PgAdapterPaged.readAllUpdates_loop].
      erewrite bind_ok by exact Q. rewrite <- HR.
      erewrite bind_err by (unfold lift; rewrite C; reflexivity).
      reflexivity. }
    destruct (Z.of_nat (length rows) <? PgAdapterPaged.BATCH_SIZE) eqn:B.
    + apply ret_inv in E as [E ->].
      assert (X : ps = acc ++ [rows]) by congruence. subst ps. clear E.
      intros pages cb s e Ep V. apply app_inv_head in Ep. subst pages.
      cbn [visit] in V. destruct (cb s rows) as [s1|e1] eqn:C;
        [discriminate|].
      injection V as ->. apply R, C.
    + intros pages cb s e Ep V.
      destruct (keyset_loop_visit (S := S) d _ _ _ _ _ _ _ _ E)
        as (pages' & Ep' & _).
      rewrite Ep', <- app_assoc in Ep. apply app_inv_head in Ep.
      cbn [app] in Ep. subst pages. cbn [visit] in V.
      destruct (cb s rows) as [s1|e1] eqn:C.
      * cbn [PgAdapterPaged.readAllUpdates_loop].
        erewrite bind_ok by exact Q. rewrite <- HR.
        erewrite bind_ok by (unfold lift; rewrite C; reflexivity).
        rewrite B. eapply IH; [exact E | exact Ep' | exact V].
      * injection V as ->. apply R, C.
Qed.

(** If the callback throws on a page, so does the scan. *)
Lemma scan_refused (p : paging) {S : Type} (d : string) (w : World) n pages w'
    (cb : S -> list Row -> result S) (s : S) (e : error) :
  readAllUpdates_of p _ d collect [] w = (Ok (n, pages), w') ->
  visit cb pages s = Err e ->
  fst (readAllUpdates_of p S d cb s w) = Err e.
Proof.
  intros E V. destruct p; cbn [readAllUpdates_of] in *.
  - unfold single_query, PgAdapter.readAllUpdates in *.
    apply bind_ok_inv in E as (res & w1 & Q & E).
    apply bind_ok_inv in E as (acc' & w2 & L & E).
    apply lift_inv in L as [L ->].
    assert (A : acc' = [] ++ [map PgAdapter.as_update res])
      by (unfold collect in L; congruence).
    subst acc'. clear L.
    apply ret_inv in E as [E ->].
    assert (X : pages = [] ++ [map PgAdapter.as_update res]) by congruence.
    subst pages. clear E. cbn [app visit] in V.
    destruct (cb s (map PgAdapter.as_update res)) as [s1|e1] eqn:C;
      [discriminate|].
    injection V as ->.
    erewrite bind_ok by exact Q.
    erewrite bind_err by (unfold lift; rewrite C; reflexivity).
    reflexivity.
  - unfold keyset, PgAdapterPaged.readAllUpdates in *.
    eapply keyset_loop_refused; [exact E | reflexivity | exact V].
Qed.

Lemma visit_apply_page_refused `{Yjs} (pages : list (list Row)) :
  forall (y0 : Doc) (k : Z) (e : error),
    applyUpdates y0 (map value (concat pages)) = Err e ->
    visit apply_page pages (y0, k) = Err e.
Proof.
  induction pages as [|pg pages IH]; intros y0 k e A;
    cbn [concat visit] in *; [discriminate|].
  rewrite map_app, applyUpdates_app in A. unfold apply_page at 1.
  cbn [fst snd].
  destruct (applyUpdates y0 (map value pg)) as [y1|e1];
    [apply IH, A | congruence].
Qed.

(** X24.  A log that cannot be applied cannot be loaded, and is left
    alone.  In a run without failing round trips, on a table keyed by the
    sequence: if applying the updates of the document in ascending order
    of id to a new [Y.Doc] throws, [getYDocFromDb] throws that error, in
    either revision and with either [readAllUpdates], whatever
    [flushSize] is; it starts no flush, so the table is as it was, and it
    writes nothing to the console.  For the synchronous revision with the
    single query of [pg-adapter.ts], this is for a document of at most
    [spread_safe] updates. *)
Theorem getYDocFromDb_refused_log `{Yjs} (rev : revision) (p : paging)
    (d : string) (flushSize : Z) (w : World) (e : error) :
  faults w = [] -> serial_key (db w) ->
  (rev = Synchronous -> p = SingleQuery ->
   Z.of_nat (length (updates_of d (db w))) <= spread_safe) ->
  applyUpdates newDoc (map value (order_by_id (updates_of d (db w)))) = Err e ->
  fst (getYDocFromDb_of rev (readAllUpdates_of p) d flushSize w) = Err e /\
  db (snd (getYDocFromDb_of rev (readAllUpdates_of p) d flushSize w)) = db w /\
  console (snd (getYDocFromDb_of rev (readAllUpdates_of p) d flushSize w)) =
    console w.
Proof.
  intros F K _ A.
  destruct (scan_pages p d w F K) as (pages & w1 & E & F1 & D1 & C1 & Cc & _).
  destruct rev; cbn [getYDocFromDb_of].
  - unfold Sync.getYDocFromDb.
    erewrite bind_ok by (eapply scan_visit; [exact E | apply visit_payloads]).
    cbn [fst snd app]. rewrite Cc.
    erewrite bind_err by (unfold lift; rewrite A; reflexivity).
    cbn [fst snd]. auto.
  - unfold Async.getYDocFromDb. fold apply_page.
    pose proof (scan_refused p d w _ pages w1 apply_page (newDoc, 0) e E) as R.
    pose proof (scan_reads p d apply_page (newDoc, 0) w) as (Rd & Rc & _).
    destruct (readAllUpdates_of p (Doc * Z)%type d apply_page (newDoc, 0) w)
      as [r w2] eqn:E2.
    cbn [fst snd] in *.
    rewrite R in E2 by (apply visit_apply_page_refused; rewrite Cc; exact A).
    erewrite bind_err by exact E2. cbn [fst snd]. auto.
Qed.

Lemma getYDocFromDb_refused_log_witness :
  fst (@getYDocFromDb_of LogDoc Synchronous (readAllUpdates_of SingleQuery)
         "doc" 0 (world_of (mkDb [mkRow 1 "doc" [] v1] 2) [])) =
  Err InvalidUpdate /\
  fst (@getYDocFromDb_of LogDoc FireAndForget (readAllUpdates_of Keyset)
         "doc" 0 (world_of (mkDb [mkRow 1 "doc" [] v1] 2) [])) =
  Err InvalidUpdate.
Proof.
  assert (K : serial_key (db (world_of (mkDb [mkRow 1 "doc" [] v1] 2) []))).
  { split; [cbn [db world_of serial]; lia|]. split.
    - cbn [db world_of table map id]. repeat constructor. intros [].
    - cbn [db world_of table serial]. intros r [<-|[]]. cbn [id]. lia. }
  split.
  - apply (@getYDocFromDb_refused_log LogDoc Synchronous SingleQuery "doc" 0
             (world_of (mkDb [mkRow 1 "doc" [] v1] 2) []) InvalidUpdate).
    + reflexivity.
    + exact K.
    + intros _ _. vm_compute. discriminate.
    + reflexivity.
  - apply (@getYDocFromDb_refused_log LogDoc FireAndForget Keyset "doc" 0
             (world_of (mkDb [mkRow 1 "doc" [] v1] 2) []) InvalidUpdate).
    + reflexivity.
    + exact K.
    + intros X. discriminate X.
    + reflexivity.
Defined.
